(** * The webview-to-IDE messaging layer

    A shallow embedding of the message protocol between the sandboxed GUI
    and the IDE host: the transport selector [_postToIde], the retrying
    dispatcher [postToIde], the reply path [respondToIde], the unary call
    [ideRequest] and the streaming call [ideStreamRequest].  Line numbers
    in comments are those of the source file that defines them.

    The browser runtime is an explicit [World]: the host environment, the
    uuid generator, the registered "message" listeners, the abort signals,
    the pending timers, the promise and generator heaps, and a chronological
    trace of the effects the code performs.  Code runs to completion
    between events; a schedule of [Action]s says what happens in between. *)

From Stdlib Require Import ZArith String.
From stdpp Require Import base option list gmap strings.

Local Open Scope string_scope.
Local Open Scope list_scope.

(** ** JavaScript values carried as payloads *)

Module JS.

(** Payloads are [any] in the source.  The fragment modelled here is
    undefined, null, booleans, strings and plain objects; numbers and
    arrays are left out. *)
#[warnings="-register-all"]
Inductive Value : Type :=
| VUndefined
| VNull
| VBool (b : bool)
| VStr (s : string)
| VObj (fields : list (string * Value)).

Fixpoint field (k : string) (fs : list (string * Value)) : Value :=
  match fs with
  | [] => VUndefined
  | (k', v) :: rest => if String.eqb k k' then v else field k rest
  end.

(** [v.k] for the keys the source reads ([done], [content]).  Reading a
    property of undefined or null raises a TypeError: [None].  A primitive
    has neither key. *)
Definition get (v : Value) (k : string) : option Value :=
  match v with
  | VUndefined | VNull => None
  | VObj fs => Some (field k fs)
  | VBool _ | VStr _ => Some VUndefined
  end.

(** ToBoolean, as used by [if (event.data.data.done)]. *)
Definition truthy (v : Value) : bool :=
  match v with
  | VUndefined | VNull => false
  | VBool b => b
  | VStr s => negb (String.eqb s "")
  | VObj _ => true
  end.

(** ToString, as applied by [buffer += x] to its right operand. *)
Definition to_string (v : Value) : string :=
  match v with
  | VUndefined => "undefined"
  | VNull => "null"
  | VBool true => "true"
  | VBool false => "false"
  | VStr s => s
  | VObj _ => "[object Object]"
  end.

(** [s.slice(start)] for a non-negative [start]. *)
Fixpoint slice (s : string) (start : nat) {struct start} : string :=
  match start, s with
  | O, _ => s
  | S n, String _ rest => slice rest n
  | S _, EmptyString => EmptyString
  end.

End JS.
Export JS.

(** ** Envelopes, environment, effects *)

(** [Message] of core/util/messenger. *)
Record Message := {
  messageId : string;
  messageType : string;
  data : Value }.

(** [window.postIntellijMessage]. *)
Inductive Bridge := BUndefined | BNull | BFunction.

(** What [_postToIde] inspects on every call.  The send primitives
    themselves, [vscode.postMessage] and the bridge function, are taken to
    return normally when called. *)
Record Env := {
  vscode : bool;                   (* typeof vscode !== "undefined" *)
  ide : option string;             (* localStorage.getItem("ide") *)
  postIntellijMessage : Bridge }.

(** Timer callbacks passed to [setTimeout]. *)
Inductive Callback :=
| RetryPost (messageType : string) (data : Value) (messageId : option string)
            (attempt : nat)       (* () => postToIde(.., attempt + 1) *)
| ResolveSleep (g : nat).         (* resolve of the 50 ms sleep of generator g *)

(** The console lines of the source. *)
Inductive LogEntry :=
| UnableIntellij (messageType : string) (data : Value)
    (* "Unable to send message: postIntellijMessage is undefined. " *)
| UnableVscode (messageType : string) (data : Value)
    (* "Unable to send message: vscode is undefined. " *)
| AttemptFailed (attempt : nat)
    (* `Attempt ${attempt} failed. Retrying...` *)
| MaxAttempts (error : string).
    (* console.error("Max attempts reached. Message could not be sent.", error) *)

Inductive Effect :=
| Console (l : LogEntry)
| PostMessage (msg : Message)                       (* vscode.postMessage(msg) *)
| PostIntellij (messageType : string) (data : Value) (messageId : string)
| SetTimeout (cb : Callback) (ms : Z)
| Resolve (promise : nat) (v : Value)               (* resolve(v) called *)
| Yield (g : nat) (chunk : string)                  (* generator g yields *)
| Return (g : nat) (v : Value)                      (* generator g returns *)
| Uncaught (g : nat).                               (* TypeError inside g's listener *)

Inductive Completion := Normal | Throw (error : string).

(** ** Generators and listeners *)

(** The locals of one [ideStreamRequest] activation, shared between the
    generator body and its [handler] closure. *)
Record Frame := {
  f_messageId : string;
  buffer : string;
  index : nat;
  done : bool;
  returnVal : Value }.

(** Where a started generator is parked. *)
Inductive PC :=
| AtLoopYield     (* line 132 *)
| AtSleep         (* line 134 *)
| AtFinalYield    (* line 140 *)
| Completed.

Inductive Generator :=
| Unstarted (messageType : string) (data : Value) (cancelToken : option nat)
| Started (f : Frame) (pc : PC) (requests : nat).

(** A registered "message" listener, identified by the heap cell its
    closure captured. *)
Inductive Listener :=
| UnaryHandler (messageId : string) (promise : nat)
| StreamHandler (g : nat).

Global Instance Listener_eq_dec : EqDecision Listener.
Proof. solve_decision. Defined.

(** An [AbortSignal]: whether it has fired, and the message ids captured by
    the "abort" listeners added to it. *)
Record Signal := {
  aborted : bool;
  on_abort : list string }.

Definition fresh_signal : Signal := {| aborted := false; on_abort := [] |}.

Record World := {
  env : Env;
  uuids : nat -> string;            (* the values uuidv4() returns, in order *)
  uuid_next : nat;
  listeners : list Listener;        (* window "message" listeners *)
  signals : gmap nat Signal;
  timers : list Callback;           (* pending setTimeout callbacks *)
  promises : gmap nat Value;        (* settled promises *)
  generators : gmap nat Generator;
  next_ref : nat;
  trace : list Effect }.

Definition set_env (e : Env) (w : World) : World :=
  {| env := e; uuids := uuids w; uuid_next := uuid_next w;
     listeners := listeners w; signals := signals w; timers := timers w;
     promises := promises w; generators := generators w;
     next_ref := next_ref w; trace := trace w |}.

Definition set_uuid_next (n : nat) (w : World) : World :=
  {| env := env w; uuids := uuids w; uuid_next := n;
     listeners := listeners w; signals := signals w; timers := timers w;
     promises := promises w; generators := generators w;
     next_ref := next_ref w; trace := trace w |}.

Definition set_listeners (ls : list Listener) (w : World) : World :=
  {| env := env w; uuids := uuids w; uuid_next := uuid_next w;
     listeners := ls; signals := signals w; timers := timers w;
     promises := promises w; generators := generators w;
     next_ref := next_ref w; trace := trace w |}.

Definition set_signals (ss : gmap nat Signal) (w : World) : World :=
  {| env := env w; uuids := uuids w; uuid_next := uuid_next w;
     listeners := listeners w; signals := ss; timers := timers w;
     promises := promises w; generators := generators w;
     next_ref := next_ref w; trace := trace w |}.

Definition set_timers (ts : list Callback) (w : World) : World :=
  {| env := env w; uuids := uuids w; uuid_next := uuid_next w;
     listeners := listeners w; signals := signals w; timers := ts;
     promises := promises w; generators := generators w;
     next_ref := next_ref w; trace := trace w |}.

Definition set_promises (ps : gmap nat Value) (w : World) : World :=
  {| env := env w; uuids := uuids w; uuid_next := uuid_next w;
     listeners := listeners w; signals := signals w; timers := timers w;
     promises := ps; generators := generators w;
     next_ref := next_ref w; trace := trace w |}.

Definition set_generators (gs : gmap nat Generator) (w : World) : World :=
  {| env := env w; uuids := uuids w; uuid_next := uuid_next w;
     listeners := listeners w; signals := signals w; timers := timers w;
     promises := promises w; generators := gs;
     next_ref := next_ref w; trace := trace w |}.

Definition set_next_ref (n : nat) (w : World) : World :=
  {| env := env w; uuids := uuids w; uuid_next := uuid_next w;
     listeners := listeners w; signals := signals w; timers := timers w;
     promises := promises w; generators := generators w;
     next_ref := n; trace := trace w |}.

Definition set_trace (t : list Effect) (w : World) : World :=
  {| env := env w; uuids := uuids w; uuid_next := uuid_next w;
     listeners := listeners w; signals := signals w; timers := timers w;
     promises := promises w; generators := generators w;
     next_ref := next_ref w; trace := t |}.

(** A page that has just loaded. *)
Definition initial_world (e : Env) (ids : nat -> string) : World :=
  {| env := e; uuids := ids; uuid_next := 0;
     listeners := []; signals := ∅; timers := [];
     promises := ∅; generators := ∅; next_ref := 0; trace := [] |}.

(** ** Runtime primitives *)

Definition emit (e : Effect) (w : World) : World :=
  set_trace (trace w ++ [e]) w.

(** [uuidv4()]: the next value of the generator. *)
Definition uuidv4 (w : World) : string * World :=
  (uuids w (uuid_next w), set_uuid_next (S (uuid_next w)) w).

(** [messageId ?? uuidv4()] *)
Definition or_uuidv4 (messageId : option string) (w : World) : string * World :=
  match messageId with
  | Some id => (id, w)
  | None => uuidv4 w
  end.

(** [setTimeout(cb, ms)]: the timer is pending and the call is on the
    trace with its delay. *)
Definition setTimeout (cb : Callback) (ms : Z) (w : World) : World :=
  emit (SetTimeout cb ms) (set_timers (timers w ++ [cb]) w).

(** [window.addEventListener("message", l)] and its inverse; a listener
    already registered is not added twice. *)
Definition addEventListener (l : Listener) (w : World) : World :=
  if decide (l ∈ listeners w) then w
  else set_listeners (listeners w ++ [l]) w.

Definition removeEventListener (l : Listener) (w : World) : World :=
  set_listeners (filter (λ l', l' ≠ l) (listeners w)) w.

(** ** Transport selector and dispatcher *)

(** [localStorage.getItem("ide") === "jetbrains"] *)
Definition jetbrains (e : Env) : bool :=
  match ide e with
  | Some s => String.eqb s "jetbrains"
  | None => false
  end.

(** Lines 15-47.  With a null bridge the optional call [?.(...)] is
    skipped together with its arguments. *)
Definition _postToIde (messageType : string) (data : Value)
    (messageId : option string) (w : World) : Completion * World :=
  if negb (vscode (env w)) then
    if jetbrains (env w) then
      match postIntellijMessage (env w) with
      | BUndefined =>
          (Throw "postIntellijMessage is undefined",
           emit (Console (UnableIntellij messageType data)) w)
      | BNull => (Normal, w)
      | BFunction =>
          let '(id, w1) := or_uuidv4 messageId w in
          (Normal, emit (PostIntellij messageType data id) w1)
      end
    else (Normal, emit (Console (UnableVscode messageType data)) w)
  else
    let '(id, w1) := or_uuidv4 messageId w in
    let msg := {| messageId := id; messageType := messageType; data := data |} in
    (Normal, emit (PostMessage msg) w1).

(** Lines 49-68.  The [try] catches whatever the selector throws, so the
    dispatcher itself always returns normally. *)
Definition postToIde (messageType : string) (data : Value)
    (messageId : option string) (attempt : nat) (w : World) : World :=
  match _postToIde messageType data messageId w with
  | (Normal, w1) => w1
  | (Throw error, w1) =>
      if (attempt <? 5)%nat then
        setTimeout (RetryPost messageType data messageId (attempt + 1))
                   (2 ^ Z.of_nat attempt * 1000)
                   (emit (Console (AttemptFailed attempt)) w1)
      else emit (Console (MaxAttempts error)) w1
  end.

(** Lines 70-76: no [try] here. *)
Definition respondToIde (messageType : string) (data : Value)
    (messageId : string) (w : World) : Completion * World :=
  _postToIde messageType data (Some messageId) w.

(** ** Unary calls *)

(** [resolve(v)] of the promise [p]; settling a settled promise changes
    nothing. *)
Definition resolve (p : nat) (v : Value) (w : World) : World :=
  let w1 := emit (Resolve p v) w in
  match promises w !! p with
  | Some _ => w1
  | None => set_promises (<[p := v]> (promises w)) w1
  end.

(** The [handler] closure of [ideRequest] (lines 85-90). *)
Definition unary_handler (id : string) (p : nat) (event : Message)
    (w : World) : World :=
  if String.eqb (messageId event) id then
    resolve p (data event) (removeEventListener (UnaryHandler id p) w)
  else w.

(** The call runs synchronously up to the returned promise [p]. *)
Definition ideRequest (messageType : string) (data : Value) (w : World)
    : nat * World :=
  let '(id, w1) := uuidv4 w in
  let p := next_ref w1 in
  let w2 := set_next_ref (S p) w1 in
  let w3 := addEventListener (UnaryHandler id p) w2 in
  (p, postToIde messageType data (Some id) 0 w3).

(** ** Streaming calls *)

Definition set_buffer (b : string) (f : Frame) : Frame :=
  {| f_messageId := f_messageId f; buffer := b; index := index f;
     done := done f; returnVal := returnVal f |}.

Definition set_index (i : nat) (f : Frame) : Frame :=
  {| f_messageId := f_messageId f; buffer := buffer f; index := i;
     done := done f; returnVal := returnVal f |}.

Definition set_done (v : Value) (f : Frame) : Frame :=
  {| f_messageId := f_messageId f; buffer := buffer f; index := index f;
     done := true; returnVal := v |}.

(** Store generator [g] parked at [pc] with [requests] unanswered
    [next()] calls. *)
Definition park (g : nat) (f : Frame) (pc : PC) (requests : nat)
    (w : World) : World :=
  set_generators (<[g := Started f pc requests]> (generators w)) w.

(** The [handler] closure of [ideStreamRequest] (lines 111-121).  It reads
    and writes the locals of its own activation. *)
Definition stream_handler (g : nat) (event : Message) (w : World) : World :=
  match generators w !! g with
  | Some (Started f pc r) =>
      if String.eqb (messageId event) (f_messageId f) then
        match get (data event) "done" with
        | None => emit (Uncaught g) w
        | Some d =>
            if truthy d then
              park g (set_done (data event) f) pc r
                   (removeEventListener (StreamHandler g) w)
            else
              match get (data event) "content" with
              | None => emit (Uncaught g) w
              | Some c =>
                  park g (set_buffer (buffer f +:+ to_string c) f) pc r w
              end
        end
      else w
  | _ => w
  end.

Definition signal_of (s : nat) (w : World) : Signal :=
  default fresh_signal (signals w !! s).

(** [cancelToken.addEventListener("abort", () => postToIde("abort",
    undefined, messageId))] *)
Definition add_abort_listener (s : nat) (id : string) (w : World) : World :=
  let sg := signal_of s w in
  set_signals
    (<[s := {| aborted := aborted sg; on_abort := on_abort sg ++ [id] |}]>
       (signals w)) w.

(** [await new Promise((resolve) => setTimeout(resolve, 50))] *)
Definition sleep (g : nat) (f : Frame) (r : nat) (w : World) : World :=
  setTimeout (ResolveSleep g) 50 (park g f AtSleep r w).

(** [return returnVal]: the oldest request gets the value, the generator
    is closed. *)
Definition finish (g : nat) (f : Frame) (w : World) : World :=
  emit (Return g (returnVal f)) (park g f Completed 0 w).

(** Lines 137-143, with [r] requests waiting. *)
Definition after_loop (g : nat) (f : Frame) (r : nat) (w : World) : World :=
  if (index f <? String.length (buffer f))%nat then
    let chunk := slice (buffer f) (index f) in
    let f1 := set_index (String.length (buffer f)) f in
    let w1 := emit (Yield g chunk) w in
    if (r <=? 1)%nat then park g f1 AtFinalYield 0 w1
    else finish g f1 w1
  else finish g f w.

(** One evaluation of the loop from its test (lines 128-134), with [r]
    requests waiting. *)
Definition loop (g : nat) (f : Frame) (r : nat) (w : World) : World :=
  if done f then after_loop g f r w
  else if (index f <? String.length (buffer f))%nat then
    let chunk := slice (buffer f) (index f) in
    let f1 := set_index (String.length (buffer f)) f in
    let w1 := emit (Yield g chunk) w in
    if (r <=? 1)%nat then park g f1 AtLoopYield 0 w1
    else sleep g f1 (r - 1) w1
  else sleep g f r w.

(** Lines 102-126, run by the first [next()]. *)
Definition start (g : nat) (messageType : string) (data : Value)
    (cancelToken : option nat) (w : World) : World :=
  let '(id, w1) := uuidv4 w in
  let w2 := postToIde messageType data (Some id) 0 w1 in
  let f := {| f_messageId := id; buffer := ""; index := 0;
              done := false; returnVal := VUndefined |} in
  let w3 := addEventListener (StreamHandler g) w2 in
  let w4 := match cancelToken with
            | Some s => add_abort_listener s id w3
            | None => w3
            end in
  loop g f 1 w4.

(** Calling the async generator function only creates the generator
    object; no line of the body runs before the first [next()]. *)
Definition ideStreamRequest (messageType : string) (data : Value)
    (cancelToken : option nat) (w : World) : nat * World :=
  let g := next_ref w in
  (g, set_generators (<[g := Unstarted messageType data cancelToken]>
                        (generators w))
        (set_next_ref (S g) w)).

(** [gen.next()] *)
Definition next (g : nat) (w : World) : World :=
  match generators w !! g with
  | Some (Unstarted messageType data cancelToken) =>
      start g messageType data cancelToken w
  | Some (Started f AtLoopYield r) => sleep g f (S r) w
  | Some (Started f AtSleep r) => park g f AtSleep (S r) w
  | Some (Started f AtFinalYield r) => finish g f w
  | Some (Started f Completed r) => w
  | None => w
  end.

(** The 50 ms sleep of [g] elapses. *)
Definition wake (g : nat) (w : World) : World :=
  match generators w !! g with
  | Some (Started f AtSleep r) => loop g f r w
  | _ => w
  end.

(** ** The event loop *)

Definition run_callback (cb : Callback) (w : World) : World :=
  match cb with
  | RetryPost messageType data messageId attempt =>
      postToIde messageType data messageId attempt w
  | ResolveSleep g => wake g w
  end.

(** The [i]-th pending timer fires.  Timers may fire in any order here:
    every order that the delays allow is one of them. *)
Definition fire (i : nat) (w : World) : World :=
  match timers w !! i with
  | Some cb => run_callback cb (set_timers (delete i (timers w)) w)
  | None => w
  end.

Definition handle (l : Listener) (event : Message) (w : World) : World :=
  match l with
  | UnaryHandler id p => unary_handler id p event w
  | StreamHandler g => stream_handler g event w
  end.

(** A "message" event reaches the window: the listeners registered when
    the dispatch starts run in order, skipping those removed meanwhile. *)
Definition deliver (event : Message) (w : World) : World :=
  foldl (λ w l, if decide (l ∈ listeners w) then handle l event w else w)
        w (listeners w).

(** The signal [s] fires; an [AbortSignal] fires once. *)
Definition abort (s : nat) (w : World) : World :=
  let sg := signal_of s w in
  if aborted sg then w
  else
    foldl (λ w id, postToIde "abort" VUndefined (Some id) 0 w)
          (set_signals
             (<[s := {| aborted := true; on_abort := on_abort sg |}]>
                (signals w)) w)
          (on_abort sg).

(** What can happen to the page between two runs of its code. *)
Inductive Action :=
| Deliver (event : Message)     (* the host posts an envelope *)
| Next (g : nat)                (* the consumer pulls from generator g *)
| Fire (i : nat)                (* a pending timer elapses *)
| Abort (s : nat)               (* an abort signal fires *)
| SetEnv (e : Env).             (* the host environment changes *)

Definition step (w : World) (a : Action) : World :=
  match a with
  | Deliver event => deliver event w
  | Next g => next g w
  | Fire i => fire i w
  | Abort s => abort s w
  | SetEnv e => set_env e w
  end.

Definition play (acts : list Action) (w : World) : World :=
  foldl step w acts.

Fixpoint sleep_timer (g : nat) (ts : list Callback) : option nat :=
  match ts with
  | [] => None
  | ResolveSleep g' :: rest =>
      if decide (g' = g) then Some 0%nat else S <$> sleep_timer g rest
  | RetryPost _ _ _ _ :: rest => S <$> sleep_timer g rest
  end.

(** A consumer that drains [g]: it lets the sleep elapse when the
    generator sleeps and calls [next()] otherwise. *)
Definition pull (g : nat) (w : World) : Action :=
  match generators w !! g with
  | Some (Started _ AtSleep _) =>
      match sleep_timer g (timers w) with
      | Some i => Fire i
      | None => Next g
      end
  | _ => Next g
  end.

Fixpoint drain (n : nat) (g : nat) (w : World) : World :=
  match n with
  | O => w
  | S n' => drain n' g (step w (pull g w))
  end.

(** ** Observations on a trace *)

Definition yields (g : nat) (t : list Effect) : list string :=
  flat_map (λ e, match e with
                 | Yield g' c => if decide (g' = g) then [c] else []
                 | _ => []
                 end) t.

Definition returns (g : nat) (t : list Effect) : list Value :=
  flat_map (λ e, match e with
                 | Return g' v => if decide (g' = g) then [v] else []
                 | _ => []
                 end) t.

Definition resolutions (p : nat) (t : list Effect) : list Value :=
  flat_map (λ e, match e with
                 | Resolve p' v => if decide (p' = p) then [v] else []
                 | _ => []
                 end) t.

(** Envelopes handed to a send primitive, as the host receives them. *)
Definition sent (t : list Effect) : list Message :=
  flat_map (λ e, match e with
                 | PostMessage m => [m]
                 | PostIntellij k d id =>
                     [{| messageId := id; messageType := k; data := d |}]
                 | _ => []
                 end) t.

Definition delays (t : list Effect) : list Z :=
  flat_map (λ e, match e with
                 | SetTimeout (RetryPost _ _ _ _) ms => [ms]
                 | _ => []
                 end) t.

Definition join (l : list string) : string := foldr String.append "" l.

(** Failed attempts of the transport selector, one console line each. *)
Definition failures (t : list Effect) : nat :=
  length (flat_map (λ e, match e with
                         | Console (UnableIntellij _ _) => [()]
                         | _ => []
                         end) t).

(** ** The transport conditions, in the words of the specification *)

(** The alternate-host condition: the environment marker names the
    alternate host and the host has installed its bridge function. *)
Definition alternate_host_ready (e : Env) : bool :=
  jetbrains e && match postIntellijMessage e with
                 | BFunction => true
                 | _ => false
                 end.

(** Some send primitive is reachable. *)
Definition transport_available (e : Env) : bool :=
  vscode e || alternate_host_ready e.

(** The one case in which [_postToIde] throws. *)
Definition transport_fails (e : Env) : bool :=
  negb (vscode e) && jetbrains e &&
  match postIntellijMessage e with
  | BUndefined => true
  | _ => false
  end.

(** * The chat stream *)

(** The results a generator has handed to its callers, in order: the
    chunks yielded ([inl]) and the value returned ([inr]).  Each one
    settles the promise of the oldest unanswered [next()]. *)
Definition results (g : nat) (t : list Effect) : list (string + Value) :=
  flat_map (λ e, match e with
                 | Yield g' c => if decide (g' = g) then [inl c] else []
                 | Return g' v => if decide (g' = g) then [inr v] else []
                 | _ => []
                 end) t.

(** Where an [llmStreamChat] generator is parked. *)
Inductive ChatPC :=
| ChatUnstarted (modelTitle : string) (cancelToken : option nat)
                (messages options : Value)
| ChatAwaiting (gen : nat)      (* at an [await gen.next()], lines 162, 165 *)
| ChatAtYield (gen : nat)       (* line 164 *)
| ChatCompleted.

(** What the consumer of [llmStreamChat] is handed. *)
Inductive ChatEffect :=
| ChatYield (message : Value)
| ChatReturn (v : Value).

(** A page with one [llmStreamChat] generator on it: the generator's
    position, the [next()] calls of its consumer that it has not
    answered, how many results of [gen] it has taken in, and what it has
    handed over. *)
Record Chat := {
  page : World;
  chat_pc : ChatPC;
  chat_requests : nat;
  chat_seen : nat;
  chat_trace : list ChatEffect }.

Definition set_page (w : World) (c : Chat) : Chat :=
  {| page := w; chat_pc := chat_pc c; chat_requests := chat_requests c;
     chat_seen := chat_seen c; chat_trace := chat_trace c |}.

(** [{ messages, title: modelTitle, completionOptions: options }], with
    the default [{}] of the parameter [options]. *)
Definition chat_data (modelTitle : string) (messages options : Value)
    : Value :=
  VObj [("messages", messages); ("title", VStr modelTitle);
        ("completionOptions",
         match options with VUndefined => VObj [] | _ => options end)].

(** [{ role: "user", content: next.value }] *)
Definition chat_message (chunk : string) : Value :=
  VObj [("role", VStr "user"); ("content", VStr chunk)].

(** [v?.k] *)
Definition optional (v : Value) (k : string) : Value :=
  match get v k with
  | Some x => x
  | None => VUndefined
  end.

(** [{ prompt: next.value?.prompt, completion: next.value?.completion }] *)
Definition llm_return (v : Value) : Value :=
  VObj [("prompt", optional v "prompt");
        ("completion", optional v "completion")].

(** Calling the function creates the generator object and runs nothing. *)
Definition llmStreamChat (modelTitle : string) (cancelToken : option nat)
    (messages options : Value) (w : World) : Chat :=
  {| page := w;
     chat_pc := ChatUnstarted modelTitle cancelToken messages options;
     chat_requests := 0; chat_seen := 0; chat_trace := [] |}.

(** The body from an [await gen.next()] on, with [r] calls of the
    consumer waiting.  While the promise is unsettled the generator stays
    where it is.  A chunk is wrapped and yielded to the oldest caller; if
    another caller waits, the body goes round the loop, calling
    [gen.next()] again.  The value returned ends the loop. *)
Fixpoint chat_resume (r : nat) (gen : nat) (c : Chat) : Chat :=
  match r with
  | O => c
  | S r' =>
      match results gen (trace (page c)) !! chat_seen c with
      | None => c
      | Some (inr v) =>
          {| page := page c; chat_pc := ChatCompleted; chat_requests := 0;
             chat_seen := S (chat_seen c);
             chat_trace := chat_trace c ++ [ChatReturn (llm_return v)] |}
      | Some (inl chunk) =>
          let out := chat_trace c ++ [ChatYield (chat_message chunk)] in
          match r' with
          | O =>
              {| page := page c; chat_pc := ChatAtYield gen;
                 chat_requests := 0; chat_seen := S (chat_seen c);
                 chat_trace := out |}
          | S _ =>
              chat_resume r' gen
                {| page := next gen (page c); chat_pc := ChatAwaiting gen;
                   chat_requests := r'; chat_seen := S (chat_seen c);
                   chat_trace := out |}
          end
      end
  end.

(** The microtasks that follow a turn of the event loop. *)
Definition chat_settle (c : Chat) : Chat :=
  match chat_pc c with
  | ChatAwaiting gen => chat_resume (chat_requests c) gen c
  | _ => c
  end.

(** [next()] on the [llmStreamChat] generator. *)
Definition chat_next (c : Chat) : Chat :=
  match chat_pc c with
  | ChatUnstarted modelTitle cancelToken messages options =>
      let '(gen, w1) :=
        ideStreamRequest "llmStreamChat"
          (chat_data modelTitle messages options) cancelToken (page c) in
      chat_settle
        {| page := next gen w1; chat_pc := ChatAwaiting gen;
           chat_requests := 1; chat_seen := 0;
           chat_trace := chat_trace c |}
  | ChatAwaiting gen =>
      {| page := page c; chat_pc := ChatAwaiting gen;
         chat_requests := S (chat_requests c); chat_seen := chat_seen c;
         chat_trace := chat_trace c |}
  | ChatAtYield gen =>
      chat_settle
        {| page := next gen (page c); chat_pc := ChatAwaiting gen;
           chat_requests := 1; chat_seen := chat_seen c;
           chat_trace := chat_trace c |}
  | ChatCompleted => c
  end.

(** What can happen to the page and its chat stream: the consumer pulls,
    or the page takes a turn of its own. *)
Inductive ChatAction :=
| Pull
| Host (a : Action).

Definition chat_step (c : Chat) (a : ChatAction) : Chat :=
  match a with
  | Pull => chat_next c
  | Host a => chat_settle (set_page (step (page c) a) c)
  end.

Definition chat_play (acts : list ChatAction) (c : Chat) : Chat :=
  foldl chat_step c acts.

(** A consumer that drains the chat stream: it lets the sleep of [gen]
    elapse while the stream waits for it, and calls [next()] otherwise. *)
Definition chat_pull (c : Chat) : ChatAction :=
  match chat_pc c with
  | ChatAwaiting gen =>
      match sleep_timer gen (timers (page c)) with
      | Some i => Host (Fire i)
      | None => Pull
      end
  | _ => Pull
  end.

Fixpoint chat_drain (n : nat) (c : Chat) : Chat :=
  match n with
  | O => c
  | S n' => chat_drain n' (chat_step c (chat_pull c))
  end.

Definition chat_yields (t : list ChatEffect) : list Value :=
  flat_map (λ e, match e with ChatYield m => [m] | _ => [] end) t.

Definition chat_returns (t : list ChatEffect) : list Value :=
  flat_map (λ e, match e with ChatReturn v => [v] | _ => [] end) t.

(** * Notifications *)

(** Lines 170-184: four sends that carry no identifier and whose outcome
    the caller does not see. *)
Definition errorPopup (message : string) (w : World) : World :=
  postToIde "errorPopup" (VObj [("message", VStr message)]) None 0 w.

Definition logDevData (tableName : string) (data : Value) (w : World)
    : World :=
  postToIde "logDevData"
    (VObj [("tableName", VStr tableName); ("data", data)]) None 0 w.

Definition deleteModel (title : Value) (w : World) : World :=
  postToIde "deleteModel" (VObj [("title", title)]) None 0 w.

Definition addOpenAIKey (key : string) (w : World) : World :=
  postToIde "addOpenAIKey" (VObj [("key", VStr key)]) None 0 w.

(** * Vocabulary of the properties *)

(** ** Environments and payloads used in examples *)

(** The alternate host before it has installed its bridge. *)
Definition failing_env : Env :=
  {| vscode := false; ide := Some "jetbrains";
     postIntellijMessage := BUndefined |}.

(** The alternate host with its bridge installed. *)
Definition bridged_env : Env :=
  {| vscode := false; ide := Some "jetbrains";
     postIntellijMessage := BFunction |}.

(** A webview with the structured channel. *)
Definition plain_env : Env :=
  {| vscode := true; ide := None; postIntellijMessage := BUndefined |}.

(** A fragment payload with the given text, and the completion payload
    [{done: true, value: "done"}]. *)
Definition fragment (s : string) : Value := VObj [("content", VStr s)].

Definition done_payload : Value :=
  VObj [("done", VBool true); ("value", VStr "done")].

(** ** Retries *)

(** The effects of one failed attempt numbered [n < 5]. *)
Definition failed_attempt (k : string) (d : Value) (id : option string)
    (n : nat) : list Effect :=
  [Console (UnableIntellij k d); Console (AttemptFailed n);
   SetTimeout (RetryPost k d id (n + 1)) (2 ^ Z.of_nat n * 1000)].

(** ** Registries *)

(** [same_registry w w']: the listeners and heaps of [w'] are those of
    [w], and [w'] shows no new resolution, yield or return. *)
Record same_registry (w w' : World) : Prop := {
  sr_listeners : listeners w' = listeners w;
  sr_promises : promises w' = promises w;
  sr_generators : generators w' = generators w;
  sr_next_ref : next_ref w' = next_ref w;
  sr_resolutions : ∀ p, resolutions p (trace w') = resolutions p (trace w);
  sr_yields : ∀ g, yields g (trace w') = yields g (trace w);
  sr_returns : ∀ g, returns g (trace w') = returns g (trace w) }.

(** The action is not the arrival of an envelope bearing [id]. *)
Definition not_reply (id : string) (a : Action) : Prop :=
  match a with
  | Deliver event => messageId event ≠ id
  | _ => True
  end.

(** No "abort" listener is registered on any signal. *)
Definition no_abort_listeners (w : World) : Prop :=
  ∀ s sg, signals w !! s = Some sg → on_abort sg = [].

(** The call with identifier [id] and promise [p] is the only thing
    waiting for an envelope, and it has not been resolved. *)
Record pending (id : string) (p : nat) (w : World) : Prop := {
  pd_listeners : listeners w = [UnaryHandler id p];
  pd_generators : generators w = ∅;
  pd_signals : no_abort_listeners w;
  pd_promise : promises w !! p = None;
  pd_resolutions : resolutions p (trace w) = [] }.

(** The call has been resolved with [v], once, and nothing listens. *)
Record settled (p : nat) (v : Value) (w : World) : Prop := {
  st_listeners : listeners w = [];
  st_generators : generators w = ∅;
  st_signals : no_abort_listeners w;
  st_promise : promises w !! p = Some v;
  st_resolutions : resolutions p (trace w) = [v] }.

(** ** Streams *)

(** The payloads of the envelopes bearing [id] that a schedule delivers,
    in arrival order. *)
Definition replies (id : string) (acts : list Action) : list Value :=
  flat_map (λ a, match a with
                 | Deliver event =>
                     if String.eqb (messageId event) id then [data event]
                     else []
                 | _ => []
                 end) acts.

(** The handler's test: a fragment payload has a falsy [done], a
    completion payload a truthy one.  A payload without properties
    (undefined, null) is neither. *)
Definition is_fragment (payload : Value) : bool :=
  match get payload "done" with
  | Some dn => negb (truthy dn)
  | None => false
  end.

Definition is_completion (payload : Value) : bool :=
  match get payload "done" with
  | Some dn => truthy dn
  | None => false
  end.

(** The [content] field of a fragment payload, as [buffer += content]
    appends it. *)
Definition fragment_content (payload : Value) : string :=
  match get payload "content" with
  | Some c => to_string c
  | None => ""
  end.

(** What the stream has taken in: the texts of the fragments received, in
    arrival order, and, once the completion envelope has come, its
    payload. *)
Definition received : Type := list string * option Value.

Definition absorb (st : received) (payload : Value) : received :=
  match st.2 with
  | Some _ => st
  | None =>
      if is_completion payload then (st.1, Some payload)
      else if is_fragment payload
           then (st.1 ++ [fragment_content payload], None)
           else st
  end.

(** [chunks] regroups the first [k] of [texts] in order: each chunk is
    the concatenation of a run of consecutive texts. *)
Definition regroups (chunks texts : list string) (k : nat) : Prop :=
  (k ≤ length texts)%nat ∧
  ∃ groups : list (list string),
    chunks = map join groups ∧ concat groups = take k texts.

Section StreamVocabulary.

Variables (g : nat) (id : string).

(** The locals [f] of the activation agree with what was taken in, the
    listener is registered until completion, and what was yielded so far
    is the buffer up to [index]. *)
Record core (st : received) (w : World) (f : Frame) : Prop := {
  co_id : f_messageId f = id;
  co_buffer : buffer f = join st.1;
  co_done : done f = match st.2 with Some _ => true | None => false end;
  co_return : ∀ v, st.2 = Some v → returnVal f = v;
  co_listeners :
    listeners w = if done f then [] else [StreamHandler g];
  co_index : (index f ≤ String.length (buffer f))%nat;
  co_yields :
    join (yields g (trace w)) +:+ slice (buffer f) (index f) = buffer f;
  co_nonempty : Forall (λ c, c ≠ "") (yields g (trace w));
  co_groups :
    ∃ k, regroups (yields g (trace w)) st.1 k ∧
         index f = String.length (join (take k st.1)) }.

(** The invariant of a started stream [g] with identifier [id], alone on
    its page. *)
Definition stream_inv (st : received) (w : World) : Prop :=
  ∃ f pc r,
    generators w = {[g := Started f pc r]} ∧
    core st w f ∧
    returns g (trace w)
      = match pc with Completed => [returnVal f] | _ => [] end ∧
    (pc = Completed ∨ pc = AtFinalYield →
     done f = true ∧ index f = String.length (buffer f)) ∧
    (pc = AtSleep → ResolveSleep g ∈ timers w).

(** What an action adds to what the stream has taken in. *)
Definition feed (st : received) (a : Action) : received :=
  match a with
  | Deliver event =>
      if String.eqb (messageId event) id then absorb st (data event) else st
  | _ => st
  end.

(** Where the generator is parked. *)
Definition pc_of (w : World) : option PC :=
  match generators w !! g with
  | Some (Started _ pc _) => Some pc
  | _ => None
  end.

(** How many resumptions a completed stream still needs. *)
Definition rank (pc : PC) : nat :=
  match pc with
  | AtLoopYield => 3
  | AtSleep => 2
  | AtFinalYield => 1
  | Completed => 0
  end.

End StreamVocabulary.

(** The stream once the consumer's first [next()] has run the body up
    to its first sleep, on a page that has just loaded. *)
Definition started (e : Env) (ids : nat → string) (k : string) (d : Value)
    (tok : option nat) : World :=
  let r := ideStreamRequest k d tok (initial_world e ids) in
  next (fst r) (snd r).

(** The action does not deliver a completion envelope for [id]. *)
Definition no_completion (id : string) (a : Action) : Prop :=
  match a with
  | Deliver event =>
      messageId event = id → is_completion (data event) = false
  | _ => True
  end.

(** The action neither delivers a completion envelope for [id] nor fires
    the signal [s]. *)
Definition before_abort (id : string) (s : nat) (a : Action) : Prop :=
  no_completion id a ∧ a ≠ Abort s.

(** The signal [s] has not fired and carries the one listener of the
    stream with identifier [id]. *)
Definition armed (s : nat) (id : string) (w : World) : Prop :=
  signals w !! s = Some {| aborted := false; on_abort := [id] |}.

(** Split a [stream_inv] goal into its five parts. *)
Ltac inv_split := split; [|split; [|split; [|split]]].

(** ** Further vocabulary: sends *)

(** The delays of the dispatcher, in ms, in the order they can occur. *)
Definition backoff : list Z := [1000; 2000; 4000; 8000; 16000]%Z.

(** Only timers and the host environment move. *)
Definition transport_event (a : Action) : Prop :=
  match a with
  | Fire _ | SetEnv _ => True
  | _ => False
  end.

(** [m] is an envelope that a send of [k], [d], [id] hands over. *)
Definition envelope_of (k : string) (d : Value) (id : option string)
    (m : Message) : Prop :=
  messageType m = k ∧ data m = d ∧ ∀ i, id = Some i → messageId m = i.

(** Where the send of [k], [d], [id] started in [w] stands in [w']: either
    retry [n] is pending and nothing was sent, or the send is over. *)
Definition sending (k : string) (d : Value) (id : option string)
    (w w' : World) : Prop :=
  (∃ n, (1 ≤ n ≤ 5)%nat ∧
        timers w' = [RetryPost k d id n] ∧
        sent (trace w') = sent (trace w) ∧
        delays (trace w') = delays (trace w) ++ take n backoff ∧
        failures (trace w') = (failures (trace w) + n)%nat) ∨
  (timers w' = [] ∧
   (∃ l, sent (trace w') = sent (trace w) ++ l ∧ (length l ≤ 1)%nat ∧
         Forall (envelope_of k d id) l) ∧
   (∃ n, (n ≤ 5)%nat ∧
         delays (trace w') = delays (trace w) ++ take n backoff) ∧
   (failures (trace w') ≤ failures (trace w) + 6)%nat).

(** Nothing is waiting to be sent, and nothing has been. *)
Definition idle (w : World) : Prop := timers w = [] ∧ sent (trace w) = [].

(** ** Further vocabulary: streams *)

(** The generator [g] has handed over all of its buffer. *)
Definition caught_up (g : nat) (w : World) : Prop :=
  ∃ f pc r, generators w = {[g := Started f pc r]} ∧
            index f = String.length (buffer f).

(** A payload on which the handler's test [event.data.data.done] can be
    evaluated: anything but undefined and null. *)
Definition well_formed (payload : Value) : bool :=
  match get payload "done" with
  | Some _ => true
  | None => false
  end.

(** What follows the fragments of a stream: nothing yet, or a completion
    envelope and whatever comes after it. *)
Definition closing (tail : list Value) : Prop :=
  match tail with
  | [] => True
  | completion :: _ => is_completion completion = true
  end.

(** ** Further vocabulary: cancellation before the start *)

(** The action is not a resumption of a generator. *)
Definition not_next (a : Action) : Prop :=
  match a with
  | Next _ => False
  | _ => True
  end.

(** Every signal that can still fire has no listener. *)
Definition dead_signals (w : World) : Prop :=
  ∀ s sg, signals w !! s = Some sg → aborted sg = false → on_abort sg = [].

(** The timers of a page whose only activity is the stream [g] and the
    send of its request. *)
Definition request_timer (k : string) (d : Value) (id : string) (g : nat)
    (cb : Callback) : Prop :=
  cb = ResolveSleep g ∨ ∃ n, cb = RetryPost k d (Some id) n.

(** [w'] has sent what [w] had, carries the same signals, and has at
    most gained sleeps of [g]. *)
Record quiet (g : nat) (w w' : World) : Prop := {
  q_sent : sent (trace w') = sent (trace w);
  q_signals : signals w' = signals w;
  q_timers : ∃ ts, timers w' = timers w ++ ts ∧
                   Forall (λ cb, cb = ResolveSleep g) ts }.

(** The generator object exists and no line of its body has run. *)
Record created (k : string) (d : Value) (tok : option nat) (g : nat)
    (id : string) (w : World) : Prop := {
  cr_generators : generators w = {[g := Unstarted k d tok]};
  cr_listeners : listeners w = [];
  cr_timers : timers w = [];
  cr_trace : trace w = [];
  cr_signals : no_abort_listeners w;
  cr_uuid : uuids w (uuid_next w) = id }.

(** The signal [s] fired before the stream could hear it: it has fired,
    no signal that can still fire has a listener, and the page sends the
    request of the stream and nothing else. *)
Record unheard (k : string) (d : Value) (id : string) (g s : nat)
    (w : World) : Prop := {
  uh_aborted : aborted (signal_of s w) = true;
  uh_signals : dead_signals w;
  uh_sent : Forall (envelope_of k d (Some id)) (sent (trace w));
  uh_timers : Forall (request_timer k d id g) (timers w) }.

(** ** Further vocabulary: requests and results *)

(** How often the schedule calls [next()] on [g]. *)
Definition pulls (g : nat) (acts : list Action) : nat :=
  length (flat_map (λ a, match a with
                         | Next g' => if decide (g' = g) then [()] else []
                         | _ => []
                         end) acts).

(** How many [next()] calls of [g] have been answered with a chunk or
    with the value returned. *)
Definition answered (g : nat) (w : World) : nat :=
  (length (yields g (trace w)) + length (returns g (trace w)))%nat.

(** The generator [g] has answered no more than [n] calls, counting the
    [r] it still owes, and it only sleeps on behalf of a caller. *)
Definition on_demand (g : nat) (n : nat) (w : World) : Prop :=
  ∃ f pc r, generators w = {[g := Started f pc r]} ∧
            (answered g w + r ≤ n)%nat ∧
            (pc = AtSleep → (1 ≤ r)%nat).

(** ** Further vocabulary: the chat stream *)

(** What [llmStreamChat] makes of a result of [gen]. *)
Definition relay (x : string + Value) : ChatEffect :=
  match x with
  | inl chunk => ChatYield (chat_message chunk)
  | inr v => ChatReturn (llm_return v)
  end.

(** [gen] is private to the chat stream: the page does not call its
    [next()]. *)
Definition hosted (a : ChatAction) : Prop :=
  match a with
  | Host (Next _) => False
  | _ => True
  end.

(** The turns the page takes on its own. *)
Definition host_actions (acts : list ChatAction) : list Action :=
  flat_map (λ a, match a with Host a => [a] | Pull => [] end) acts.

(** [w'] has the generator [g] where [w] had it, with the same calls
    unanswered and the same results handed over. *)
Definition still (g : nat) (w w' : World) : Prop :=
  (∀ f pc r, generators w = {[g := Started f pc r]} →
             ∃ f', generators w' = {[g := Started f' pc r]}) ∧
  results g (trace w') = results g (trace w).

(** The chat stream and its [gen] move in step: the chat stream waits
    exactly when [gen] sleeps on its one call, it is parked at its yield
    exactly when [gen] is parked at one of its own, and it has relayed
    every result of [gen]. *)
Definition lockstep (g : nat) (c : Chat) : Prop :=
  ∃ f pc r,
    generators (page c) = {[g := Started f pc r]} ∧
    match chat_pc c with
    | ChatUnstarted _ _ _ _ => False
    | ChatAwaiting gen =>
        gen = g ∧ pc = AtSleep ∧ r = 1%nat ∧ (1 ≤ chat_requests c)%nat
    | ChatAtYield gen =>
        gen = g ∧ (pc = AtLoopYield ∨ pc = AtFinalYield) ∧ r = 0%nat
    | ChatCompleted => pc = Completed
    end ∧
    chat_seen c = length (results g (trace (page c))) ∧
    chat_trace c = map relay (results g (trace (page c))).

(** ** Further vocabulary: notifications *)

(** Where a send of [k], [d] without identifier, started in [w], stands
    in [w']: a retry is pending and nothing has happened, or the send is
    over, having either sent nothing or sent the one envelope that bears
    the identifier that was next in line when the send started. *)
Definition notifying (k : string) (d : Value) (w w' : World) : Prop :=
  uuids w' = uuids w ∧
  ((∃ n, timers w' = [RetryPost k d None n] ∧
         sent (trace w') = sent (trace w) ∧ uuid_next w' = uuid_next w) ∨
   (timers w' = [] ∧
    (sent (trace w') = sent (trace w) ∧ uuid_next w' = uuid_next w ∨
     sent (trace w')
       = sent (trace w) ++ [{| messageId := uuids w (uuid_next w);
                               messageType := k; data := d |}] ∧
     uuid_next w' = S (uuid_next w)))).

(** [send] notifies the host of [k], [d]: started on a page with no
    timer pending, and while only timers and the environment move, it
    stands as [notifying] says. *)
Definition notifies (k : string) (d : Value) (send : World → World)
    : Prop :=
  ∀ w acts, timers w = [] → Forall transport_event acts →
            notifying k d w (play acts (send w)).

(** ** Further vocabulary: polling *)

(** How many sleeps of [g] are pending. *)
Definition sleeps (g : nat) (ts : list Callback) : nat :=
  length (flat_map (λ cb, match cb with
                          | ResolveSleep g' =>
                              if decide (g' = g) then [()] else []
                          | _ => []
                          end) ts).

(** One sleep is pending while [g] sleeps, and none otherwise. *)
Definition polling (g : nat) (w : World) : Prop :=
  ∃ f pc r, generators w = {[g := Started f pc r]} ∧
            sleeps g (timers w) = match pc with AtSleep => 1 | _ => 0 end.

(** ** Further vocabulary: the "abort" envelopes of a page *)

(** The "abort" envelope of the stream with identifier [id]. *)
Definition abort_envelope (id : string) : Message :=
  {| messageId := id; messageType := "abort"; data := VUndefined |}.

(** The envelopes of type "abort" handed to a send primitive. *)
Definition aborts (t : list Effect) : list Message :=
  flat_map (λ m, if String.eqb (messageType m) "abort" then [m] else [])
           (sent t).

(** How many retries of an "abort" send are pending. *)
Definition abort_timers (ts : list Callback) : nat :=
  length (flat_map (λ cb, match cb with
                          | RetryPost k _ _ _ =>
                              if String.eqb k "abort" then [()] else []
                          | ResolveSleep _ => []
                          end) ts).

(** A page whose only activity is the stream [g] with identifier [id],
    request [k], [d] and signal [s].  Only [s] has a listener, the
    stream's; the timers are the stream's sleeps and the retries of its
    request and of its "abort"; before [s] fires no "abort" envelope has
    been sent and none is pending; afterwards either the one envelope has
    been sent and nothing is pending, or none has been sent and at most
    one retry is pending. *)
Record cancellable (k : string) (d : Value) (id : string) (g s : nat)
    (w : World) : Prop := {
  cn_others :
    ∀ s' sg, signals w !! s' = Some sg → s' ≠ s → on_abort sg = [];
  cn_listener : on_abort (signal_of s w) = [id];
  cn_timers :
    Forall (λ cb, request_timer k d id g cb ∨
                  ∃ n, cb = RetryPost "abort" VUndefined (Some id) n)
           (timers w);
  cn_count :
    if aborted (signal_of s w)
    then (aborts (trace w) = [abort_envelope id] ∧
          abort_timers (timers w) = 0%nat) ∨
         (aborts (trace w) = [] ∧ (abort_timers (timers w) ≤ 1)%nat)
    else aborts (trace w) = [] ∧ abort_timers (timers w) = 0%nat }.

(** * Properties *)

Section TraceFacts.

Lemma yields_app g t1 t2 : yields g (t1 ++ t2) = yields g t1 ++ yields g t2.
Proof. apply flat_map_app. Qed.

Lemma returns_app g t1 t2 : returns g (t1 ++ t2) = returns g t1 ++ returns g t2.
Proof. apply flat_map_app. Qed.

Lemma resolutions_app p t1 t2 :
  resolutions p (t1 ++ t2) = resolutions p t1 ++ resolutions p t2.
Proof. apply flat_map_app. Qed.

Lemma sent_app t1 t2 : sent (t1 ++ t2) = sent t1 ++ sent t2.
Proof. apply flat_map_app. Qed.

Lemma delays_app t1 t2 : delays (t1 ++ t2) = delays t1 ++ delays t2.
Proof. apply flat_map_app. Qed.

Lemma failures_app t1 t2 : failures (t1 ++ t2) = (failures t1 + failures t2)%nat.
Proof. unfold failures. by rewrite flat_map_app, length_app. Qed.

End TraceFacts.

(** ** Transport selector *)

Section Transport.

Implicit Types (w : World) (k : string) (d : Value) (id : option string).

Lemma transport_fails_inv e :
  transport_fails e = true →
  vscode e = false ∧ jetbrains e = true ∧ postIntellijMessage e = BUndefined.
Proof.
  unfold transport_fails. destruct (vscode e), (jetbrains e),
    (postIntellijMessage e); simpl; intros; done.
Qed.

(** [transport_fails] is exactly the condition under which the selector
    throws. *)
Lemma transport_fails_spec k d id w :
  transport_fails (env w) = true ↔
  ∃ err, fst (_postToIde k d id w) = Throw err.
Proof.
  unfold transport_fails, _postToIde.
  destruct (vscode (env w)), (jetbrains (env w)),
    (postIntellijMessage (env w)); simpl;
    repeat (destruct (or_uuidv4 _ _)); simpl;
    split; try done; try (intros [? ?]; done); eauto.
Qed.

Lemma _postToIde_fails k d id w :
  transport_fails (env w) = true →
  _postToIde k d id w =
    (Throw "postIntellijMessage is undefined",
     emit (Console (UnableIntellij k d)) w).
Proof.
  intros (Hv & Hj & Hb)%transport_fails_inv.
  unfold _postToIde. by rewrite Hv, Hj, Hb.
Qed.

Lemma postToIde_retry k d id n w :
  transport_fails (env w) = true → (n < 5)%nat →
  postToIde k d id n w =
    setTimeout (RetryPost k d id (n + 1)) (2 ^ Z.of_nat n * 1000)
      (emit (Console (AttemptFailed n))
         (emit (Console (UnableIntellij k d)) w)).
Proof.
  intros Hf Hn. unfold postToIde. rewrite _postToIde_fails by done.
  by apply Nat.ltb_lt in Hn as ->.
Qed.

Lemma postToIde_give_up k d id n w :
  transport_fails (env w) = true → (5 ≤ n)%nat →
  postToIde k d id n w =
    emit (Console (MaxAttempts "postIntellijMessage is undefined"))
      (emit (Console (UnableIntellij k d)) w).
Proof.
  intros Hf Hn. unfold postToIde. rewrite _postToIde_fails by done.
  by apply Nat.ltb_ge in Hn as ->.
Qed.

(** The timer appended last is the one at index [length ts]. *)
Lemma fire_last ts cb w :
  timers w = ts ++ [cb] →
  fire (length ts) w = run_callback cb (set_timers ts w).
Proof.
  intros Ht. unfold fire. rewrite Ht.
  rewrite lookup_app_r, Nat.sub_diag by lia. simpl.
  f_equal. f_equal.
  clear. induction ts as [|c ts IH]; simpl; [done | by rewrite IH].
Qed.

End Transport.

(** ** C5, C10: the selector without a reachable primitive, and replies *)

Section Selector.

Implicit Types (w : World) (k : string) (d : Value).

(** With no structured channel, the marker absent and no bridge, the
    selector logs and returns normally: nothing is thrown, and the
    dispatcher schedules no retry. *)
Lemma selector_returns_normally :
  let e := {| vscode := false; ide := None;
              postIntellijMessage := BUndefined |} in
  let w := initial_world e (λ _, "u") in
  transport_available e = false ∧
  _postToIde "ping" VNull None w
    = (Normal, emit (Console (UnableVscode "ping" VNull)) w) ∧
  timers (postToIde "ping" VNull None 0 w) = [].
Proof. done. Qed.

(** C5 (amended): when neither the structured channel nor the
    alternate-host condition holds, no envelope is sent.  The selector
    logs and throws synchronously, which makes the dispatcher schedule a
    retry, exactly when the marker names the alternate host and its
    bridge is undefined; when the marker does not name the alternate
    host it logs that vscode is undefined and returns normally, and the
    dispatcher schedules nothing. *)
Theorem selector_unavailable k d id w :
  transport_available (env w) = false →
  sent (trace (snd (_postToIde k d id w))) = sent (trace w) ∧
  (fst (_postToIde k d id w) = Throw "postIntellijMessage is undefined" ↔
   jetbrains (env w) = true ∧ postIntellijMessage (env w) = BUndefined) ∧
  (fst (_postToIde k d id w) ≠ Normal →
   trace (snd (_postToIde k d id w))
     = trace w ++ [Console (UnableIntellij k d)] ∧
   timers (postToIde k d id 0 w) = timers w ++ [RetryPost k d id 1]) ∧
  (jetbrains (env w) = false →
   _postToIde k d id w = (Normal, emit (Console (UnableVscode k d)) w) ∧
   postToIde k d id 0 w = emit (Console (UnableVscode k d)) w).
Proof.
  unfold transport_available, alternate_host_ready, postToIde, _postToIde.
  destruct (vscode (env w)), (jetbrains (env w)),
    (postIntellijMessage (env w)); simpl; try done; intros _;
    rewrite ?sent_app; simpl; rewrite ?app_nil_r;
    repeat split; try done; try (intros [? ?]; done).
Qed.

Lemma selector_unavailable_witness :
  let e := {| vscode := false; ide := Some "jetbrains";
              postIntellijMessage := BUndefined |} in
  let w := initial_world e (λ _, "u") in
  fst (_postToIde "ping" VNull None w)
    = Throw "postIntellijMessage is undefined" ∧
  sent (trace (snd (_postToIde "ping" VNull None w))) = [].
Proof.
  intros e w.
  destruct (selector_unavailable "ping" VNull None w eq_refl)
    as (Hs & Ht & _).
  split; [by apply Ht | exact Hs].
Defined.

(** C10: a reply goes through the selector once and never through the
    dispatcher.  No timer is set, so no retry can follow; with a
    reachable primitive exactly the one envelope with the host's
    identifier is handed over; and when the marker is set but the bridge
    is undefined the error comes back to the caller of [respondToIde],
    where [postToIde] in the same world would have caught it. *)
Theorem respondToIde_single_attempt k d (id : string) w :
  timers (snd (respondToIde k d id w)) = timers w ∧
  delays (trace (snd (respondToIde k d id w))) = delays (trace w) ∧
  sent (trace (snd (respondToIde k d id w)))
    = sent (trace w) ++
      (if transport_available (env w)
       then [{| messageId := id; messageType := k; data := d |}]
       else []) ∧
  (if transport_fails (env w)
   then respondToIde k d id w
          = (Throw "postIntellijMessage is undefined",
             emit (Console (UnableIntellij k d)) w) ∧
        timers (postToIde k d (Some id) 0 w)
          = timers w ++ [RetryPost k d (Some id) 1]
   else fst (respondToIde k d id w) = Normal).
Proof.
  unfold respondToIde, transport_available, alternate_host_ready,
    transport_fails, postToIde, _postToIde.
  destruct (vscode (env w)), (jetbrains (env w)),
    (postIntellijMessage (env w)); simpl;
    rewrite ?sent_app, ?delays_app; simpl; rewrite ?app_nil_r; done.
Qed.

End Selector.

(** ** C3, C4: the retry schedule of the dispatcher *)

Section Retry.

Implicit Types (w : World) (k : string) (d : Value) (id : option string).

Lemma retry_step k d id n w :
  transport_fails (env w) = true → (n < 5)%nat →
  let w' := postToIde k d id n w in
  trace w' = trace w ++ failed_attempt k d id n ∧
  timers w' = timers w ++ [RetryPost k d id (n + 1)] ∧
  env w' = env w.
Proof.
  intros Hf Hn. rewrite postToIde_retry by done. simpl.
  by rewrite <- !app_assoc.
Qed.

End Retry.

Section RetrySchedule.

Implicit Types (w : World) (k : string) (d : Value) (id : option string).

(** A pending retry numbered [n < 5] fires in a failing environment. *)
Lemma retry_round k d id n ts e w :
  timers w = ts ++ [RetryPost k d id n] →
  transport_fails e = true → (n < 5)%nat →
  let w' := fire (length ts) (set_env e w) in
  trace w' = trace w ++ failed_attempt k d id n ∧
  timers w' = ts ++ [RetryPost k d id (n + 1)].
Proof.
  intros Ht Hf Hn w'. subst w'.
  rewrite (fire_last ts (RetryPost k d id n)) by done. simpl.
  rewrite postToIde_retry by done. simpl.
  by rewrite <- !app_assoc.
Qed.

Lemma delays_failed_attempt k d id n :
  delays (failed_attempt k d id n) = [2 ^ Z.of_nat n * 1000]%Z.
Proof. done. Qed.

Lemma failures_failed_attempt k d id n :
  failures (failed_attempt k d id n) = 1%nat.
Proof. done. Qed.

(** C3: a send that fails on attempts 0 to 3 and succeeds on attempt 4
    sets exactly four retry timers, of 1000, 2000, 4000 and 8000 ms in
    that order, all before the fifth attempt runs; that attempt does not
    throw and leaves no timer behind.  [e0] to [e4] are the environments
    in force at the five attempts. *)
Theorem postToIde_backoff k d id w (e0 e1 e2 e3 e4 : Env) :
  transport_fails e0 = true → transport_fails e1 = true →
  transport_fails e2 = true → transport_fails e3 = true →
  transport_fails e4 = false →
  let n := length (timers w) in
  let w4 := play [SetEnv e1; Fire n; SetEnv e2; Fire n; SetEnv e3; Fire n]
                 (postToIde k d id 0 (set_env e0 w)) in
  let fifth := _postToIde k d id (set_timers (timers w) (set_env e4 w4)) in
  trace w4 = trace w ++ failed_attempt k d id 0 ++ failed_attempt k d id 1
               ++ failed_attempt k d id 2 ++ failed_attempt k d id 3 ∧
  delays (trace w4) = delays (trace w) ++ [1000; 2000; 4000; 8000]%Z ∧
  timers w4 = timers w ++ [RetryPost k d id 4] ∧
  play [SetEnv e4; Fire n] w4 = snd fifth ∧
  fst fifth = Normal ∧
  delays (trace (snd fifth)) = delays (trace w) ++ [1000; 2000; 4000; 8000]%Z ∧
  timers (snd fifth) = timers w.
Proof.
  intros H0 H1 H2 H3 H4 n w4 fifth.
  destruct (retry_step k d id 0 (set_env e0 w) H0 ltac:(lia)) as (T0 & M0 & _).
  simpl in T0, M0.
  set (w1 := postToIde k d id 0 (set_env e0 w)) in *.
  destruct (retry_round k d id 1 (timers w) e1 w1 M0 H1 ltac:(lia)) as (T1 & M1).
  set (w2 := fire _ (set_env e1 w1)) in *.
  destruct (retry_round k d id 2 (timers w) e2 w2 M1 H2 ltac:(lia)) as (T2 & M2).
  set (w3 := fire _ (set_env e2 w2)) in *.
  destruct (retry_round k d id 3 (timers w) e3 w3 M2 H3 ltac:(lia)) as (T3 & M3).
  assert (Hw4 : w4 = fire (length (timers w)) (set_env e3 w3)) by done.
  clearbody w4. subst w4.
  set (w4 := fire _ (set_env e3 w3)) in *.
  assert (Htr : trace w4 = trace w ++ failed_attempt k d id 0
                  ++ failed_attempt k d id 1 ++ failed_attempt k d id 2
                  ++ failed_attempt k d id 3).
  { rewrite T3, T2, T1, T0. by rewrite <- !app_assoc. }
  assert (Hd : delays (trace w4)
               = delays (trace w) ++ [1000; 2000; 4000; 8000]%Z).
  { rewrite Htr, !delays_app, !delays_failed_attempt. done. }
  assert (Hrun : play [SetEnv e4; Fire n] w4 = snd fifth).
  { unfold play. cbn [foldl step]. subst n.
    rewrite (fire_last (timers w) (RetryPost k d id (3 + 1))) by done.
    cbn [run_callback]. unfold postToIde. subst fifth.
    pose proof (transport_fails_spec k d id
                  (set_timers (timers w) (set_env e4 w4))) as Hs.
    destruct (_postToIde k d id (set_timers (timers w) (set_env e4 w4)))
      as [[|err] w5]; [done|].
    simpl in Hs. destruct Hs as [_ Hs]. rewrite Hs in H4 by eauto. done. }
  assert (Hn : fst fifth = Normal).
  { pose proof (transport_fails_spec k d id
                  (set_timers (timers w) (set_env e4 w4))) as Hs.
    subst fifth. destruct (fst _); [done|].
    destruct Hs as [_ Hs]. simpl in Hs. rewrite Hs in H4 by eauto. done. }
  repeat split; try done.
  - subst fifth. unfold _postToIde. simpl.
    destruct (vscode e4), (jetbrains e4), (postIntellijMessage e4), id;
      simpl; rewrite ?delays_app; simpl; rewrite ?app_nil_r; done.
  - subst fifth. unfold _postToIde. simpl.
    destruct (vscode e4), (jetbrains e4), (postIntellijMessage e4), id;
      simpl; done.
Qed.

Lemma postToIde_backoff_witness :
  let w := initial_world failing_env (λ _, "u") in
  let n := length (timers w) in
  delays (trace (play [SetEnv failing_env; Fire n; SetEnv failing_env; Fire n;
                       SetEnv failing_env; Fire n]
                   (postToIde "ping" VNull (Some "m") 0 (set_env failing_env w))))
    = delays (trace w) ++ [1000; 2000; 4000; 8000]%Z.
Proof.
  intros w n.
  exact (proj1 (proj2 (postToIde_backoff "ping" VNull (Some "m") w
                failing_env failing_env failing_env failing_env bridged_env
                eq_refl eq_refl eq_refl eq_refl eq_refl))).
Defined.

(** After attempts 0 to 4 have all failed a sixth attempt is pending,
    16000 ms away, and it is made. *)
Lemma postToIde_sixth_attempt :
  let w := initial_world failing_env (λ _, "u") in
  let w5 := play [Fire 0; Fire 0; Fire 0; Fire 0]
                 (postToIde "ping" VNull None 0 w) in
  failures (trace w5) = 5%nat ∧
  timers w5 = [RetryPost "ping" VNull None 5] ∧
  delays (trace w5) = [1000; 2000; 4000; 8000; 16000]%Z ∧
  failures (trace (fire 0 w5)) = 6%nat.
Proof. vm_compute. done. Qed.

(** C4 (amended): a send whose every attempt fails makes exactly six
    attempts, numbered 0 to 5, with retry delays of 1000, 2000, 4000,
    8000 and 16000 ms.  After the sixth failure nothing more is
    scheduled: the only further effect is the console error, and the
    dispatcher returns to its caller normally each time. *)
Theorem postToIde_exhaustion k d id w :
  transport_fails (env w) = true →
  let n := length (timers w) in
  let w' := play [Fire n; Fire n; Fire n; Fire n; Fire n]
                 (postToIde k d id 0 w) in
  trace w' = trace w ++ failed_attempt k d id 0 ++ failed_attempt k d id 1
               ++ failed_attempt k d id 2 ++ failed_attempt k d id 3
               ++ failed_attempt k d id 4
               ++ [Console (UnableIntellij k d);
                   Console (MaxAttempts "postIntellijMessage is undefined")] ∧
  failures (trace w') = (failures (trace w) + 6)%nat ∧
  delays (trace w') = delays (trace w) ++ [1000; 2000; 4000; 8000; 16000]%Z ∧
  timers w' = timers w ∧
  fire n w' = w'.
Proof.
  intros Hf n w'.
  destruct (retry_step k d id 0 w Hf ltac:(lia)) as (T0 & M0 & E0).
  simpl in T0, M0, E0.
  set (w1 := postToIde k d id 0 w) in *.
  assert (Hse : ∀ v, env v = env w → set_env (env w) v = v).
  { intros [] Hv. simpl in Hv. unfold set_env. simpl. by rewrite Hv. }
  assert (Hround : ∀ m v, timers v = timers w ++ [RetryPost k d id m] →
            env v = env w → (m < 5)%nat →
            trace (fire n v) = trace v ++ failed_attempt k d id m ∧
            timers (fire n v) = timers w ++ [RetryPost k d id (m + 1)] ∧
            env (fire n v) = env w).
  { intros m v Hv He Hm.
    destruct (retry_round k d id m (timers w) (env w) v Hv Hf Hm) as (A & B).
    rewrite (Hse v He) in A, B. repeat split; try done.
    subst n. rewrite (fire_last _ _ _ Hv). simpl.
    rewrite postToIde_retry by (simpl; congruence || done). simpl. done. }
  destruct (Hround 1%nat w1 M0 E0 ltac:(lia)) as (T1 & M1 & E1).
  set (w2 := fire n w1) in *.
  destruct (Hround 2%nat w2 M1 E1 ltac:(lia)) as (T2 & M2 & E2).
  set (w3 := fire n w2) in *.
  destruct (Hround 3%nat w3 M2 E2 ltac:(lia)) as (T3 & M3 & E3).
  set (w4 := fire n w3) in *.
  destruct (Hround 4%nat w4 M3 E3 ltac:(lia)) as (T4 & M4 & E4).
  set (w5 := fire n w4) in *.
  assert (Hw' : w' = fire n w5) by done.
  assert (H6 : fire n w5 =
               emit (Console (MaxAttempts "postIntellijMessage is undefined"))
                 (emit (Console (UnableIntellij k d))
                    (set_timers (timers w) w5))).
  { subst n. rewrite (fire_last _ _ _ M4). simpl.
    rewrite postToIde_give_up; [done | simpl; congruence | lia]. }
  assert (Htr : trace w' = trace w ++ failed_attempt k d id 0
                 ++ failed_attempt k d id 1 ++ failed_attempt k d id 2
                 ++ failed_attempt k d id 3 ++ failed_attempt k d id 4
                 ++ [Console (UnableIntellij k d);
                     Console (MaxAttempts "postIntellijMessage is undefined")]).
  { rewrite Hw', H6. simpl. rewrite T4, T3, T2, T1, T0.
    by rewrite <- !app_assoc. }
  assert (Htm : timers w' = timers w) by (by rewrite Hw', H6).
  repeat split; try done.
  - rewrite Htr, !failures_app, !failures_failed_attempt.
    unfold failures. simpl. lia.
  - rewrite Htr, !delays_app, !delays_failed_attempt. done.
  - unfold fire. rewrite Htm, lookup_ge_None_2; [done | subst n; lia].
Qed.

Lemma postToIde_exhaustion_witness :
  failures
    (trace (play [Fire 0; Fire 0; Fire 0; Fire 0; Fire 0]
              (postToIde "ping" VNull None 0
                 (initial_world failing_env (λ _, "u"))))) = 6%nat.
Proof.
  pose proof (postToIde_exhaustion "ping" VNull None
                (initial_world failing_env (λ _, "u")) eq_refl) as H.
  simpl in H. destruct H as (_ & H & _). exact H.
Defined.

End RetrySchedule.

(** ** What the dispatcher leaves alone *)

Section Frame.

Lemma same_registry_refl w : same_registry w w.
Proof. by split. Qed.

Lemma same_registry_trans w1 w2 w3 :
  same_registry w1 w2 → same_registry w2 w3 → same_registry w1 w3.
Proof. intros [] []. split; intros; congruence. Qed.

Lemma same_registry_postToIde k d id n w :
  same_registry w (postToIde k d id n w).
Proof.
  unfold postToIde, _postToIde.
  destruct (vscode (env w)), (jetbrains (env w)),
    (postIntellijMessage (env w)), id, (n <? 5)%nat; simpl;
    split; simpl; intros;
    rewrite ?resolutions_app, ?yields_app, ?returns_app; simpl;
    rewrite ?app_nil_r; done.
Qed.

Lemma signals_postToIde k d id n w :
  signals (postToIde k d id n w) = signals w.
Proof.
  unfold postToIde, _postToIde.
  by destruct (vscode (env w)), (jetbrains (env w)),
    (postIntellijMessage (env w)), id, (n <? 5)%nat.
Qed.

(** The dispatcher sets retry timers after the pending ones and removes
    none. *)
Lemma timers_postToIde k d id n w :
  ∃ ts, timers (postToIde k d id n w) = timers w ++ ts ∧
        ∀ g, ResolveSleep g ∉ ts.
Proof.
  unfold postToIde, _postToIde.
  destruct (vscode (env w)), (jetbrains (env w)),
    (postIntellijMessage (env w)), id, (n <? 5)%nat; simpl;
    first [ by (exists []; rewrite app_nil_r; split;
                  [done | intros g; apply not_elem_of_nil])
          | by (eexists [_]; split;
                  [done | intros g ?%list_elem_of_singleton]) ].
Qed.

(** Running the "abort" listeners of a signal only runs the
    dispatcher. *)
Lemma same_registry_abort_listeners ids w :
  same_registry w
    (foldl (λ w id, postToIde "abort" VUndefined (Some id) 0 w) w ids) ∧
  signals (foldl (λ w id, postToIde "abort" VUndefined (Some id) 0 w) w ids)
    = signals w.
Proof.
  revert w. induction ids as [|id ids IH]; intros w; simpl.
  - split; [apply same_registry_refl | done].
  - destruct (IH (postToIde "abort" VUndefined (Some id) 0 w)) as [A B].
    split.
    + eapply same_registry_trans; [apply same_registry_postToIde | apply A].
    + by rewrite B, signals_postToIde.
Qed.

Lemma same_registry_abort s w : same_registry w (abort s w).
Proof.
  unfold abort. destruct (aborted (signal_of s w)).
  - apply same_registry_refl.
  - eapply same_registry_trans;
      [| apply same_registry_abort_listeners]. by split.
Qed.

Lemma signals_abort s w :
  signals (abort s w)
    = if aborted (signal_of s w) then signals w
      else <[s := {| aborted := true; on_abort := on_abort (signal_of s w) |}]>
             (signals w).
Proof.
  unfold abort. destruct (aborted (signal_of s w)); [done|].
  by rewrite (proj2 (same_registry_abort_listeners _ _)).
Qed.

End Frame.

(** ** C2, C7: unary calls *)

Section Unary.

Lemma ideRequest_pending e ids k d :
  let w0 := initial_world e ids in
  pending (ids 0%nat) (fst (ideRequest k d w0)) (snd (ideRequest k d w0)).
Proof.
  intros w0. unfold ideRequest. simpl.
  set (w3 := addEventListener _ _).
  destruct (same_registry_postToIde k d (Some (ids 0%nat)) 0 w3).
  split.
  - by rewrite sr_listeners0.
  - by rewrite sr_generators0.
  - intros s sg. by rewrite signals_postToIde.
  - by rewrite sr_promises0.
  - by rewrite sr_resolutions0.
Qed.

Lemma no_abort_listeners_signal_of s w :
  no_abort_listeners w → on_abort (signal_of s w) = [].
Proof.
  intros H. unfold signal_of. destruct (signals w !! s) eqn:E; simpl; eauto.
Qed.

Lemma no_abort_listeners_abort s w :
  no_abort_listeners w → no_abort_listeners (abort s w).
Proof.
  intros H s' sg. rewrite signals_abort.
  destruct (aborted (signal_of s w)); [apply H|].
  rewrite lookup_insert. case_decide; [|apply H].
  intros [= <-]. simpl. by apply no_abort_listeners_signal_of.
Qed.

(** With no generator on the heap, whatever happens besides an arriving
    envelope leaves the registry as it is. *)
Lemma step_background a w :
  generators w = ∅ → no_abort_listeners w →
  match a with Deliver _ => False | _ => True end →
  same_registry w (step w a) ∧ no_abort_listeners (step w a).
Proof.
  intros Hg Hs Ha. destruct a as [ev|g|i|s|e]; simpl; try done.
  - unfold next. rewrite Hg, lookup_empty.
    split; [apply same_registry_refl | done].
  - unfold fire. destruct (timers w !! i) as [[k d id n|g]|];
      [| |split; [apply same_registry_refl | done]].
    + simpl. split.
      * eapply same_registry_trans; [|apply same_registry_postToIde].
        by split.
      * intros s sg. rewrite signals_postToIde. apply Hs.
    + simpl. unfold wake. simpl. rewrite Hg, lookup_empty.
      split; [by split | done].
  - split; [apply same_registry_abort | by apply no_abort_listeners_abort].
Qed.

Lemma deliver_no_listener event w : listeners w = [] → deliver event w = w.
Proof. intros H. unfold deliver. by rewrite H. Qed.

Lemma deliver_pending_other id p event w :
  listeners w = [UnaryHandler id p] → messageId event ≠ id →
  deliver event w = w.
Proof.
  intros H Hne. unfold deliver. rewrite H. simpl.
  rewrite H. rewrite decide_True by set_solver.
  unfold unary_handler.
  by apply String.eqb_neq in Hne as ->.
Qed.

Lemma deliver_pending_reply id p event w :
  pending id p w → messageId event = id →
  settled p (data event) (deliver event w).
Proof.
  intros [Hl Hg Hs Hp Hr] He. unfold deliver. rewrite Hl. simpl.
  rewrite Hl. rewrite decide_True by set_solver.
  unfold unary_handler. apply String.eqb_eq in He as ->.
  unfold resolve. simpl. rewrite Hp.
  split; simpl; try done.
  - rewrite Hl. by rewrite filter_cons_False by (intros H; by apply H).
  - apply lookup_insert_eq.
  - rewrite resolutions_app, Hr. simpl. by rewrite decide_True.
Qed.

Lemma pending_same_registry id p w w' :
  pending id p w → same_registry w w' → no_abort_listeners w' →
  pending id p w'.
Proof. intros [] [] ?. split; try congruence; done. Qed.

Lemma settled_same_registry p v w w' :
  settled p v w → same_registry w w' → no_abort_listeners w' →
  settled p v w'.
Proof. intros [] [] ?. split; try congruence; done. Qed.

Lemma step_pending id p a w :
  pending id p w → not_reply id a → pending id p (step w a).
Proof.
  intros Hp Ha.
  destruct a as [ev| | | |];
    [simpl; by rewrite (deliver_pending_other id p) by (done || apply Hp)|..].
  all: match goal with
       | |- pending _ _ (step _ ?a) =>
           destruct (step_background a w) as [A B];
             try done; try apply Hp; by eapply pending_same_registry
       end.
Qed.

Lemma play_pending id p acts w :
  pending id p w → Forall (not_reply id) acts → pending id p (play acts w).
Proof.
  intros Hp Ha. revert w Hp.
  induction Ha as [|a acts Ha _ IH]; intros w Hp; [done|].
  apply IH. by apply step_pending.
Qed.

Lemma step_settled p v a w : settled p v w → settled p v (step w a).
Proof.
  intros Hp.
  destruct a as [ev| | | |];
    [simpl; by rewrite deliver_no_listener by apply Hp|..].
  all: match goal with
       | |- settled _ _ (step _ ?a) =>
           destruct (step_background a w) as [A B];
             try done; try apply Hp; by eapply settled_same_registry
       end.
Qed.

Lemma play_settled p v acts w : settled p v w → settled p v (play acts w).
Proof.
  revert w. induction acts as [|a acts IH]; intros w Hp; [done|].
  apply IH. by apply step_settled.
Qed.

End Unary.

Section UnaryClaims.

Lemma deliver_pending id p event w :
  listeners w = [UnaryHandler id p] →
  deliver event w = unary_handler id p event w.
Proof.
  intros H. unfold deliver. rewrite H. simpl.
  rewrite H. by rewrite decide_True by set_solver.
Qed.

(** C2: after a unary call, whatever else happens meanwhile, the first
    envelope bearing the call's identifier resolves its promise with
    that envelope's payload, [resolve] having been called once; from
    then on the resolution stands whatever happens, and an envelope that
    arrives later, bearing the same identifier or not, leaves the world
    as it is. *)
Theorem ideRequest_resolved_once e ids k d pre event post later :
  let w0 := initial_world e ids in
  let p := fst (ideRequest k d w0) in
  let w1 := play pre (snd (ideRequest k d w0)) in
  let w2 := play post (deliver event w1) in
  Forall (not_reply (ids 0%nat)) pre →
  messageId event = ids 0%nat →
  (promises w1 !! p = None ∧ resolutions p (trace w1) = []) ∧
  (promises (deliver event w1) !! p = Some (data event) ∧
   resolutions p (trace (deliver event w1)) = [data event]) ∧
  (promises w2 !! p = Some (data event) ∧
   resolutions p (trace w2) = [data event]) ∧
  deliver later w2 = w2.
Proof.
  intros w0 p w1 w2 Hpre Hid.
  assert (H1 : pending (ids 0%nat) p w1)
    by (apply play_pending; [apply ideRequest_pending | exact Hpre]).
  assert (H2 : settled p (data event) (deliver event w1))
    by by apply (deliver_pending_reply (ids 0%nat)).
  assert (H3 : settled p (data event) w2) by by apply play_settled.
  repeat split; try apply H1; try apply H2; try apply H3.
  apply deliver_no_listener, H3.
Qed.

Lemma ideRequest_resolved_once_witness :
  let w0 := initial_world plain_env (λ _, "X") in
  let reply := {| messageId := "X"; messageType := "echo";
                  data := VObj [("msg", VStr "hi")] |} in
  let other := {| messageId := "Y"; messageType := "echo"; data := VNull |} in
  let w2 := play [Deliver reply; SetEnv failing_env]
                 (deliver reply (play [Deliver other]
                                      (snd (ideRequest "echo" VNull w0)))) in
  promises w2 !! fst (ideRequest "echo" VNull w0)
    = Some (VObj [("msg", VStr "hi")]) ∧
  deliver reply w2 = w2.
Proof.
  intros w0 reply other w2.
  pose proof (ideRequest_resolved_once plain_env (λ _, "X") "echo" VNull
                [Deliver other] reply [Deliver reply; SetEnv failing_env]
                reply) as H.
  destruct H as (_ & _ & [H _] & H').
  - repeat constructor. simpl. discriminate.
  - reflexivity.
  - split; [exact H | exact H'].
Defined.

(** C7: an envelope resolves a pending call exactly when it bears the
    call's identifier; an envelope with another identifier changes
    nothing; and the envelope's operation name plays no part. *)
Theorem ideRequest_matches_by_id e ids k d pre event :
  let w0 := initial_world e ids in
  let p := fst (ideRequest k d w0) in
  let w1 := play pre (snd (ideRequest k d w0)) in
  Forall (not_reply (ids 0%nat)) pre →
  (promises (deliver event w1) !! p = Some (data event) ∧
   resolutions p (trace (deliver event w1)) = [data event]
   ↔ messageId event = ids 0%nat) ∧
  (deliver event w1 = w1 ↔ messageId event ≠ ids 0%nat) ∧
  (∀ kind, deliver {| messageId := messageId event; messageType := kind;
                      data := data event |} w1
           = deliver event w1).
Proof.
  intros w0 p w1 Hpre.
  assert (H1 : pending (ids 0%nat) p w1)
    by (apply play_pending; [apply ideRequest_pending | exact Hpre]).
  assert (Hkind : ∀ kind,
            deliver {| messageId := messageId event; messageType := kind;
                       data := data event |} w1 = deliver event w1).
  { intros kind. by rewrite !(deliver_pending (ids 0%nat) p) by apply H1. }
  destruct (decide (messageId event = ids 0%nat)) as [Heq|Hne].
  - pose proof (deliver_pending_reply _ _ _ _ H1 Heq) as H2.
    split; [|split]; [| |exact Hkind].
    + split; [done|]. intros _. split; apply H2.
    + split; [|done]. intros Hw Hne. rewrite Hw in H2.
      destruct H1, H2. congruence.
  - pose proof (deliver_pending_other _ p _ _ (pd_listeners _ _ _ H1) Hne)
      as H2.
    split; [|split]; [| |exact Hkind].
    + split; [|done]. rewrite H2. intros [Hp _]. destruct H1. congruence.
    + split; done.
Qed.

Lemma ideRequest_matches_by_id_witness :
  let w0 := initial_world plain_env (λ _, "X") in
  let w1 := play [Deliver {| messageId := "Y"; messageType := "echo";
                             data := VNull |}]
                 (snd (ideRequest "echo" VNull w0)) in
  promises (deliver {| messageId := "X"; messageType := "other";
                       data := VStr "r" |} w1)
    !! fst (ideRequest "echo" VNull w0) = Some (VStr "r").
Proof.
  intros w0 w1.
  pose proof (ideRequest_matches_by_id plain_env (λ _, "X") "echo" VNull
                [Deliver {| messageId := "Y"; messageType := "echo";
                            data := VNull |}]
                {| messageId := "X"; messageType := "other";
                   data := VStr "r" |}) as H.
  destruct H as ([_ H] & _).
  - repeat constructor. simpl. discriminate.
  - by destruct (H eq_refl) as [H' _].
Defined.

End UnaryClaims.

(** ** Strings *)

Section Strings.

Lemma sapp_cons a s t : String a s +:+ t = String a (s +:+ t).
Proof. done. Qed.

Lemma sapp_nil_r s : s +:+ "" = s.
Proof. induction s as [|a s IH]; [done|]. by rewrite sapp_cons, IH. Qed.

Lemma sapp_assoc s t u : (s +:+ t) +:+ u = s +:+ t +:+ u.
Proof. induction s as [|a s IH]; [done|]. by rewrite !sapp_cons, IH. Qed.

Lemma length_sapp s t :
  String.length (s +:+ t) = (String.length s + String.length t)%nat.
Proof. induction s as [|a s IH]; [done|]. rewrite sapp_cons. simpl. lia. Qed.

Lemma slice_length s n :
  String.length (slice s n) = (String.length s - n)%nat.
Proof.
  revert n. induction s as [|a s IH]; intros [|n]; simpl; by try apply IH.
Qed.

Lemma slice_app s t n :
  (n ≤ String.length s)%nat → slice (s +:+ t) n = slice s n +:+ t.
Proof.
  revert n. induction s as [|a s IH]; intros [|n] Hn; simpl in *;
    try done; try lia.
  apply IH. lia.
Qed.

Lemma slice_all s : slice s (String.length s) = "".
Proof. induction s as [|a s IH]; [done | apply IH]. Qed.

Lemma slice_nonempty s n : (n < String.length s)%nat → slice s n ≠ "".
Proof.
  intros Hn He. pose proof (slice_length s n) as Hl.
  rewrite He in Hl. simpl in Hl. lia.
Qed.

Lemma join_app l1 l2 : join (l1 ++ l2) = join l1 +:+ join l2.
Proof.
  induction l1 as [|c l1 IH]; [done|]. simpl. by rewrite IH, sapp_assoc.
Qed.

Lemma join_concat groups : join (map join groups) = join (concat groups).
Proof.
  induction groups as [|gr groups IH]; [done|].
  simpl. by rewrite join_app, IH.
Qed.

Lemma slice_app_length s t : slice (s +:+ t) (String.length s) = t.
Proof. induction s as [|a s IH]; [done | apply IH]. Qed.

Lemma slice_join_drop l k :
  slice (join l) (String.length (join (take k l))) = join (drop k l).
Proof.
  rewrite <- (take_drop k l) at 1. rewrite join_app. apply slice_app_length.
Qed.

Lemma join_nonempty l : Forall (λ c, c ≠ "") l → join l = "" → l = [].
Proof.
  intros [|c l' Hc _]; [done|]. simpl. destruct c; [done|].
  by rewrite sapp_cons.
Qed.

End Strings.

(** ** The streaming adapter *)

Section Stream.

Variables (g : nat) (id : string).

Local Abbreviation core := (core g id).
Local Abbreviation stream_inv := (stream_inv g id).
Local Abbreviation feed := (feed id).
Local Abbreviation pc_of := (pc_of g).

Lemma core_ext st w w' f :
  core st w f → listeners w' = listeners w →
  yields g (trace w') = yields g (trace w) → core st w' f.
Proof. intros [] Hl Hy. split; try done; by rewrite ?Hl, ?Hy. Qed.

Lemma core_yield st w f :
  core st w f → (index f < String.length (buffer f))%nat →
  core st (emit (Yield g (slice (buffer f) (index f))) w)
       (set_index (String.length (buffer f)) f).
Proof.
  intros [] Hlt. split; simpl; try done.
  - rewrite yields_app. simpl. rewrite decide_True by done.
    rewrite join_app. simpl. rewrite sapp_nil_r, slice_all, sapp_nil_r.
    done.
  - rewrite yields_app. simpl. rewrite decide_True by done.
    apply Forall_app. split; [done|].
    constructor; [by apply slice_nonempty | done].
  - destruct co_groups0 as (k & (Hk & groups & Hch & Hcat) & Hi).
    exists (length st.1). split; [split; [done|]|].
    + exists (groups ++ [drop k st.1]).
      rewrite yields_app. simpl. rewrite decide_True by done.
      rewrite map_app, concat_app, Hch, Hcat. simpl.
      rewrite app_nil_r, take_drop, firstn_all.
      by rewrite co_buffer0, Hi, slice_join_drop.
    + by rewrite firstn_all, co_buffer0.
Qed.

Lemma returns_yield c w :
  returns g (trace (emit (Yield g c) w)) = returns g (trace w).
Proof. simpl. rewrite returns_app. simpl. by rewrite app_nil_r. Qed.

Section Body.

Variables (st : received) (w : World) (f : Frame).
Variable c0 : Generator.
Hypothesis Hg : generators w = {[g := c0]}.
Hypothesis Hc : core st w f.
Hypothesis Hr : returns g (trace w) = [].

Lemma sleep_inv r : stream_inv st (sleep g f r w).
Proof.
  exists f, AtSleep, r. unfold sleep, setTimeout.
  split; [|split; [|split; [|split]]].
  - simpl. rewrite Hg. apply insert_singleton_eq.
  - eapply core_ext; [exact Hc | done |].
    simpl. rewrite yields_app. simpl. by rewrite app_nil_r.
  - simpl. rewrite returns_app. simpl. by rewrite app_nil_r.
  - by intros [|].
  - intros _. simpl. apply elem_of_app. right. by apply list_elem_of_singleton.
Qed.

Lemma finish_inv :
  done f = true → index f = String.length (buffer f) →
  stream_inv st (finish g f w).
Proof.
  intros Hd Hi. exists f, Completed, 0%nat. unfold finish.
  split; [|split; [|split; [|split]]].
  - simpl. rewrite Hg. apply insert_singleton_eq.
  - eapply core_ext; [exact Hc | done |].
    simpl. rewrite yields_app. simpl. by rewrite app_nil_r.
  - simpl. rewrite returns_app, Hr. simpl. by rewrite decide_True.
  - done.
  - done.
Qed.

End Body.

Lemma after_loop_inv st w f c0 r :
  generators w = {[g := c0]} → core st w f →
  returns g (trace w) = [] → done f = true →
  stream_inv st (after_loop g f r w).
Proof.
  intros Hg Hc Hr Hd. unfold after_loop.
  destruct (index f <? String.length (buffer f))%nat eqn:Hlt.
  - apply Nat.ltb_lt in Hlt.
    pose proof (core_yield _ _ _ Hc Hlt) as Hc'.
    destruct (r <=? 1)%nat.
    + eexists _, AtFinalYield, 0%nat.
      split; [|split; [|split; [|split]]].
      * simpl. rewrite Hg. apply insert_singleton_eq.
      * eapply core_ext; [exact Hc' | done | done].
      * simpl. rewrite returns_app, Hr. simpl. done.
      * done.
      * done.
    + eapply finish_inv; try done.
      by rewrite returns_yield.
  - apply Nat.ltb_ge in Hlt. eapply finish_inv; try done.
    destruct Hc. lia.
Qed.

Lemma loop_inv st w f c0 r :
  generators w = {[g := c0]} → core st w f →
  returns g (trace w) = [] →
  stream_inv st (loop g f r w).
Proof.
  intros Hg Hc Hr. unfold loop.
  destruct (done f) eqn:Hd; [by eapply after_loop_inv|].
  destruct (index f <? String.length (buffer f))%nat eqn:Hlt;
    [|by eapply sleep_inv].
  apply Nat.ltb_lt in Hlt.
  pose proof (core_yield _ _ _ Hc Hlt) as Hc'.
  destruct (r <=? 1)%nat.
  - eexists _, AtLoopYield, 0%nat.
    split; [|split; [|split; [|split]]].
    + simpl. rewrite Hg. apply insert_singleton_eq.
    + eapply core_ext; [exact Hc' | done | done].
    + simpl. rewrite returns_app, Hr. simpl. done.
    + by intros [|].
    + done.
  - eapply sleep_inv; try done. by rewrite returns_yield.
Qed.

(** *** The handler *)

Lemma get_None v k k' : get v k = None → get v k' = None.
Proof. by destruct v. Qed.

Lemma absorb_closed b v payload : absorb (b, Some v) payload = (b, Some v).
Proof. done. Qed.

Lemma deliver_stream_inv st event w :
  stream_inv st w → stream_inv (feed st (Deliver event)) (deliver event w).
Proof.
  intros (f & pc & r & Hg & Hc & Hr & Hcomp & Hsl).
  pose proof Hc as [Hid Hb Hd Hv Hl Hi Hy Hn Hgr].
  destruct st as [b [v|]]; simpl in Hb, Hd, Hv.
  { (* completed: nothing listens any more *)
    rewrite Hd in Hl.
    rewrite deliver_no_listener by done.
    simpl. rewrite absorb_closed.
    destruct (String.eqb _ _); by exists f, pc, r. }
  rewrite Hd in Hl.
  unfold deliver. rewrite Hl. simpl. rewrite Hl.
  rewrite decide_True by (by apply list_elem_of_singleton).
  unfold stream_handler. rewrite Hg, lookup_singleton_eq, Hid.
  destruct (String.eqb (messageId event) id); [|by exists f, pc, r].
  assert (Hpc : pc ≠ Completed ∧ pc ≠ AtFinalYield).
  { split; intros ->; destruct Hcomp as [? _]; auto; congruence. }
  unfold absorb, is_completion, is_fragment, fragment_content. simpl.
  destruct (get (data event) "done") as [dn|] eqn:Hdn.
  - destruct (truthy dn) eqn:Ht; simpl.
    + (* the completion envelope *)
      exists (set_done (data event) f), pc, r.
      split; [|split; [|split; [|split]]].
      * simpl. rewrite Hg. apply insert_singleton_eq.
      * split; simpl; try done.
        -- by intros ? [= <-].
        -- by rewrite Hl, filter_cons_False by (intros H; by apply H).
      * simpl. rewrite Hr. by destruct pc, Hpc.
      * intros [->| ->]; by destruct Hpc.
      * done.
    + (* a fragment *)
      destruct (get (data event) "content") as [c|] eqn:Hcont;
        [|by rewrite (get_None _ _ "done" Hcont) in Hdn].
      exists (set_buffer (buffer f +:+ to_string c) f), pc, r.
      split; [|split; [|split; [|split]]].
      * simpl. rewrite Hg. apply insert_singleton_eq.
      * split; simpl; try done.
        -- rewrite join_app, Hb. simpl. by rewrite sapp_nil_r.
        -- by rewrite Hd.
        -- rewrite length_sapp. lia.
        -- rewrite slice_app by done. by rewrite <- sapp_assoc, Hy.
        -- destruct Hgr as (k & (Hk & groups & Hch & Hcat) & Hik).
           simpl in Hk, Hcat, Hik. exists k.
           split; [split|]; [rewrite length_app; simpl; lia | |].
           ++ exists groups. by rewrite take_app_le.
           ++ by rewrite take_app_le.
      * simpl. rewrite Hr. by destruct pc, Hpc.
      * intros [->| ->]; by destruct Hpc.
      * done.
  - (* the payload has no properties: the handler throws *)
    exists f, pc, r. split; [done|]. split; [|split; [|done]].
    + eapply core_ext; [exact Hc | done |].
      simpl. rewrite yields_app. simpl. by rewrite app_nil_r.
    + simpl. rewrite returns_app. simpl. by rewrite app_nil_r.
Qed.

(** *** Everything else *)

Lemma stream_inv_same_registry st w w' :
  stream_inv st w → same_registry w w' →
  (ResolveSleep g ∈ timers w → ResolveSleep g ∈ timers w') →
  stream_inv st w'.
Proof.
  intros (f & pc & r & Hg & Hc & Hr & Hcomp & Hsl) [] Ht.
  exists f, pc, r. split; [congruence|]. split; [|split; [|split]].
  - eapply core_ext; [exact Hc | done | done].
  - by rewrite sr_returns0.
  - done.
  - auto.
Qed.

Lemma elem_of_delete_other {A} (x y : A) (l : list A) i :
  x ∈ l → l !! i = Some y → x ≠ y → x ∈ delete i l.
Proof.
  intros [j Hj]%list_elem_of_lookup Hi Hne.
  assert (j ≠ i) by (intros ->; congruence).
  apply list_elem_of_lookup.
  destruct (decide (j < i)%nat).
  - exists j. by rewrite list_lookup_delete_lt.
  - exists (j - 1)%nat. rewrite list_lookup_delete_ge by lia.
    by replace (S (j - 1)) with j by lia.
Qed.

Lemma timers_abort_listeners (x : Callback) (l : list string) w :
  x ∈ timers w →
  x ∈ timers (foldl (λ w i, postToIde "abort" VUndefined (Some i) 0 w) w l).
Proof.
  revert w. induction l as [|i l IH]; intros w Hx; simpl; [done|].
  apply IH.
  destruct (timers_postToIde "abort" VUndefined (Some i) 0 w) as (ts & -> & _).
  apply elem_of_app. by left.
Qed.

Lemma timers_abort s w x : x ∈ timers w → x ∈ timers (abort s w).
Proof.
  intros Hx. unfold abort. destruct (aborted (signal_of s w)); [done|].
  by apply timers_abort_listeners.
Qed.

Lemma next_stream_inv st g' w : stream_inv st w → stream_inv st (next g' w).
Proof.
  intros Hinv. pose proof Hinv as (f & pc & r & Hg & Hc & Hr & Hcomp & Hsl).
  unfold next. rewrite Hg.
  destruct (decide (g' = g)) as [->|Hne];
    [|by rewrite lookup_singleton_ne].
  rewrite lookup_singleton_eq. destruct pc.
  - by eapply sleep_inv.
  - exists f, AtSleep, (S r). split; [|split; [|split; [|split]]]; try done.
    + simpl. rewrite Hg. apply insert_singleton_eq.
    + eapply core_ext; [exact Hc | done | done].
  - destruct Hcomp as [Hd Hi]; [by right|]. by eapply finish_inv.
  - done.
Qed.

Lemma stream_inv_set_timers st ts w :
  stream_inv st w →
  (ResolveSleep g ∈ timers w → ResolveSleep g ∈ ts) →
  stream_inv st (set_timers ts w).
Proof.
  intros Hinv Ht. eapply stream_inv_same_registry; [exact Hinv | by split | done].
Qed.

Lemma fire_stream_inv st i w : stream_inv st w → stream_inv st (fire i w).
Proof.
  intros Hinv. pose proof Hinv as (f & pc & r & Hg & Hc & Hr & Hcomp & Hsl).
  unfold fire. destruct (timers w !! i) as [[k d mid n|g']|] eqn:Hi;
    [| |done].
  - simpl.
    eapply stream_inv_same_registry; [|apply same_registry_postToIde|].
    + apply stream_inv_set_timers; [exact Hinv|].
      intros Hin. by eapply elem_of_delete_other.
    + destruct (timers_postToIde k d mid n
                  (set_timers (delete i (timers w)) w)) as (ts & -> & _).
      intros ?. apply elem_of_app. by left.
  - simpl. unfold wake. simpl. rewrite Hg.
    destruct (decide (g' = g)) as [->|Hne].
    + rewrite lookup_singleton_eq.
      assert (Hc' : core st (set_timers (delete i (timers w)) w) f)
        by (eapply core_ext; [exact Hc | done | done]).
      destruct pc.
      * exists f, AtLoopYield, r. by inv_split.
      * eapply loop_inv; [exact Hg | exact Hc' | done].
      * exists f, AtFinalYield, r. by inv_split.
      * exists f, Completed, r. by inv_split.
    + rewrite lookup_singleton_ne by done.
      apply stream_inv_set_timers; [exact Hinv|].
      intros Hin. eapply elem_of_delete_other; [done | done | congruence].
Qed.

Lemma step_stream_inv st a w :
  stream_inv st w → stream_inv (feed st a) (step w a).
Proof.
  intros Hinv. destruct a as [event|g'|i|s|e]; simpl.
  - by apply deliver_stream_inv.
  - by apply next_stream_inv.
  - by apply fire_stream_inv.
  - eapply stream_inv_same_registry;
      [exact Hinv | apply same_registry_abort | apply timers_abort].
  - eapply stream_inv_same_registry; [exact Hinv | by split | done].
Qed.

Lemma play_stream_inv st acts w :
  stream_inv st w →
  stream_inv (foldl absorb st (replies id acts)) (play acts w).
Proof.
  revert st w. induction acts as [|a acts IH]; intros st w Hinv; [done|].
  unfold replies. simpl. rewrite foldl_app.
  replace (foldl absorb st _) with (feed st a).
  - apply IH. by apply step_stream_inv.
  - destruct a as [event| | | |]; try done. simpl.
    by destruct (String.eqb _ _).
Qed.

(** *** Draining a completed stream *)

Lemma sleep_timer_found ts :
  ResolveSleep g ∈ ts →
  ∃ i, sleep_timer g ts = Some i ∧ ts !! i = Some (ResolveSleep g).
Proof.
  induction ts as [|[k d mid n|g'] ts IH]; intros Hin.
  - by apply not_elem_of_nil in Hin.
  - apply elem_of_cons in Hin as [|Hin]; [done|].
    destruct (IH Hin) as (i & Hs & Hi). exists (S i). simpl. by rewrite Hs.
  - simpl. destruct (decide (g' = g)) as [->|Hne]; [by exists 0%nat|].
    apply elem_of_cons in Hin as [|Hin]; [congruence|].
    destruct (IH Hin) as (i & Hs & Hi). exists (S i). simpl. by rewrite Hs.
Qed.

Lemma feed_pull st w : feed st (pull g w) = st.
Proof. unfold pull. by repeat case_match. Qed.

Lemma pull_stream_inv st w :
  stream_inv st w → stream_inv st (step w (pull g w)).
Proof.
  intros H. rewrite <- (feed_pull st w) at 1. by apply step_stream_inv.
Qed.

Lemma pull_progress st w pc :
  stream_inv st w → st.2 ≠ None → pc_of w = Some pc →
  ∃ pc', pc_of (step w (pull g w)) = Some pc' ∧
         (rank pc' ≤ rank pc - 1)%nat.
Proof.
  intros (f & pc0 & r & Hg & Hc & Hr & Hcomp & Hsl) Hst.
  assert (Hd : done f = true).
  { destruct Hc. destruct (st.2); [done | by destruct Hst]. }
  unfold pc_of at 1. rewrite Hg, lookup_singleton_eq. intros [= <-].
  unfold pull. rewrite Hg, lookup_singleton_eq.
  destruct pc0.
  - exists AtSleep. simpl. unfold next, pc_of.
    rewrite Hg, lookup_singleton_eq. simpl.
    by rewrite lookup_insert_eq.
  - destruct (sleep_timer_found _ (Hsl eq_refl)) as (i & -> & Hi).
    simpl. unfold fire. rewrite Hi. simpl. unfold wake. simpl.
    rewrite Hg, lookup_singleton_eq.
    unfold loop, after_loop, pc_of. rewrite Hd.
    destruct (index f <? String.length (buffer f))%nat, (r <=? 1)%nat;
      simpl; rewrite lookup_insert_eq;
      eexists; (split; [done|]); simpl; lia.
  - exists Completed. simpl. unfold next, pc_of.
    rewrite Hg, lookup_singleton_eq. simpl.
    by rewrite lookup_insert_eq.
  - exists Completed. simpl. unfold next, pc_of.
    rewrite Hg, lookup_singleton_eq. simpl.
    by rewrite Hg, lookup_singleton_eq.
Qed.

Lemma stream_inv_pc st w : stream_inv st w → ∃ pc, pc_of w = Some pc.
Proof.
  intros (f & pc & r & Hg & _). exists pc. unfold pc_of.
  by rewrite Hg, lookup_singleton_eq.
Qed.

Lemma drain_stream_inv st n w :
  stream_inv st w → stream_inv st (drain n g w).
Proof.
  revert w. induction n as [|n IH]; intros w H; [done|].
  simpl. by apply IH, pull_stream_inv.
Qed.

Lemma drain_completes st n w pc :
  stream_inv st w → st.2 ≠ None → pc_of w = Some pc →
  (rank pc ≤ n)%nat → pc_of (drain n g w) = Some Completed.
Proof.
  revert w pc. induction n as [|n IH]; intros w pc Hinv Hst Hpc Hn.
  - simpl. by destruct pc; simpl in Hn; try lia.
  - simpl. destruct (pull_progress _ _ _ Hinv Hst Hpc) as (pc' & Hpc' & Hr).
    eapply IH; [by apply pull_stream_inv | done | exact Hpc' | lia].
Qed.

(** What a completed, drained stream has shown its consumer. *)
Lemma completed_result st w :
  stream_inv st w → pc_of w = Some Completed →
  join (yields g (trace w)) = join st.1 ∧
  (∃ k, regroups (yields g (trace w)) st.1 k ∧ join (drop k st.1) = "") ∧
  ∀ v, st.2 = Some v → returns g (trace w) = [v].
Proof.
  intros (f & pc & r & Hg & Hc & Hr & Hcomp & Hsl).
  unfold pc_of. rewrite Hg, lookup_singleton_eq. intros [= ->].
  destruct Hcomp as [Hd Hi]; [by left|]. destruct Hc.
  split; [|split].
  - rewrite Hi, slice_all, sapp_nil_r in co_yields0. congruence.
  - destruct co_groups0 as (k & Hgr & Hk). exists k. split; [done|].
    rewrite <- (slice_join_drop st.1 k), <- Hk, Hi, co_buffer0.
    apply slice_all.
  - intros v Hv. by rewrite Hr, (co_return0 v Hv).
Qed.

Lemma absorb_completion b payload :
  is_completion payload = true → absorb (b, None) payload = (b, Some payload).
Proof. intros H. unfold absorb. simpl. by rewrite H. Qed.

Lemma absorb_fragment b payload :
  is_fragment payload = true →
  absorb (b, None) payload = (b ++ [fragment_content payload], None).
Proof.
  intros H. unfold absorb. simpl. rewrite H.
  unfold is_fragment, is_completion in *.
  destruct (get payload "done"); [by destruct (truthy _)|done].
Qed.

Lemma absorb_fragments b frags :
  Forall (λ p, is_fragment p = true) frags →
  foldl absorb (b, None) frags = (b ++ map fragment_content frags, None).
Proof.
  intros H. revert b. induction H as [|p frags Hp _ IH]; intros b.
  - simpl. by rewrite app_nil_r.
  - cbn [foldl map]. by rewrite absorb_fragment, IH, <- app_assoc.
Qed.

Lemma absorb_rest b v rest : foldl absorb (b, Some v) rest = (b, Some v).
Proof.
  induction rest as [|p rest IH]; [done|].
  cbn [foldl]. by rewrite absorb_closed.
Qed.

Lemma absorb_stream frags completion rest :
  Forall (λ p, is_fragment p = true) frags →
  is_completion completion = true →
  foldl absorb ([], None) (frags ++ completion :: rest)
    = (map fragment_content frags, Some completion).
Proof.
  intros Hf Hc. rewrite foldl_app, absorb_fragments by done.
  cbn [foldl]. by rewrite absorb_completion, absorb_rest.
Qed.

End Stream.

(** ** C1, C8, C9: what the consumer of a stream observes *)

Section StreamClaims.

Variables (e : Env) (ids : nat → string).
Variables (k : string) (d : Value) (tok : option nat).

Let w0 := initial_world e ids.
Let g := fst (ideStreamRequest k d tok w0).

Local Abbreviation started := (started e ids k d tok).

Lemma started_stream_inv : stream_inv g (ids 0%nat) ([], None) started.
Proof.
  unfold started, g, ideStreamRequest, next. simpl.
  rewrite lookup_insert_eq. unfold start. simpl.
  set (w1 := set_uuid_next 1 _).
  set (wp := postToIde k d (Some (ids 0%nat)) 0 w1).
  destruct (same_registry_postToIde k d (Some (ids 0%nat)) 0 w1)
    as [Hl Hp Hg Hn Hres Hy Hr].
  fold wp in Hl, Hp, Hg, Hn, Hres, Hy, Hr.
  assert (Ha : addEventListener (StreamHandler 0) wp
               = set_listeners [StreamHandler 0] wp).
  { unfold addEventListener. by rewrite Hl. }
  rewrite Ha.
  eapply loop_inv with (c0 := Unstarted k d tok).
  - destruct tok; simpl; rewrite Hg; simpl; apply insert_empty.
  - split; simpl; try done.
    + by destruct tok.
    + destruct tok; simpl; by rewrite Hy.
    + destruct tok; simpl; rewrite Hy; by constructor.
    + exists 0%nat. split; [|done]. split; [done|]. exists [].
      destruct tok; simpl; by rewrite Hy.
  - destruct tok; simpl; by rewrite Hr.
Qed.

(** Once the completion envelope has been taken in, three resumptions
    are enough to exhaust the generator. *)
Lemma drained acts n b v :
  let w := drain n g (play acts started) in
  foldl absorb ([], None) (replies (ids 0%nat) acts) = (b, Some v) →
  (3 ≤ n)%nat →
  join (yields g (trace w)) = join b ∧
  (∃ k, regroups (yields g (trace w)) b k ∧ join (drop k b) = "") ∧
  returns g (trace w) = [v].
Proof.
  intros w Hst Hn.
  pose proof (play_stream_inv g (ids 0%nat) _ acts _ started_stream_inv)
    as Hinv.
  rewrite Hst in Hinv.
  destruct (stream_inv_pc _ _ _ _ Hinv) as [pc Hpc].
  assert (Hdone : pc_of g w = Some Completed).
  { eapply drain_completes; [exact Hinv | done | exact Hpc |].
    destruct pc; simpl; lia. }
  pose proof (drain_stream_inv g (ids 0%nat) _ n _ Hinv) as Hinv'.
  destruct (completed_result _ _ _ _ Hinv' Hdone) as (Hy & Hgr & Hr).
  split; [exact Hy|]. split; [exact Hgr | by apply Hr].
Qed.

Lemma chunks_nonempty acts n :
  Forall (λ c, c ≠ "") (yields g (trace (drain n g (play acts started)))).
Proof.
  pose proof (play_stream_inv g (ids 0%nat) _ acts _ started_stream_inv)
    as Hinv.
  pose proof (drain_stream_inv g (ids 0%nat) _ n _ Hinv) as Hinv'.
  destruct Hinv' as (f & pc & r & _ & [] & _). done.
Qed.

(** C1: whatever the interleaving of arrivals, resumptions, timers and
    environment changes, if the envelopes bearing the stream's
    identifier are fragments followed by a completion envelope, then a
    consumer that drains the generator sees chunks whose concatenation
    is the concatenation of the fragments' [content] fields in arrival
    order, and then the completion envelope's payload as the value
    returned.  Envelopes after the completion are ignored. *)
Theorem ideStreamRequest_concatenation acts frags completion rest n :
  let w := drain n g (play acts started) in
  replies (ids 0%nat) acts = frags ++ completion :: rest →
  Forall (λ p, is_fragment p = true) frags →
  is_completion completion = true →
  (3 ≤ n)%nat →
  join (yields g (trace w)) = join (map fragment_content frags) ∧
  returns g (trace w) = [completion].
Proof.
  intros w Hrep Hf Hc Hn.
  destruct (drained acts n (map fragment_content frags) completion)
    as (Hy & _ & Hr); [|done|by split].
  rewrite Hrep. by apply absorb_stream.
Qed.

(** C9: in every run, complete or not, no chunk handed to the consumer
    is empty; and when the completion envelope is the first envelope
    bearing the stream's identifier, draining the generator yields no
    chunk at all and returns the completion payload. *)
Theorem ideStreamRequest_no_empty_chunk acts n :
  let w := drain n g (play acts started) in
  Forall (λ c, c ≠ "") (yields g (trace w)) ∧
  ∀ completion rest,
    replies (ids 0%nat) acts = completion :: rest →
    is_completion completion = true →
    (3 ≤ n)%nat →
    yields g (trace w) = [] ∧ returns g (trace w) = [completion].
Proof.
  intros w. split; [apply chunks_nonempty|].
  intros completion rest Hrep Hc Hn.
  destruct (drained acts n [] completion) as (Hy & _ & Hr); [|done|].
  - rewrite Hrep. by apply (absorb_stream []).
  - split; [|exact Hr]. apply join_nonempty; [apply chunks_nonempty | exact Hy].
Qed.

End StreamClaims.

Section Scenario.

Let envelope (p : Value) : Action :=
  Deliver {| messageId := "X"; messageType := "llmStreamChat"; data := p |}.
Let w1 := started plain_env (λ _, "X") "llmStreamChat" VNull None.

(** Two runs of the scenario of C8.  When the buffer is sampled between
    the two arrivals the chunks are "a" and "bc", yet the value returned
    is the completion payload, not the string "done"; when both
    fragments arrive within one polling interval there is a single
    chunk "abc". *)
Lemma stream_scenario_runs :
  let sampled :=
    drain 3 0 (play [envelope (fragment "a"); Fire 0; Next 0;
                     envelope (fragment "bc"); envelope done_payload] w1) in
  let batched :=
    drain 3 0 (play [envelope (fragment "a"); envelope (fragment "bc");
                     envelope done_payload] w1) in
  (yields 0 (trace sampled) = ["a"; "bc"] ∧
   returns 0 (trace sampled) = [done_payload] ∧
   returns 0 (trace sampled) ≠ [VStr "done"]) ∧
  (yields 0 (trace batched) = ["abc"] ∧
   returns 0 (trace batched) = [done_payload]).
Proof. vm_compute. repeat split; done. Qed.

End Scenario.

(** Two texts can be regrouped into non-empty chunks in two ways only. *)
Lemma concat_nil_nonempty (groups : list (list string)) :
  concat groups = [] → Forall (λ c, c ≠ "") (map join groups) → groups = [].
Proof.
  destruct groups as [|[|x gr] groups]; [done | | done].
  intros _ Hne. by inversion Hne.
Qed.

Lemma regroup_two (x y : string) (groups : list (list string)) :
  concat groups = [x; y] → Forall (λ c, c ≠ "") (map join groups) →
  map join groups = [x; y] ∨ map join groups = [x +:+ y].
Proof.
  intros Hcat Hne.
  destruct groups as [|[|a gr] rest]; [done | by inversion Hne |].
  apply Forall_cons in Hne as [_ Hne].
  simpl in Hcat. injection Hcat as -> Hcat.
  destruct gr as [|b gr].
  - left. destruct rest as [|[|c gr] rest]; [done | by inversion Hne |].
    apply Forall_cons in Hne as [_ Hne].
    simpl in Hcat. injection Hcat as -> Hcat.
    apply app_eq_nil in Hcat as [-> Hcat].
    rewrite (concat_nil_nonempty rest Hcat Hne). simpl.
    by rewrite !sapp_nil_r.
  - right. simpl in Hcat. injection Hcat as -> Hcat.
    apply app_eq_nil in Hcat as [-> Hcat].
    rewrite (concat_nil_nonempty rest Hcat Hne). simpl.
    by rewrite sapp_nil_r.
Qed.

(** C8 (amended): with fragments "a" and "bc" and then the completion
    payload [{done: true, value: "done"}], whatever the timing, the
    consumer sees either "a" then "bc" or the single chunk "abc", the
    sequence ends, and the value returned is the completion payload
    itself. *)
Theorem stream_scenario e ids k d tok acts n :
  let g := fst (ideStreamRequest k d tok (initial_world e ids)) in
  let w := drain n g (play acts (started e ids k d tok)) in
  replies (ids 0%nat) acts = [fragment "a"; fragment "bc"; done_payload] →
  (3 ≤ n)%nat →
  (yields g (trace w) = ["a"; "bc"] ∨ yields g (trace w) = ["abc"]) ∧
  returns g (trace w) = [done_payload].
Proof.
  intros g w Hrep Hn.
  destruct (drained e ids k d tok acts n ["a"; "bc"] done_payload)
    as (_ & (i & (Hi & groups & Hch & Hcat) & Hrest) & Hr);
    [by rewrite Hrep | done |].
  split; [|exact Hr].
  pose proof (chunks_nonempty e ids k d tok acts n) as Hne.
  fold g w in Hch, Hne. rewrite Hch in Hne |- *.
  destruct i as [|[|[|i]]]; simpl in Hi, Hrest; try done; try lia.
  by apply (regroup_two "a" "bc").
Qed.

Lemma stream_scenario_witness :
  let acts :=
    map (λ p, Deliver {| messageId := "X"; messageType := "llmStreamChat";
                         data := p |})
        [fragment "a"; fragment "bc"; done_payload] in
  let w := drain 3 0 (play acts (started plain_env (λ _, "X")
                                    "llmStreamChat" VNull None)) in
  (yields 0 (trace w) = ["a"; "bc"] ∨ yields 0 (trace w) = ["abc"]) ∧
  returns 0 (trace w) = [done_payload].
Proof.
  intros acts w.
  exact (stream_scenario plain_env (λ _, "X") "llmStreamChat" VNull None
           acts 3 eq_refl (le_n 3)).
Defined.

Lemma ideStreamRequest_concatenation_witness :
  let acts :=
    [Deliver {| messageId := "X"; messageType := "llmStreamChat";
                data := fragment "he" |};
     Fire 0;
     Deliver {| messageId := "X"; messageType := "llmStreamChat";
                data := fragment "llo" |};
     Deliver {| messageId := "X"; messageType := "llmStreamChat";
                data := done_payload |}] in
  let w := drain 3 0 (play acts (started plain_env (λ _, "X")
                                    "llmStreamChat" VNull None)) in
  join (yields 0 (trace w)) = "hello" ∧ returns 0 (trace w) = [done_payload].
Proof.
  intros acts w.
  refine (ideStreamRequest_concatenation plain_env (λ _, "X")
            "llmStreamChat" VNull None acts
            [fragment "he"; fragment "llo"] done_payload [] 3
            eq_refl _ eq_refl (le_n 3)).
  repeat constructor.
Defined.

Lemma ideStreamRequest_no_empty_chunk_witness :
  let acts :=
    [Fire 0;
     Deliver {| messageId := "X"; messageType := "llmStreamChat";
                data := done_payload |}] in
  let w := drain 3 0 (play acts (started plain_env (λ _, "X")
                                    "llmStreamChat" VNull None)) in
  yields 0 (trace w) = [] ∧ returns 0 (trace w) = [done_payload].
Proof.
  intros acts w.
  exact (proj2 (ideStreamRequest_no_empty_chunk plain_env (λ _, "X")
                  "llmStreamChat" VNull None acts 3)
           done_payload [] eq_refl eq_refl (le_n 3)).
Defined.

(** ** C6: cancellation *)

Section Cancellation.

Variables (e : Env) (ids : nat → string).
Variables (k : string) (d : Value) (s : nat).

Let g := fst (ideStreamRequest k d (Some s) (initial_world e ids)).
Let w1 := started e ids k d (Some s).

Lemma signals_stream_handler g' event w :
  signals (stream_handler g' event w) = signals w.
Proof. unfold stream_handler. by repeat case_match. Qed.

Lemma signals_loop g' f r w : signals (loop g' f r w) = signals w.
Proof. unfold loop, after_loop. by repeat case_match. Qed.

Lemma signals_step st a w :
  stream_inv g (ids 0%nat) st w → (∀ s', a ≠ Abort s') →
  signals (step w a) = signals w.
Proof.
  intros (f & pc & r & Hg & Hc & _) Ha.
  destruct a as [event|g'|i|s'|e']; simpl; try done.
  - destruct Hc. unfold deliver. rewrite co_listeners0.
    destruct (done f); [done|]. simpl. rewrite co_listeners0.
    rewrite decide_True by (by apply list_elem_of_singleton).
    apply signals_stream_handler.
  - unfold next. rewrite Hg.
    destruct (decide (g' = g)) as [->|Hne];
      [|by rewrite lookup_singleton_ne].
    rewrite lookup_singleton_eq. by destruct pc.
  - unfold fire. destruct (timers w !! i) as [[k' d' mid n|g']|]; [| |done].
    + simpl. by rewrite signals_postToIde.
    + simpl. unfold wake. simpl. rewrite Hg.
      destruct (decide (g' = g)) as [->|Hne];
        [|by rewrite lookup_singleton_ne].
      rewrite lookup_singleton_eq.
      destruct pc; try done. by rewrite signals_loop.
  - by destruct (Ha s').
Qed.

Lemma started_armed : armed s (ids 0%nat) w1.
Proof.
  unfold armed, w1, started, ideStreamRequest, next. simpl.
  rewrite lookup_insert_eq. unfold start. simpl.
  rewrite lookup_insert_eq.
  assert (signal_of s
            (addEventListener (StreamHandler 0)
               (postToIde k d (Some (ids 0%nat)) 0
                  (set_uuid_next 1
                     (set_generators (<[0%nat:=Unstarted k d (Some s)]> ∅)
                        (set_next_ref 1 (initial_world e ids))))))
          = fresh_signal) as ->; [|done].
  unfold signal_of, addEventListener.
  case_decide; simpl; by rewrite signals_postToIde.
Qed.

Lemma absorb_open b payload :
  is_completion payload = false → (absorb (b, None) payload).2 = None.
Proof.
  intros H. unfold absorb. simpl. rewrite H. by destruct (is_fragment _).
Qed.

(** Before the completion envelope and the abort, the stream stays open
    and the signal stays armed. *)
Lemma play_open st acts w :
  stream_inv g (ids 0%nat) st w → st.2 = None →
  Forall (no_completion (ids 0%nat)) acts →
  ∃ st', stream_inv g (ids 0%nat) st' (play acts w) ∧ st'.2 = None.
Proof.
  intros Hinv Hst Ha. revert st w Hinv Hst.
  induction Ha as [|a acts Ha _ IH]; intros st w Hinv Hst; [by exists st|].
  simpl. apply (IH (feed (ids 0%nat) st a)).
  - by apply step_stream_inv.
  - destruct a as [event| | | |]; try done. simpl.
    destruct (String.eqb _ _) eqn:He; [|done].
    destruct st as [b o]. simpl in Hst. subst o.
    apply absorb_open, Ha. by apply String.eqb_eq.
Qed.

Lemma play_armed st acts w :
  stream_inv g (ids 0%nat) st w → armed s (ids 0%nat) w →
  Forall (λ a, a ≠ Abort s) acts → armed s (ids 0%nat) (play acts w).
Proof.
  intros Hinv Harm Ha. revert st w Hinv Harm.
  induction Ha as [|a acts Ha _ IH]; intros st w Hinv Harm; [done|].
  simpl. apply (IH (feed (ids 0%nat) st a)); [by apply step_stream_inv|].
  unfold armed in *.
  assert (Hcase : (∃ s', a = Abort s') ∨ ∀ s', a ≠ Abort s')
    by (destruct a; eauto).
  destruct Hcase as [[s' ->]|Hno].
  - simpl. rewrite signals_abort.
    destruct (aborted _); [done|].
    rewrite lookup_insert_ne; [done | congruence].
  - by erewrite signals_step.
Qed.

(** An open stream has not returned and still listens. *)
Lemma open_stream st w :
  stream_inv g (ids 0%nat) st w → st.2 = None →
  pc_of g w ≠ Some Completed ∧ returns g (trace w) = [] ∧
  listeners w = [StreamHandler g].
Proof.
  intros (f & pc & r & Hg & Hc & Hr & Hcomp & _) Hst.
  destruct Hc. rewrite Hst in co_done0. rewrite co_done0 in co_listeners0.
  unfold pc_of. rewrite Hg, lookup_singleton_eq.
  assert (pc ≠ Completed).
  { intros ->. destruct Hcomp; [by left | congruence]. }
  split; [congruence|]. split; [by destruct pc | done].
Qed.

(** What firing an armed signal amounts to: the signal is marked and
    the dispatcher is called once for the stream's identifier. *)
Lemma abort_armed w :
  armed s (ids 0%nat) w →
  abort s w
    = postToIde "abort" VUndefined (Some (ids 0%nat)) 0
        (set_signals
           (<[s := {| aborted := true; on_abort := [ids 0%nat] |}]>
              (signals w)) w).
Proof.
  intros H. unfold armed in H. unfold abort, signal_of. by rewrite !H.
Qed.

Lemma abort_twice w : aborted (signal_of s w) = true → abort s w = w.
Proof. intros H. unfold abort. by rewrite H. Qed.

End Cancellation.

(** With neither a structured channel nor the alternate host, firing the
    armed signal of a started stream sends nothing and schedules nothing;
    on the alternate host whose bridge never appears, the five retries of
    the abort send nothing either. *)
Lemma abort_without_transport :
  let e := {| vscode := false; ide := None;
              postIntellijMessage := BUndefined |} in
  let w1 := started e (λ _, "X") "llmStreamChat" VNull (Some 7%nat) in
  let w2 := started failing_env (λ _, "X") "llmStreamChat" VNull
              (Some 7%nat) in
  (signals w1 !! 7%nat = Some {| aborted := false; on_abort := ["X"] |} ∧
   sent (trace (abort 7 w1)) = [] ∧
   timers (abort 7 w1) = timers w1) ∧
  (timers (abort 7 w2)
     = timers w2 ++ [RetryPost "abort" VUndefined (Some "X") 1] ∧
   sent (trace (play [Fire 2; Fire 2; Fire 2; Fire 2; Fire 2] (abort 7 w2)))
     = [] ∧
   timers (play [Fire 2; Fire 2; Fire 2; Fire 2; Fire 2] (abort 7 w2))
     = timers w2).
Proof. vm_compute. done. Qed.

(** * Further properties *)

(** ** The dispatcher under a changing environment *)

Section AtMostOnce.

Implicit Types (w v : World) (k : string) (d : Value) (id : option string).

Lemma postToIde_normal k d id n w :
  transport_fails (env w) = false →
  timers (postToIde k d id n w) = timers w ∧
  (∃ l, sent (trace (postToIde k d id n w)) = sent (trace w) ++ l ∧
        (length l ≤ 1)%nat ∧ Forall (envelope_of k d id) l) ∧
  delays (trace (postToIde k d id n w)) = delays (trace w) ∧
  failures (trace (postToIde k d id n w)) = failures (trace w).
Proof.
  unfold transport_fails, postToIde, _postToIde.
  destruct (vscode (env w)), (jetbrains (env w)),
    (postIntellijMessage (env w)), id; simpl; intros; try done;
    rewrite ?sent_app, ?delays_app, ?failures_app; simpl;
    rewrite ?app_nil_r, ?Nat.add_0_r;
    (split; [done|]); (split; [|done]);
    first [ by (exists []; rewrite app_nil_r; repeat split; auto)
          | by (eexists [_]; repeat split; auto; repeat constructor;
                simpl; congruence) ].
Qed.

Lemma take_backoff n :
  (n < 5)%nat →
  take (n + 1) backoff = take n backoff ++ [(2 ^ Z.of_nat n * 1000)%Z].
Proof. intros Hn. by destruct n as [|[|[|[|[|n]]]]]; try lia. Qed.

(** Attempt [n] of the send, made in a world [v] where no timer is
    pending. *)
Lemma attempt_sending k d id n w v :
  (n ≤ 5)%nat → timers v = [] →
  sent (trace v) = sent (trace w) →
  delays (trace v) = delays (trace w) ++ take n backoff →
  failures (trace v) = (failures (trace w) + n)%nat →
  sending k d id w (postToIde k d id n v).
Proof.
  intros Hn Ht Hs Hd Hf.
  destruct (transport_fails (env v)) eqn:He.
  - destruct (decide (n < 5)%nat) as [Hlt|Hge].
    + left. exists (n + 1)%nat. rewrite postToIde_retry by done. simpl.
      rewrite Ht, !sent_app, !delays_app, !failures_app, Hs, Hd, Hf. simpl.
      rewrite !app_nil_r, take_backoff, <- app_assoc by done.
      unfold failures. simpl. repeat split; try done; lia.
    + right. rewrite postToIde_give_up by (done || lia). simpl.
      rewrite !sent_app, !delays_app, !failures_app, Hs, Hd, Hf. simpl.
      rewrite !app_nil_r. split; [done|]. split; [|split].
      * exists []. rewrite app_nil_r. repeat split; [simpl; lia | done].
      * by exists n.
      * unfold failures. simpl. lia.
  - right. destruct (postToIde_normal k d id n v He)
      as (Ht' & (l & Hl & Hlen & Hall) & Hd' & Hf').
    split; [congruence|]. split; [|split].
    + exists l. by rewrite Hl, Hs.
    + exists n. by rewrite Hd', Hd.
    + rewrite Hf', Hf. lia.
Qed.

Lemma step_sending k d id w w' a :
  sending k d id w w' → transport_event a → sending k d id w (step w' a).
Proof.
  intros Hs Ha. destruct a as [| |i| |e]; try done; simpl.
  unfold fire.
  destruct Hs as [(n & Hn & Ht & Hs & Hd & Hf)|(Ht & Hrest)].
  - rewrite Ht. destruct i as [|i]; simpl.
    + apply attempt_sending; simpl; try done; lia.
    + left. by exists n.
  - rewrite Ht. simpl. right. by split.
Qed.

(** X1: however the environment changes between attempts, a send never
    hands over more than one envelope, and that envelope is the one asked
    for; it makes at most six failed attempts; the retry delays it sets
    are an initial part of 1, 2, 4, 8, 16 seconds; and once an envelope
    has been handed over no retry is left pending. *)
Theorem postToIde_at_most_once k d id w acts :
  timers w = [] → Forall transport_event acts →
  let w' := play acts (postToIde k d id 0 w) in
  (∃ l, sent (trace w') = sent (trace w) ++ l ∧ (length l ≤ 1)%nat ∧
        Forall (envelope_of k d id) l ∧ (l ≠ [] → timers w' = [])) ∧
  (∃ n, (n ≤ 5)%nat ∧
        delays (trace w') = delays (trace w) ++ take n backoff) ∧
  (failures (trace w') ≤ failures (trace w) + 6)%nat.
Proof.
  intros Ht Hacts w'.
  assert (Hs : sending k d id w w').
  { subst w'.
    assert (H0 : sending k d id w (postToIde k d id 0 w)).
    { apply attempt_sending; try done; try lia.
      simpl. by rewrite app_nil_r. }
    revert H0. generalize (postToIde k d id 0 w).
    induction Hacts as [|a acts Ha _ IH]; intros v Hv; [done|].
    simpl. apply IH. by apply step_sending. }
  destruct Hs as [(n & Hn & Ht' & Hs & Hd & Hf)|(Ht' & (l & Hl & Hlen & Hall) & Hd & Hf)].
  - split; [|split].
    + exists []. rewrite app_nil_r. repeat split; try done. simpl. lia.
    + exists n. split; [lia | done].
    + lia.
  - split; [|split]; try done. by exists l.
Qed.

Lemma postToIde_at_most_once_witness :
  let w := initial_world failing_env (λ _, "u") in
  let w' := play [Fire 0; SetEnv bridged_env; Fire 0; Fire 0; SetEnv plain_env;
                  Fire 0]
                 (postToIde "ping" VNull None 0 w) in
  (∃ l, sent (trace w') = sent (trace w) ++ l ∧ (length l ≤ 1)%nat ∧
        Forall (envelope_of "ping" VNull None) l ∧
        (l ≠ [] → timers w' = [])) ∧
  (∃ n, (n ≤ 5)%nat ∧
        delays (trace w') = delays (trace w) ++ take n backoff) ∧
  (failures (trace w') ≤ failures (trace w) + 6)%nat.
Proof.
  intros w w'.
  apply (postToIde_at_most_once "ping" VNull None w
           [Fire 0; SetEnv bridged_env; Fire 0; Fire 0; SetEnv plain_env;
            Fire 0] eq_refl).
  repeat constructor.
Defined.

End AtMostOnce.

(** ** Several unary calls at once *)

Section TwoCalls.

Lemma ids_postToIde k d i n w :
  uuid_next (postToIde k d (Some i) n w) = uuid_next w ∧
  uuids (postToIde k d (Some i) n w) = uuids w.
Proof.
  unfold postToIde, _postToIde.
  by destruct (vscode (env w)), (jetbrains (env w)),
    (postIntellijMessage (env w)), (n <? 5)%nat.
Qed.

Lemma unary_skip a pa event w :
  messageId event ≠ a → unary_handler a pa event w = w.
Proof.
  intros Hne. unfold unary_handler. by apply String.eqb_neq in Hne as ->.
Qed.

(** The handler of a pending call meets its reply. *)
Lemma unary_reply a pa event w :
  messageId event = a → promises w !! pa = None →
  let w' := unary_handler a pa event w in
  w' = resolve pa (data event) (removeEventListener (UnaryHandler a pa) w) ∧
  listeners w' = filter (λ l', l' ≠ UnaryHandler a pa) (listeners w) ∧
  promises w' = <[pa := data event]> (promises w) ∧
  ∀ q, resolutions q (trace w')
       = resolutions q (trace w) ++ if decide (pa = q) then [data event] else [].
Proof.
  intros He Hp w'. subst w'. unfold unary_handler.
  apply String.eqb_eq in He as ->. unfold resolve. simpl. rewrite Hp.
  repeat split. intros q. simpl. rewrite resolutions_app.
  unfold resolutions at 2. simpl. by rewrite app_nil_r.
Qed.

(** One envelope reaching two registered calls. *)
Lemma deliver_two a b pa pb event w :
  listeners w = [UnaryHandler a pa; UnaryHandler b pb] → pa ≠ pb →
  deliver event w
    = unary_handler b pb event (unary_handler a pa event w).
Proof.
  intros Hl Hne. unfold deliver. rewrite Hl. cbn [foldl].
  assert (Ha : UnaryHandler a pa ∈ listeners w)
    by (rewrite Hl; apply list_elem_of_here).
  rewrite (decide_True _ _ Ha).
  cbn [handle]. rewrite decide_True; [done|].
  unfold unary_handler. destruct (String.eqb (messageId event) a).
  - unfold resolve. case_match; simpl; rewrite Hl;
      rewrite filter_cons_False by (intros Hx; by apply Hx);
      rewrite filter_cons_True by congruence;
      apply list_elem_of_here.
  - rewrite Hl. apply list_elem_of_further, list_elem_of_here.
Qed.

Variables (e : Env) (ids : nat → string) (k1 k2 : string) (d1 d2 : Value).

Let w0 := initial_world e ids.
Let p1 := fst (ideRequest k1 d1 w0).
Let wa := snd (ideRequest k1 d1 w0).
Let p2 := fst (ideRequest k2 d2 wa).
Let wb := snd (ideRequest k2 d2 wa).

Lemma two_calls_registered :
  p1 = 0%nat ∧ p2 = 1%nat ∧
  listeners wb = [UnaryHandler (ids 0%nat) 0; UnaryHandler (ids 1%nat) 1] ∧
  promises wb = ∅ ∧ ∀ p, resolutions p (trace wb) = [].
Proof.
  unfold p1, p2, wb, wa, w0, ideRequest. simpl.
  set (v1 := addEventListener _ _).
  destruct (same_registry_postToIde k1 d1 (Some (ids 0%nat)) 0 v1)
    as [Hl Hp _ Hn Hr _ _].
  destruct (ids_postToIde k1 d1 (ids 0%nat) 0 v1) as [Hu Hi].
  set (va := postToIde k1 d1 (Some (ids 0%nat)) 0 v1) in *.
  rewrite Hu, Hi, Hn. simpl.
  set (v2 := addEventListener _ _).
  destruct (same_registry_postToIde k2 d2 (Some (ids 1%nat)) 0 v2)
    as [Hl' Hp' _ _ Hr' _ _].
  rewrite Hl', Hp'. repeat split; try done.
  - unfold v2, addEventListener. simpl. rewrite Hl. simpl.
    rewrite decide_False; [done|].
    intros [=]%list_elem_of_singleton.
  - unfold v2, addEventListener. case_decide; simpl; by rewrite Hp.
  - intros p. rewrite Hr'. unfold v2, addEventListener.
    case_decide; simpl; by rewrite Hr.
Qed.

(** X2: two unary calls whose identifiers differ do not interfere.  The
    reply to one leaves the other pending and registered, and whichever
    reply comes first, each promise ends up resolved once, with its own
    reply's payload, and no listener is left. *)
Theorem ideRequest_isolation ev1 ev2 :
  ids 0%nat ≠ ids 1%nat →
  messageId ev1 = ids 0%nat → messageId ev2 = ids 1%nat →
  (promises (deliver ev2 wb) !! p1 = None ∧
   listeners (deliver ev2 wb) = [UnaryHandler (ids 0%nat) p1] ∧
   promises (deliver ev1 wb) !! p2 = None ∧
   listeners (deliver ev1 wb) = [UnaryHandler (ids 1%nat) p2]) ∧
  (∀ w', w' = deliver ev1 (deliver ev2 wb) ∨
         w' = deliver ev2 (deliver ev1 wb) →
         promises w' !! p1 = Some (data ev1) ∧
         promises w' !! p2 = Some (data ev2) ∧
         resolutions p1 (trace w') = [data ev1] ∧
         resolutions p2 (trace w') = [data ev2] ∧
         listeners w' = []).
Proof.
  intros Hne H1 H2.
  destruct two_calls_registered as (-> & -> & Hl & Hp & Hr).
  assert (N12 : messageId ev1 ≠ ids 1%nat) by congruence.
  assert (N21 : messageId ev2 ≠ ids 0%nat) by congruence.
  assert (D2 : deliver ev2 wb = unary_handler (ids 1%nat) 1 ev2 wb).
  { rewrite (deliver_two _ _ _ _ _ _ Hl) by done.
    by rewrite (unary_skip _ 0%nat _ _ N21). }
  assert (D1 : deliver ev1 wb = unary_handler (ids 0%nat) 0 ev1 wb).
  { rewrite (deliver_two _ _ _ _ _ _ Hl) by done.
    by apply unary_skip. }
  destruct (unary_reply _ 1%nat _ wb H2 ltac:(by rewrite Hp, lookup_empty))
    as (_ & L2 & P2 & R2).
  destruct (unary_reply _ 0%nat _ wb H1 ltac:(by rewrite Hp, lookup_empty))
    as (_ & L1 & P1 & R1).
  rewrite <- D2 in L2, P2, R2. rewrite <- D1 in L1, P1, R1.
  rewrite Hl in L1, L2. rewrite Hp in P1, P2.
  rewrite filter_cons_True, filter_cons_False in L2
    by (congruence || (intros Hx; by apply Hx)).
  rewrite filter_cons_False, filter_cons_True in L1
    by (congruence || (intros Hx; by apply Hx)).
  simpl in L1, L2. split.
  - rewrite P2, P1, L2, L1.
    by rewrite !lookup_insert_ne, lookup_empty by done.
  - intros w' [-> | ->].
    + rewrite (deliver_pending _ _ _ _ L2).
      destruct (unary_reply _ 0%nat _ (deliver ev2 wb) H1)
        as (_ & L & P & R).
      { by rewrite P2, lookup_insert_ne, lookup_empty. }
      rewrite L, P, !R, !R2, !Hr, L2, P2. simpl.
      rewrite filter_cons_False by (intros Hx; by apply Hx).
      by rewrite lookup_insert_eq, lookup_insert_ne, lookup_insert_eq.
    + rewrite (deliver_pending _ _ _ _ L1).
      destruct (unary_reply _ 1%nat _ (deliver ev1 wb) H2)
        as (_ & L & P & R).
      { by rewrite P1, lookup_insert_ne, lookup_empty. }
      rewrite L, P, !R, !R1, !Hr, L1, P1. simpl.
      rewrite filter_cons_False by (intros Hx; by apply Hx).
      by rewrite lookup_insert_eq, lookup_insert_ne, lookup_insert_eq.
Qed.

(** X3: the matching rule trusts the identifiers to be unique.  Should
    [uuidv4] return the same identifier for two calls, a single reply
    resolves both of them, each with that reply's payload. *)
Theorem ideRequest_collision event :
  ids 0%nat = ids 1%nat → messageId event = ids 0%nat →
  promises (deliver event wb) !! p1 = Some (data event) ∧
  promises (deliver event wb) !! p2 = Some (data event) ∧
  listeners (deliver event wb) = [].
Proof.
  intros Heq Hid.
  destruct two_calls_registered as (-> & -> & Hl & Hp & Hr).
  rewrite (deliver_two _ _ _ _ _ _ Hl) by done.
  destruct (unary_reply _ 0%nat _ wb Hid ltac:(by rewrite Hp, lookup_empty))
    as (_ & L1 & P1 & R1).
  set (v := unary_handler (ids 0%nat) 0 event wb) in *.
  destruct (unary_reply (ids 1%nat) 1%nat event v) as (_ & L & P & R).
  { congruence. }
  { by rewrite P1, Hp, lookup_insert_ne, lookup_empty. }
  rewrite L, P, L1, P1, Hl, Hp.
  rewrite filter_cons_False by (intros Hx; by apply Hx).
  rewrite filter_cons_True by congruence.
  rewrite filter_cons_False by (intros Hx; by apply Hx).
  by rewrite lookup_insert_eq, lookup_insert_ne, lookup_insert_eq.
Qed.

End TwoCalls.

Lemma ideRequest_isolation_witness :
  let w0 := initial_world plain_env
              (λ n, match n with O => "A" | _ => "B" end) in
  let wa := snd (ideRequest "echo" VNull w0) in
  let wb := snd (ideRequest "ping" VNull wa) in
  let reply i v := {| messageId := i; messageType := "r"; data := v |} in
  promises (deliver (reply "A" (VStr "a")) (deliver (reply "B" (VStr "b")) wb))
    !! fst (ideRequest "echo" VNull w0) = Some (VStr "a").
Proof.
  intros w0 wa wb reply.
  refine (proj1 (proj2 (ideRequest_isolation plain_env
                          (λ n, match n with O => "A" | _ => "B" end)
                          "echo" "ping" VNull VNull
                          (reply "A" (VStr "a")) (reply "B" (VStr "b"))
                          _ eq_refl eq_refl) _ (or_introl eq_refl))).
  discriminate.
Defined.

Lemma ideRequest_collision_witness :
  let w0 := initial_world plain_env (λ _, "A") in
  let wa := snd (ideRequest "echo" VNull w0) in
  let wb := snd (ideRequest "ping" VNull wa) in
  let event := {| messageId := "A"; messageType := "r"; data := VStr "a" |} in
  promises (deliver event wb) !! fst (ideRequest "echo" VNull w0)
    = Some (VStr "a") ∧
  promises (deliver event wb) !! fst (ideRequest "ping" VNull wa)
    = Some (VStr "a") ∧
  listeners (deliver event wb) = [].
Proof.
  intros w0 wa wb event.
  exact (ideRequest_collision plain_env (λ _, "A") "echo" "ping" VNull VNull
           event eq_refl eq_refl).
Defined.


(** ** A unary call whose request never leaves *)

Section Unsent.

Implicit Types (w : World) (k : string) (d : Value) (id : option string).

(** With one retry pending and the bridge still missing, the remaining
    retries all fail, send nothing, and leave no timer. *)
Lemma retries_exhausted k d id m : ∀ n w,
  (n + m = 6)%nat → (1 ≤ n ≤ 5)%nat →
  transport_fails (env w) = true → timers w = [RetryPost k d id n] →
  let w' := play (replicate m (Fire 0)) w in
  timers w' = [] ∧ sent (trace w') = sent (trace w) ∧
  same_registry w w' ∧ signals w' = signals w.
Proof.
  induction m as [|m IH]; intros n w Hn H1 He Ht; [lia|].
  set (v := set_timers [] w).
  assert (F : fire 0 w = postToIde k d id n v)
    by (unfold fire; by rewrite Ht).
  simpl. rewrite F. clear F.
  destruct (decide (n < 5)%nat) as [Hlt|Hge].
  - rewrite (postToIde_retry k d id n v He Hlt).
    match goal with |- context [play _ ?u] => set (w1 := u) end.
    destruct (IH (n + 1)%nat w1) as (T & Hs & R & G);
      [lia | lia | done | done |].
    split; [done|]. split; [|split].
    + rewrite Hs. simpl. rewrite !sent_app. simpl. by rewrite !app_nil_r.
    + eapply same_registry_trans; [|exact R].
      by split; intros; simpl;
        rewrite ?resolutions_app, ?yields_app, ?returns_app, ?app_nil_r.
    + by rewrite G.
  - assert (m = 0%nat) as -> by lia.
    rewrite (postToIde_give_up k d id n v He) by lia. simpl.
    repeat split; try done; intros; simpl;
      by rewrite ?sent_app, ?resolutions_app, ?yields_app, ?returns_app,
                 ?app_nil_r.
Qed.

Lemma step_idle i p a w :
  pending i p w → idle w → not_reply i a → idle (step w a).
Proof.
  intros Hp [Ht Hs] Ha. destruct a as [event| g | j | s | e']; simpl.
  - by rewrite (deliver_pending_other i p event w (pd_listeners _ _ _ Hp) Ha).
  - unfold next. by rewrite (pd_generators _ _ _ Hp), lookup_empty.
  - unfold fire. by rewrite Ht.
  - unfold abort. case_match; [done|].
    rewrite (no_abort_listeners_signal_of s w (pd_signals _ _ _ Hp)).
    by simpl.
  - done.
Qed.

(** X4: a unary call is never rejected.  When the bridge of the alternate
    host stays undefined, the request is dropped after the sixth attempt:
    nothing has been sent and no timer is left.  From then on, whatever
    happens short of an envelope bearing the call's identifier, nothing
    is ever sent, the promise stays unsettled and its listener stays
    registered. *)
Theorem ideRequest_unsent_stays_pending e ids k d post :
  let w0 := initial_world e ids in
  let p := fst (ideRequest k d w0) in
  let w1 := play (replicate 5 (Fire 0)) (snd (ideRequest k d w0)) in
  let w2 := play post w1 in
  transport_fails e = true → Forall (not_reply (ids 0%nat)) post →
  (sent (trace w1) = [] ∧ timers w1 = []) ∧
  sent (trace w2) = [] ∧ timers w2 = [] ∧
  promises w2 !! p = None ∧ resolutions p (trace w2) = [] ∧
  listeners w2 = [UnaryHandler (ids 0%nat) p].
Proof.
  intros w0 p w1 w2 He Hpost.
  pose proof (ideRequest_pending e ids k d) as Hp0. simpl in Hp0.
  fold w0 p in Hp0.
  assert (H1 : pending (ids 0%nat) p w1 ∧ idle w1).
  { set (v := addEventListener (UnaryHandler (ids 0%nat) 0)
                (set_next_ref 1 (set_uuid_next 1 w0))).
    assert (He' : transport_fails (env v) = true) by exact He.
    change (snd (ideRequest k d w0))
      with (postToIde k d (Some (ids 0%nat)) 0 v) in *.
    destruct (retry_step k d (Some (ids 0%nat)) 0 v He' ltac:(lia))
      as (_ & Ht & Hev).
    subst w1.
    match goal with |- context [play _ ?u] => set (x := u) in * end.
    destruct (retries_exhausted k d (Some (ids 0%nat)) 5 1 x)
      as (T & Hs & R & G);
      [lia | lia | by rewrite Hev | exact Ht |].
    assert (Hx : sent (trace x) = []).
    { unfold x. by rewrite (postToIde_retry k d _ 0 v He') by lia. }
    rewrite Hx in Hs.
    split; [|by split].
    apply (pending_same_registry _ _ _ _ Hp0 R).
    intros s sg. rewrite G. apply (pd_signals _ _ _ Hp0). }
  assert (H2 : pending (ids 0%nat) p w2 ∧ idle w2).
  { subst w2. clear Hp0. revert H1. generalize w1.
    induction Hpost as [|a post Ha _ IH]; intros w [Hp Hi]; [done|].
    simpl. apply IH. split; [by apply step_pending|].
    by apply (step_idle (ids 0%nat) p). }
  destruct H1 as [_ [T1 S1]], H2 as [[L _ _ P R] [T2 S2]].
  by repeat split.
Qed.

Lemma ideRequest_unsent_stays_pending_witness :
  let w0 := initial_world failing_env (λ _, "X") in
  let w2 := play [SetEnv plain_env; Fire 0;
                  Deliver {| messageId := "Y"; messageType := "r";
                             data := VNull |}]
              (play (replicate 5 (Fire 0)) (snd (ideRequest "ping" VNull w0))) in
  sent (trace w2) = [] ∧
  promises w2 !! fst (ideRequest "ping" VNull w0) = None.
Proof.
  intros w0 w2.
  pose proof (ideRequest_unsent_stays_pending failing_env (λ _, "X") "ping"
                VNull
                [SetEnv plain_env; Fire 0;
                 Deliver {| messageId := "Y"; messageType := "r";
                            data := VNull |}]
                eq_refl) as H.
  simpl in H. destruct H as (_ & S & _ & P & _).
  - repeat constructor. simpl. discriminate.
  - split; [exact S | exact P].
Defined.

End Unsent.


(** ** More on what the consumer of a stream observes *)

Section Pulls.

Variables (g : nat) (id : string).

Lemma join_empty l : join l = "" → Forall (λ t, t = "") l.
Proof.
  induction l as [|a l IH]; intros H; [done|].
  simpl in H. destruct a; [|done]. constructor; [done|]. by apply IH.
Qed.

Lemma open_frame st w f pc r :
  stream_inv g id st w → st.2 = None →
  generators w = {[g := Started f pc r]} →
  done f = false ∧ (index f ≤ String.length (buffer f))%nat ∧
  (pc = AtLoopYield ∨ pc = AtSleep) ∧
  (pc = AtSleep → ResolveSleep g ∈ timers w).
Proof.
  intros (f' & pc' & r' & Hg & Hc & _ & Hcomp & Hsl) Hst Hg'.
  rewrite Hg in Hg'. apply (inj (singletonM g)) in Hg' as [= -> -> ->].
  destruct Hc. rewrite Hst in co_done0.
  repeat split; try done.
  destruct pc; auto; destruct Hcomp; auto; congruence.
Qed.

(** A pull of a generator that has caught up leaves it so. *)
Lemma pull_caught_up st w :
  stream_inv g id st w → st.2 = None →
  caught_up g w → caught_up g (step w (pull g w)).
Proof.
  intros Hinv Hst (f & pc & r & Hg & Hi).
  destruct (open_frame _ _ _ _ _ Hinv Hst Hg) as (Hd & _ & Hpc & Hsl).
  unfold pull. rewrite Hg, lookup_singleton_eq.
  destruct Hpc as [-> | ->].
  - simpl. unfold next. rewrite Hg, lookup_singleton_eq.
    exists f, AtSleep, (S r). split; [simpl; rewrite Hg; apply insert_singleton_eq | done].
  - destruct (sleep_timer_found g _ (Hsl eq_refl)) as (i & -> & Hti).
    simpl. unfold fire. rewrite Hti. simpl. unfold wake. simpl.
    rewrite Hg, lookup_singleton_eq. unfold loop. rewrite Hd, Hi.
    rewrite Nat.ltb_irrefl.
    exists f, AtSleep, r. split; [simpl; rewrite Hg; apply insert_singleton_eq | done].
Qed.

(** The sleep elapses: whatever has arrived is handed over. *)
Lemma pull_catches_up st w :
  stream_inv g id st w → st.2 = None → pc_of g w = Some AtSleep →
  caught_up g (step w (pull g w)).
Proof.
  intros Hinv Hst Hpc.
  pose proof Hinv as (f & pc & r & Hg & _).
  unfold pc_of in Hpc. rewrite Hg, lookup_singleton_eq in Hpc.
  injection Hpc as ->.
  destruct (open_frame _ _ _ _ _ Hinv Hst Hg) as (Hd & Hle & _ & Hsl).
  unfold pull. rewrite Hg, lookup_singleton_eq.
  destruct (sleep_timer_found g _ (Hsl eq_refl)) as (i & -> & Hti).
  simpl. unfold fire. rewrite Hti. simpl. unfold wake. simpl.
  rewrite Hg, lookup_singleton_eq. unfold loop. rewrite Hd.
  destruct (index f <? String.length (buffer f))%nat eqn:Hlt.
  - destruct (r <=? 1)%nat.
    + eexists _, AtLoopYield, 0%nat. split; [simpl; rewrite Hg; apply insert_singleton_eq | done].
    + eexists _, AtSleep, _. split; [simpl; rewrite Hg; apply insert_singleton_eq | done].
  - apply Nat.ltb_ge in Hlt.
    exists f, AtSleep, r. split; [simpl; rewrite Hg; apply insert_singleton_eq | lia].
Qed.

Lemma pull_to_sleep st w :
  stream_inv g id st w → st.2 = None → pc_of g w = Some AtLoopYield →
  pc_of g (step w (pull g w)) = Some AtSleep.
Proof.
  intros (f & pc & r & Hg & _) _ Hpc.
  unfold pc_of in Hpc. rewrite Hg, lookup_singleton_eq in Hpc.
  injection Hpc as ->.
  unfold pull. rewrite Hg, lookup_singleton_eq. simpl.
  unfold next, pc_of. rewrite Hg, lookup_singleton_eq. simpl.
  by rewrite lookup_insert_eq.
Qed.

Lemma drain_caught_up st n w :
  stream_inv g id st w → st.2 = None →
  caught_up g w → caught_up g (drain n g w).
Proof.
  revert w. induction n as [|n IH]; intros w Hinv Hst Hc; [done|].
  simpl. apply IH; [by apply pull_stream_inv | done |].
  by apply (pull_caught_up st).
Qed.

(** Two pulls are enough for an open stream to catch up. *)
Lemma drain_catches_up st n w :
  stream_inv g id st w → st.2 = None → (2 ≤ n)%nat →
  caught_up g (drain n g w).
Proof.
  intros Hinv Hst Hn.
  destruct n as [|[|n]]; [lia | lia |].
  pose proof Hinv as (f & pc & r & Hg & _).
  destruct (open_frame _ _ _ _ _ Hinv Hst Hg) as (_ & _ & Hpc & _).
  assert (Hpc' : pc_of g w = Some pc)
    by (unfold pc_of; by rewrite Hg, lookup_singleton_eq).
  pose proof (pull_stream_inv g id st w Hinv) as Hinv1.
  pose proof (pull_stream_inv g id st _ Hinv1) as Hinv2.
  cbn [drain]. apply (drain_caught_up st); [done | done |].
  destruct Hpc as [-> | ->].
  - apply (pull_catches_up st); [done | done |].
    by apply (pull_to_sleep st).
  - apply (pull_caught_up st); [done | done |].
    by apply (pull_catches_up st).
Qed.

(** What the consumer of a generator that has caught up has seen. *)
Lemma caught_up_result st w :
  stream_inv g id st w → caught_up g w →
  join (yields g (trace w)) = join st.1.
Proof.
  intros (f & pc & r & Hg & Hc & _) (f' & pc' & r' & Hg' & Hi).
  rewrite Hg in Hg'. apply (inj (singletonM g)) in Hg' as [= <- <- <-].
  destruct Hc. rewrite Hi, slice_all, sapp_nil_r in co_yields0. congruence.
Qed.

(** The handler meets a payload it cannot read. *)
Lemma deliver_malformed st event w :
  stream_inv g id st w → messageId event = id →
  well_formed (data event) = false →
  deliver event w
    = match st.2 with Some _ => w | None => emit (Uncaught g) w end.
Proof.
  intros (f & pc & r & Hg & Hc & _) Hid Hwf.
  destruct Hc. destruct st as [b [v|]]; simpl in *.
  - rewrite co_done0 in co_listeners0. by apply deliver_no_listener.
  - rewrite co_done0 in co_listeners0.
    unfold deliver. rewrite co_listeners0. simpl. rewrite co_listeners0.
    rewrite decide_True by (by apply list_elem_of_singleton).
    unfold stream_handler. rewrite Hg, lookup_singleton_eq, co_id0, Hid.
    rewrite String.eqb_refl. unfold well_formed in Hwf.
    by destruct (get (data event) "done").
Qed.

Lemma absorb_malformed st payload :
  well_formed payload = false → absorb st payload = st.
Proof.
  unfold well_formed, absorb, is_completion, is_fragment.
  destruct (get payload "done"); [done|]. by destruct (st.2).
Qed.

Lemma absorb_well_formed st payloads :
  foldl absorb st payloads
    = foldl absorb st (filter (λ p, well_formed p = true) payloads).
Proof.
  revert st. induction payloads as [|p ps IH]; intros st; [done|].
  destruct (well_formed p) eqn:Hp.
  - rewrite filter_cons_True by done. simpl. apply IH.
  - rewrite filter_cons_False by (by rewrite Hp). simpl.
    rewrite absorb_malformed by done. apply IH.
Qed.

Lemma absorb_all_open b payloads :
  Forall (λ p, is_completion p = false) payloads →
  (foldl absorb (b, None) payloads).2 = None.
Proof.
  intros H. revert b. induction H as [|p ps Hp _ IH]; intros b; [done|].
  cbn [foldl]. pose proof (absorb_open b p Hp) as Ho.
  destruct (absorb (b, None) p) as [b' o]. simpl in Ho. subst o. apply IH.
Qed.

Lemma absorb_some_completion st payloads :
  Exists (λ p, is_completion p = true) payloads →
  ∃ v, (foldl absorb st payloads).2 = Some v.
Proof.
  intros H. revert st. induction H as [p ps Hp | p ps _ IH]; intros st.
  - cbn [foldl]. destruct st as [b [v|]].
    + rewrite absorb_closed, absorb_rest. by exists v.
    + rewrite absorb_completion, absorb_rest by done. by exists p.
  - cbn [foldl]. apply IH.
Qed.

Lemma absorb_closing frags tail :
  Forall (λ p, is_fragment p = true) frags → closing tail →
  (foldl absorb ([], None) (frags ++ tail)).1 = map fragment_content frags.
Proof.
  intros Hf Ht. rewrite foldl_app, absorb_fragments by done. simpl.
  destruct tail as [|c rest]; [done|]. simpl in Ht. cbn [foldl].
  by rewrite absorb_completion, absorb_rest.
Qed.

End Pulls.

Section StreamExtras.

Variables (e : Env) (ids : nat → string).
Variables (k : string) (d : Value) (tok : option nat).

Let g := fst (ideStreamRequest k d tok (initial_world e ids)).

Local Abbreviation started := (started e ids k d tok).

Lemma running acts n :
  stream_inv g (ids 0%nat)
    (foldl absorb ([], None) (replies (ids 0%nat) acts))
    (drain n g (play acts started)).
Proof.
  apply drain_stream_inv, play_stream_inv, started_stream_inv.
Qed.

(** X5: at every point of every run, complete or not, the chunks handed
    to the consumer are runs of consecutive fragments: each chunk is the
    concatenation of the [content] fields of some fragments that arrived
    one after the other, no fragment is split between two chunks, none is
    skipped or repeated, and so the text seen so far is an initial part
    of the text received. *)
Theorem ideStreamRequest_chunks_are_runs acts frags tail n :
  let w := drain n g (play acts started) in
  let texts := map fragment_content frags in
  replies (ids 0%nat) acts = frags ++ tail →
  Forall (λ p, is_fragment p = true) frags → closing tail →
  ∃ (groups : list (list string)) (m : nat),
    yields g (trace w) = map join groups ∧
    concat groups = take m texts ∧
    join texts = join (yields g (trace w)) +:+ join (drop m texts).
Proof.
  intros w texts Hrep Hf Ht.
  pose proof (running acts n) as (f & pc & r & _ & Hc & _).
  destruct Hc as [_ _ _ _ _ _ _ _ (m & (_ & groups & Hy & Hcat) & _)].
  rewrite Hrep, (absorb_closing _ _ Hf Ht) in Hcat.
  exists groups, m. fold w in Hy. fold texts in Hcat.
  split; [done|]. split; [done|].
  rewrite Hy, join_concat, Hcat, <- join_app. by rewrite take_drop.
Qed.

(** X6: a stream is live before its completion.  While only fragments
    have arrived, a consumer that pulls twice has received all of their
    text; the generator has not returned and goes on listening. *)
Theorem ideStreamRequest_catches_up acts frags n :
  let w := drain n g (play acts started) in
  replies (ids 0%nat) acts = frags →
  Forall (λ p, is_fragment p = true) frags → (2 ≤ n)%nat →
  join (yields g (trace w)) = join (map fragment_content frags) ∧
  returns g (trace w) = [] ∧
  listeners w = [StreamHandler g].
Proof.
  intros w Hrep Hf Hn.
  pose proof (play_stream_inv g (ids 0%nat) _ acts _
                (started_stream_inv e ids k d tok)) as Hinv.
  pose proof (running acts n) as Hinv'. fold w in Hinv'.
  rewrite Hrep, absorb_fragments in Hinv, Hinv' by done.
  simpl in Hinv, Hinv'.
  split.
  - rewrite (caught_up_result g (ids 0%nat) _ w Hinv'); [done|].
    by apply (drain_catches_up g (ids 0%nat) _ n _ Hinv).
  - by destruct (open_stream e ids k d 0 _ w Hinv' eq_refl) as (_ & ? & ?).
Qed.

(** X7: an envelope that bears the stream's identifier but whose payload
    is undefined or null makes the handler throw inside the listener and
    changes nothing else; once the completion envelope has come it is not
    even looked at.  The consumer's result is that of the readable
    payloads alone: their fragments concatenated, and the completion
    payload returned. *)
Theorem ideStreamRequest_skips_malformed acts event :
  messageId event = ids 0%nat → well_formed (data event) = false →
  let w1 := play acts started in
  (Forall (λ p, is_completion p = false) (replies (ids 0%nat) acts) →
   deliver event w1 = emit (Uncaught g) w1) ∧
  (Exists (λ p, is_completion p = true) (replies (ids 0%nat) acts) →
   deliver event w1 = w1) ∧
  ∀ frags completion rest n,
    filter (λ p, well_formed p = true) (replies (ids 0%nat) acts)
      = frags ++ completion :: rest →
    Forall (λ p, is_fragment p = true) frags →
    is_completion completion = true → (3 ≤ n)%nat →
    join (yields g (trace (drain n g w1)))
      = join (map fragment_content frags) ∧
    returns g (trace (drain n g w1)) = [completion].
Proof.
  intros Hid Hwf w1. subst w1.
  pose proof (play_stream_inv g (ids 0%nat) _ acts _
                (started_stream_inv e ids k d tok)) as Hinv.
  rewrite (deliver_malformed g (ids 0%nat) _ event _ Hinv Hid Hwf).
  split; [|split].
  - intros Hopen. by rewrite (absorb_all_open _ _ Hopen).
  - intros Hc. by destruct (absorb_some_completion ([], None) _ Hc) as [v ->].
  - intros frags completion rest n Hrep Hf Hc Hn.
    destruct (drained e ids k d tok acts n (map fragment_content frags)
                completion) as (Hy & _ & Hr); [|done|by split].
    by rewrite absorb_well_formed, Hrep, absorb_stream.
Qed.

End StreamExtras.

Lemma ideStreamRequest_chunks_are_runs_witness :
  let envelope p :=
    Deliver {| messageId := "X"; messageType := "llmStreamChat";
               data := p |} in
  let acts := [envelope (fragment "a"); envelope (fragment "b"); Fire 0;
               Next 0; envelope (fragment "c")] in
  let w := play acts (started plain_env (λ _, "X") "llmStreamChat" VNull
                        None) in
  ∃ (groups : list (list string)) (m : nat),
    yields 0 (trace w) = map join groups ∧
    concat groups = take m ["a"; "b"; "c"] ∧
    "abc" = join (yields 0 (trace w)) +:+ join (drop m ["a"; "b"; "c"]).
Proof.
  intros envelope acts w.
  exact (ideStreamRequest_chunks_are_runs plain_env (λ _, "X")
           "llmStreamChat" VNull None acts
           [fragment "a"; fragment "b"; fragment "c"] [] 0
           eq_refl ltac:(by repeat constructor) I).
Defined.

Lemma ideStreamRequest_catches_up_witness :
  let envelope p :=
    Deliver {| messageId := "X"; messageType := "llmStreamChat";
               data := p |} in
  let acts := [envelope (fragment "he"); Fire 0; envelope (fragment "llo")] in
  let w := drain 2 0 (play acts (started plain_env (λ _, "X")
                                   "llmStreamChat" VNull None)) in
  join (yields 0 (trace w)) = "hello" ∧ returns 0 (trace w) = [] ∧
  listeners w = [StreamHandler 0].
Proof.
  intros envelope acts w.
  exact (ideStreamRequest_catches_up plain_env (λ _, "X") "llmStreamChat"
           VNull None acts [fragment "he"; fragment "llo"] 2
           eq_refl ltac:(by repeat constructor) ltac:(lia)).
Defined.

Lemma ideStreamRequest_skips_malformed_witness :
  let envelope p :=
    {| messageId := "X"; messageType := "llmStreamChat"; data := p |} in
  let acts := [Deliver (envelope (fragment "a")); Deliver (envelope VNull);
               Deliver (envelope done_payload)] in
  let w1 := play acts (started plain_env (λ _, "X") "llmStreamChat" VNull
                         None) in
  deliver (envelope VUndefined) w1 = w1 ∧
  join (yields 0 (trace (drain 3 0 w1))) = "a" ∧
  returns 0 (trace (drain 3 0 w1)) = [done_payload].
Proof.
  intros envelope acts w1.
  pose proof (ideStreamRequest_skips_malformed plain_env (λ _, "X")
                "llmStreamChat" VNull None acts (envelope VUndefined)
                eq_refl eq_refl) as (_ & H2 & H3).
  split.
  - apply H2. apply Exists_cons_tl, Exists_cons_tl, Exists_cons_hd.
    reflexivity.
  - apply (H3 [fragment "a"] done_payload [] 3%nat);
      [reflexivity | by repeat constructor | reflexivity | lia].
Defined.


(** ** Cancelling a stream that is over *)

Section LateAbort.

Variables (e : Env) (ids : nat → string).
Variables (k : string) (d : Value) (s : nat).

Let g := fst (ideStreamRequest k d (Some s) (initial_world e ids)).

(** X8: the "abort" listener of a stream is never removed.  At any time
    after its start, in particular once the completion envelope has come
    and the generator has returned, the first firing of the signal sends
    one "abort" envelope bearing the stream's identifier when a send
    primitive is reachable; the generator and what it has yielded and
    returned are left as they are. *)
Theorem abort_after_return acts :
  let w2 := play acts (started e ids k d (Some s)) in
  Forall (λ a, a ≠ Abort s) acts →
  transport_available (env w2) = true →
  sent (trace (abort s w2))
    = sent (trace w2) ++ [{| messageId := ids 0%nat; messageType := "abort";
                             data := VUndefined |}] ∧
  timers (abort s w2) = timers w2 ∧
  generators (abort s w2) = generators w2 ∧
  yields g (trace (abort s w2)) = yields g (trace w2) ∧
  returns g (trace (abort s w2)) = returns g (trace w2).
Proof.
  intros w2 Hacts Hav.
  assert (Harm : armed s (ids 0%nat) w2).
  { eapply play_armed; [apply started_stream_inv | apply started_armed |].
    exact Hacts. }
  destruct (same_registry_abort s w2) as [_ _ Hg _ _ Hy Hr].
  rewrite (abort_armed ids s w2 Harm) in *.
  unfold transport_available, alternate_host_ready in Hav.
  split; [|split; [|split; [done|by split]]].
  - unfold postToIde, _postToIde. simpl.
    destruct (vscode (env w2)), (jetbrains (env w2)),
      (postIntellijMessage (env w2)); simpl in *; try done;
      by rewrite sent_app.
  - unfold postToIde, _postToIde. simpl.
    by destruct (vscode (env w2)), (jetbrains (env w2)),
      (postIntellijMessage (env w2)).
Qed.

End LateAbort.

Lemma abort_after_return_witness :
  let envelope p :=
    Deliver {| messageId := "X"; messageType := "llmStreamChat";
               data := p |} in
  let acts := [envelope (fragment "a"); envelope done_payload;
               Fire 0; Next 0; Next 0] in
  let w2 := play acts (started plain_env (λ _, "X") "llmStreamChat" VNull
                         (Some 7%nat)) in
  returns 0 (trace w2) = [done_payload] ∧
  sent (trace (abort 7 w2))
    = sent (trace w2) ++ [{| messageId := "X"; messageType := "abort";
                             data := VUndefined |}].
Proof.
  intros envelope acts w2. split; [reflexivity|].
  refine (proj1 (abort_after_return plain_env (λ _, "X") "llmStreamChat"
                   VNull 7%nat acts _ eq_refl)).
  by repeat constructor.
Defined.


(** ** Cancelling a stream that has not started *)

Section EarlyAbort.

Lemma quiet_refl g w : quiet g w w.
Proof. split; [done | done |]. exists []. by rewrite app_nil_r. Qed.

Lemma quiet_loop g f r w : quiet g w (loop g f r w).
Proof.
  unfold loop, after_loop, sleep, finish, park, setTimeout, emit.
  repeat case_match; split; simpl;
    rewrite ?sent_app, ?app_nil_r; simpl; rewrite ?app_nil_r; try done;
    first [ by (exists []; rewrite app_nil_r)
          | by (eexists [_]; split; [done | by constructor]) ].
Qed.

Lemma quiet_wake g w : quiet g w (wake g w).
Proof.
  unfold wake. repeat case_match; try apply quiet_refl. apply quiet_loop.
Qed.

Lemma quiet_next g f pc r w :
  generators w !! g = Some (Started f pc r) → quiet g w (next g w).
Proof.
  intros Hg. unfold next. rewrite Hg.
  unfold sleep, finish, park, setTimeout, emit.
  destruct pc; split; simpl;
    rewrite ?sent_app, ?app_nil_r; simpl; rewrite ?app_nil_r; try done;
    first [ by (exists []; rewrite app_nil_r)
          | by (eexists [_]; split; [done | by constructor]) ].
Qed.

Lemma handle_sends_nothing l event w :
  sent (trace (handle l event w)) = sent (trace w) ∧
  signals (handle l event w) = signals w ∧
  timers (handle l event w) = timers w.
Proof.
  destruct l as [i p|g]; simpl.
  - unfold unary_handler, resolve, removeEventListener, emit.
    repeat case_match; simpl; rewrite ?sent_app, ?app_nil_r; done.
  - unfold stream_handler, park, removeEventListener, emit.
    repeat case_match; simpl; rewrite ?sent_app, ?app_nil_r; done.
Qed.

Lemma deliver_sends_nothing event w :
  sent (trace (deliver event w)) = sent (trace w) ∧
  signals (deliver event w) = signals w ∧
  timers (deliver event w) = timers w.
Proof.
  unfold deliver. generalize (listeners w). intros ls.
  revert w. induction ls as [|l ls IH]; intros w; [done|].
  simpl. destruct (IH (if decide (l ∈ listeners w) then handle l event w
                       else w)) as (-> & -> & ->).
  case_decide; [apply handle_sends_nothing | done].
Qed.

(** Whatever the dispatcher hands over is the envelope it was asked to
    send, and the only timer it sets is its own retry. *)
Lemma postToIde_sends k d id n w :
  ∃ l ts,
    sent (trace (postToIde k d id n w)) = sent (trace w) ++ l ∧
    Forall (envelope_of k d id) l ∧
    timers (postToIde k d id n w) = timers w ++ ts ∧
    Forall (λ cb, ∃ m, cb = RetryPost k d id m) ts.
Proof.
  unfold postToIde, _postToIde, setTimeout, emit, envelope_of.
  destruct (vscode (env w)), (jetbrains (env w)),
    (postIntellijMessage (env w)), id, (n <? 5)%nat; simpl;
    rewrite ?sent_app; simpl; rewrite ?app_nil_r;
    first [ by (exists [], []; rewrite ?app_nil_r)
          | by (eexists [], [_]; rewrite ?app_nil_r;
                  repeat split; try done; repeat constructor; by eexists)
          | by (eexists [_], []; rewrite ?app_nil_r;
                  repeat split; try done; repeat constructor;
                  simpl; congruence) ].
Qed.

Lemma aborted_abort s s' w :
  aborted (signal_of s w) = true ∨ s' = s →
  aborted (signal_of s (abort s' w)) = true.
Proof.
  intros H. unfold signal_of at 1. rewrite signals_abort.
  destruct (aborted (signal_of s' w)) eqn:Ha.
  - destruct H as [H | ->]; [exact H | exact Ha].
  - destruct (decide (s' = s)) as [->|Hne].
    + by rewrite lookup_insert_eq.
    + rewrite lookup_insert_ne by done. by destruct H.
Qed.

(** Firing a signal nobody listens to only marks it. *)
Lemma abort_unheard_signal s w :
  aborted (signal_of s w) = true ∨ on_abort (signal_of s w) = [] →
  trace (abort s w) = trace w ∧ timers (abort s w) = timers w ∧
  listeners (abort s w) = listeners w ∧
  generators (abort s w) = generators w ∧
  uuids (abort s w) = uuids w ∧ uuid_next (abort s w) = uuid_next w.
Proof.
  intros H. unfold abort. destruct (aborted (signal_of s w)); [done|].
  destruct H as [H | H]; [done | by rewrite H].
Qed.

Section Unstarted.

Variables (k : string) (d : Value) (tok : option nat) (g : nat) (id : string).

Lemma step_created a w :
  created k d tok g id w → not_next a → created k d tok g id (step w a).
Proof.
  intros [Hg Hl Ht Htr Hs Hu] Ha.
  destruct a as [event|g'|i|s'|e']; simpl; try done.
  - by rewrite deliver_no_listener.
  - unfold fire. by rewrite Ht.
  - destruct (abort_unheard_signal s' w) as (? & ? & ? & ? & ? & ?).
    { right. by apply no_abort_listeners_signal_of. }
    split; try congruence. by apply no_abort_listeners_abort.
Qed.

Lemma play_created acts w :
  created k d tok g id w → Forall not_next acts →
  created k d tok g id (play acts w).
Proof.
  intros Hc Hacts. revert w Hc.
  induction Hacts as [|a acts Ha _ IH]; intros w Hc; [done|].
  simpl. by apply IH, step_created.
Qed.

Lemma play_aborted s acts w :
  created k d tok g id w → Forall not_next acts →
  aborted (signal_of s w) = true ∨ Abort s ∈ acts →
  aborted (signal_of s (play acts w)) = true.
Proof.
  intros Hc Hacts. revert w Hc.
  induction Hacts as [|a acts Ha _ IH]; intros w Hc H.
  - destruct H as [H|H]; [done | by apply elem_of_nil in H].
  - simpl. apply IH; [by apply step_created|].
    destruct H as [H|[<-|H]%elem_of_cons]; [| |by right]; left.
    + destruct a as [event|g'|i|s'|e']; simpl; try done.
      * unfold signal_of. by rewrite (proj1 (proj2 (deliver_sends_nothing _ _))).
      * unfold fire. by rewrite (cr_timers _ _ _ _ _ _ Hc).
      * apply aborted_abort. by left.
    + simpl. apply aborted_abort. by right.
Qed.

End Unstarted.

Section Started.

Variables (k : string) (d : Value) (g s : nat) (id : string).

(** The first [next()] of a generator created with a signal that has
    fired already. *)
Lemma next_created w :
  created k d (Some s) g id w → aborted (signal_of s w) = true →
  stream_inv g id ([], None) (next g w) ∧ unheard k d id g s (next g w).
Proof.
  intros [Hg Hl Ht Htr Hs Hu] Ha.
  unfold next. rewrite Hg, lookup_singleton_eq. unfold start, uuidv4.
  rewrite Hu.
  set (w1 := set_uuid_next _ w).
  set (wp := postToIde k d (Some id) 0 w1).
  destruct (same_registry_postToIde k d (Some id) 0 w1)
    as [Hl' Hp' Hg' Hn' Hres' Hy' Hr'].
  fold wp in Hl', Hp', Hg', Hn', Hres', Hy', Hr'.
  pose proof (signals_postToIde k d (Some id) 0 w1) as Hsg. fold wp in Hsg.
  destruct (postToIde_sends k d (Some id) 0 w1) as (l & ts & Hst & Hl0 & Htm & Hts).
  fold wp in Hst, Htm. simpl in Hst, Htm. rewrite Htr in Hst. rewrite Ht in Htm.
  simpl in Hst, Htm.
  assert (Hadd : addEventListener (StreamHandler g) wp
                 = set_listeners [StreamHandler g] wp).
  { unfold addEventListener. rewrite Hl'. simpl. rewrite Hl.
    by rewrite decide_False by apply not_elem_of_nil. }
  rewrite Hadd.
  set (w4 := add_abort_listener s id _).
  set (f := {| f_messageId := id; buffer := ""; index := 0; done := false;
               returnVal := VUndefined |}).
  assert (Hyw : yields g (trace wp) = [])
    by (rewrite Hy'; unfold w1; simpl; by rewrite Htr).
  assert (Hrw : returns g (trace wp) = [])
    by (rewrite Hr'; unfold w1; simpl; by rewrite Htr).
  split.
  - eapply loop_inv with (c0 := Unstarted k d (Some s)).
    + simpl. by rewrite Hg'.
    + split; simpl; rewrite ?Hyw; try done.
      exists 0%nat. split; [|done]. split; [done|]. by exists [].
    + done.
  - destruct (quiet_loop g f 1 w4) as [Qs Qg (ts' & Qt & Qts)].
    assert (Hso : signal_of s (set_listeners [StreamHandler g] wp)
                  = signal_of s w)
      by (unfold signal_of; simpl; by rewrite Hsg).
    assert (Hsig : signals (loop g f 1 w4)
                   = <[s := {| aborted := true;
                               on_abort := on_abort (signal_of s w) ++ [id] |}]>
                       (signals w)).
    { rewrite Qg. unfold w4, add_abort_listener. simpl.
      by rewrite Hso, Ha, Hsg. }
    split.
    + unfold signal_of. by rewrite Hsig, lookup_insert_eq.
    + intros s' sg. rewrite Hsig.
      destruct (decide (s = s')) as [<-|Hne].
      * rewrite lookup_insert_eq. by intros [= <-].
      * rewrite lookup_insert_ne by done. intros Hlk _.
        by apply (Hs s' sg).
    + rewrite Qs. simpl. by rewrite Hst.
    + rewrite Qt. simpl. rewrite Htm. apply Forall_app. split.
      * eapply Forall_impl; [exact Hts|]. intros cb [m ->]. right. by exists m.
      * eapply Forall_impl; [exact Qts|]. intros cb ->. by left.
Qed.

Lemma unheard_quiet w w' :
  unheard k d id g s w → quiet g w w' → unheard k d id g s w'.
Proof.
  intros [Ha Hs Hst Ht] [Qs Qg (ts & Qt & Qts)]. split.
  - unfold signal_of. by rewrite Qg.
  - intros s' sg. rewrite Qg. apply Hs.
  - by rewrite Qs.
  - rewrite Qt. apply Forall_app. split; [done|].
    eapply Forall_impl; [exact Qts|]. intros cb ->. by left.
Qed.

Lemma step_unheard st a w :
  stream_inv g id st w → unheard k d id g s w →
  unheard k d id g s (step w a).
Proof.
  intros (f & pc & r & Hg & _) Hu.
  destruct a as [event|g'|i|s'|e']; simpl.
  - destruct (deliver_sends_nothing event w) as (Hs & Hsg & Ht).
    apply (unheard_quiet w); [done|]. split; [done | done |].
    exists []. by rewrite app_nil_r.
  - destruct (decide (g' = g)) as [->|Hne].
    + apply (unheard_quiet w); [done|].
      eapply quiet_next. by rewrite Hg, lookup_singleton_eq.
    + unfold next. by rewrite Hg, lookup_singleton_ne.
  - unfold fire. destruct (timers w !! i) as [cb|] eqn:Hi; [|done].
    assert (Hcb : request_timer k d id g cb)
      by (destruct Hu as [_ _ _ Ht]; exact (Forall_lookup_1 _ _ _ _ Ht Hi)).
    assert (Hu' : unheard k d id g s (set_timers (delete i (timers w)) w)).
    { destruct Hu. split; try done. simpl. by apply Forall_delete. }
    destruct Hcb as [-> | [n ->]]; simpl.
    + apply (unheard_quiet _ _ Hu'), quiet_wake.
    + match goal with |- unheard _ _ _ _ _ (postToIde _ _ _ _ ?v) =>
        set (u := v) in * end.
      destruct (postToIde_sends k d (Some id) n u) as (l & ts & Hst & Hl & Htm & Hts).
      destruct Hu' as [Ha Hs Hsent Ht]. split.
      * unfold signal_of. by rewrite signals_postToIde.
      * intros s' sg. rewrite signals_postToIde. apply Hs.
      * rewrite Hst. apply Forall_app. by split.
      * rewrite Htm. apply Forall_app. split; [done|].
        eapply Forall_impl; [exact Hts|]. intros cb [m ->]. right. by exists m.
  - assert (Hq : aborted (signal_of s' w) = true
                 ∨ on_abort (signal_of s' w) = []).
    { destruct (aborted (signal_of s' w)) eqn:Hab; [by left | right].
      destruct Hu as [_ Hs _ _]. unfold signal_of in *.
      destruct (signals w !! s') as [sg|] eqn:Hlk; [|done].
      by apply (Hs s' sg). }
    destruct (abort_unheard_signal s' w Hq) as (Htr & Htm & _).
    destruct Hu as [Ha Hs Hsent Ht]. split.
    + apply aborted_abort. by left.
    + intros s2 sg. rewrite signals_abort.
      destruct (aborted (signal_of s' w)); [apply Hs|].
      destruct (decide (s' = s2)) as [<-|Hne].
      * rewrite lookup_insert_eq. by intros [= <-].
      * rewrite lookup_insert_ne by done. apply Hs.
    + by rewrite Htr.
    + by rewrite Htm.
  - by destruct Hu.
Qed.

Lemma play_unheard st acts w :
  stream_inv g id st w → unheard k d id g s w →
  unheard k d id g s (play acts w).
Proof.
  revert st w. induction acts as [|a acts IH]; intros st w Hinv Hu; [done|].
  simpl. apply (IH (feed id st a)).
  - by apply step_stream_inv.
  - by apply (step_unheard st).
Qed.

End Started.

End EarlyAbort.

(** X9: a cancellation that comes before the consumer's first [next()]
    is lost.  Until that call nothing is sent and nothing listens; the
    call registers the "abort" listener on a signal that has fired
    already, so whatever happens afterwards, the page only ever sends the
    stream's own request: no "abort" envelope leaves. *)
Theorem abort_before_first_next e ids k d s pre post :
  let r := ideStreamRequest k d (Some s) (initial_world e ids) in
  let w1 := play pre (snd r) in
  let w := play post (next (fst r) w1) in
  Forall not_next pre → Abort s ∈ pre →
  (sent (trace w1) = [] ∧ listeners w1 = [] ∧ timers w1 = []) ∧
  Forall (envelope_of k d (Some (ids 0%nat))) (sent (trace w)) ∧
  abort s w = w.
Proof.
  intros r w1 w Hpre Hin.
  assert (Hc : created k d (Some s) 0 (ids 0%nat) (snd r)).
  { by split. }
  pose proof (play_created _ _ _ _ _ pre _ Hc Hpre) as Hc1.
  pose proof (play_aborted _ _ _ _ _ s pre _ Hc Hpre (or_intror Hin)) as Ha1.
  fold w1 in Hc1, Ha1.
  destruct (next_created k d 0 s (ids 0%nat) w1 Hc1 Ha1) as [Hinv Hu].
  pose proof (play_unheard k d 0 s (ids 0%nat) _ post _ Hinv Hu) as Hw.
  change (play post (next 0 w1)) with w in Hw.
  destruct Hc1 as [_ Hl Ht Htr _ _], Hw as [Ha _ Hs _].
  split; [by rewrite Htr|]. split; [done|].
  unfold abort. by rewrite Ha.
Qed.

Lemma abort_before_first_next_witness :
  let r := ideStreamRequest "llmStreamChat" VNull (Some 7%nat)
             (initial_world plain_env (λ _, "X")) in
  let w := play [Fire 0; Abort 7] (next (fst r) (play [Abort 7] (snd r))) in
  Forall (envelope_of "llmStreamChat" VNull (Some "X")) (sent (trace w)) ∧
  abort 7 w = w.
Proof.
  intros r w.
  refine (proj2 (abort_before_first_next plain_env (λ _, "X") "llmStreamChat"
                   VNull 7%nat [Abort 7] [Fire 0; Abort 7] _ _)).
  - by repeat constructor.
  - apply list_elem_of_here.
Defined.


(** ** A stream that has returned, and a stream that is not asked *)

Section Final.

Variables (g : nat) (id : string).

(** Whatever happens to a stream that has returned leaves it alone. *)
Lemma step_completed st a w :
  stream_inv g id st w → pc_of g w = Some Completed →
  same_registry w (step w a).
Proof.
  intros (f & pc & r & Hg & Hc & _ & Hcomp & _) Hpc.
  unfold pc_of in Hpc. rewrite Hg, lookup_singleton_eq in Hpc.
  injection Hpc as ->. destruct Hcomp as [Hd _]; [by left|].
  destruct a as [event|g'|i|s'|e']; simpl.
  - destruct Hc. rewrite Hd in co_listeners0.
    rewrite deliver_no_listener by done. apply same_registry_refl.
  - unfold next. rewrite Hg.
    destruct (decide (g' = g)) as [->|Hne].
    + rewrite lookup_singleton_eq. apply same_registry_refl.
    + rewrite lookup_singleton_ne by done. apply same_registry_refl.
  - unfold fire. destruct (timers w !! i) as [[k d mid n|g']|];
      [| |apply same_registry_refl]; simpl.
    + eapply same_registry_trans; [|apply same_registry_postToIde].
      by split.
    + unfold wake. simpl. rewrite Hg.
      destruct (decide (g' = g)) as [->|Hne].
      * rewrite lookup_singleton_eq. by split.
      * rewrite lookup_singleton_ne by done. by split.
  - apply same_registry_abort.
  - by split.
Qed.

Lemma play_completed st acts w :
  stream_inv g id st w → pc_of g w = Some Completed →
  same_registry w (play acts w).
Proof.
  revert st w. induction acts as [|a acts IH]; intros st w Hinv Hpc;
    [apply same_registry_refl|].
  simpl. pose proof (step_completed st a w Hinv Hpc) as Hs.
  eapply same_registry_trans; [exact Hs|].
  apply (IH (feed id st a)); [by apply step_stream_inv|].
  unfold pc_of in *. by rewrite (sr_generators _ _ Hs).
Qed.

Lemma returned_completed st w :
  stream_inv g id st w → returns g (trace w) ≠ [] →
  pc_of g w = Some Completed ∧ listeners w = [].
Proof.
  intros (f & pc & r & Hg & Hc & Hr & Hcomp & _) Hne.
  unfold pc_of. rewrite Hg, lookup_singleton_eq.
  destruct pc; try done. destruct Hcomp as [Hd _]; [by left|].
  destruct Hc. by rewrite Hd in co_listeners0.
Qed.

(** *** Results on demand *)

Lemma answered_ext w w' :
  yields g (trace w') = yields g (trace w) →
  returns g (trace w') = returns g (trace w) →
  answered g w' = answered g w.
Proof. unfold answered. by intros -> ->. Qed.

Lemma on_demand_same_registry n w w' :
  on_demand g n w → same_registry w w' → on_demand g n w'.
Proof.
  intros (f & pc & r & Hg & Hn & Hr) [_ _ Hg' _ _ Hy Hrt].
  exists f, pc, r. rewrite Hg'. split; [done|]. split; [|done].
  by rewrite (answered_ext w w').
Qed.

Lemma on_demand_loop n w f r c0 :
  generators w = {[g := c0]} → (answered g w + r ≤ n)%nat → (1 ≤ r)%nat →
  on_demand g n (loop g f r w).
Proof.
  intros Hg Hn Hr. unfold loop, after_loop, sleep, finish, park, setTimeout.
  unfold on_demand, answered, emit in *.
  repeat case_match; simpl;
    rewrite ?yields_app, ?returns_app, ?length_app; simpl;
    rewrite ?decide_True by done; simpl;
    rewrite ?yields_app, ?returns_app, ?length_app; simpl;
    rewrite ?decide_True by done; simpl;
    eexists _, _, _;
    (split; [rewrite Hg; apply insert_singleton_eq|]);
    repeat match goal with
           | H : (_ <=? _)%nat = true |- _ => apply Nat.leb_le in H
           | H : (_ <=? _)%nat = false |- _ => apply Nat.leb_gt in H
           end;
    (split; [lia | intros; (done || lia)]).
Qed.

Lemma handle_on_demand n l event w :
  on_demand g n w → on_demand g n (handle l event w).
Proof.
  intros (f & pc & r & Hg & Hn & Hr). destruct l as [i p|g']; simpl.
  - unfold unary_handler, resolve, removeEventListener, emit.
    unfold on_demand, answered in *.
    repeat case_match; simpl;
      rewrite ?yields_app, ?returns_app, ?app_nil_r;
      by exists f, pc, r.
  - unfold stream_handler. rewrite Hg.
    destruct (decide (g' = g)) as [->|Hne];
      [|rewrite lookup_singleton_ne by done; by exists f, pc, r].
    rewrite lookup_singleton_eq.
    unfold park, removeEventListener, emit, on_demand, answered in *.
    repeat case_match; simpl;
      rewrite ?yields_app, ?returns_app, ?app_nil_r;
      first [ by exists f, pc, r
            | eexists _, pc, r;
              (split; [rewrite Hg; apply insert_singleton_eq | done]) ].
Qed.

Lemma deliver_on_demand n event w :
  on_demand g n w → on_demand g n (deliver event w).
Proof.
  unfold deliver. generalize (listeners w). intros ls.
  revert w. induction ls as [|l ls IH]; intros w H; [done|].
  simpl. apply IH. case_decide; [by apply handle_on_demand | done].
Qed.

Lemma step_on_demand n a w :
  on_demand g n w →
  on_demand g (n + pulls g [a]) (step w a).
Proof.
  intros H. pose proof H as (f & pc & r & Hg & Hn & Hr).
  destruct a as [event|g'|i|s'|e']; unfold pulls; simpl;
    rewrite ?Nat.add_0_r.
  - by apply deliver_on_demand.
  - unfold next. rewrite Hg.
    destruct (decide (g' = g)) as [->|Hne]; simpl;
      [|rewrite lookup_singleton_ne, Nat.add_0_r by done; by exists f, pc, r].
    rewrite lookup_singleton_eq.
    unfold sleep, finish, park, setTimeout, emit, on_demand, answered in *.
    destruct pc; simpl;
      rewrite ?yields_app, ?returns_app, ?length_app, ?app_nil_r; simpl;
      rewrite ?decide_True by done; simpl;
      first [ by (exists f, Completed, r; split; [done | split; [lia|done]])
            | eexists _, _, _;
              (split; [rewrite Hg; apply insert_singleton_eq|]);
              (split; [lia | intros; (done || lia)]) ].
  - unfold fire. destruct (timers w !! i) as [[k d mid m|g']|]; [| |done];
      simpl.
    + eapply on_demand_same_registry; [|apply same_registry_postToIde].
      by exists f, pc, r.
    + unfold wake. simpl. rewrite Hg.
      destruct (decide (g' = g)) as [->|Hne];
        [|rewrite lookup_singleton_ne by done; by exists f, pc, r].
      rewrite lookup_singleton_eq.
      destruct pc;
        [by exists f, AtLoopYield, r | | by exists f, AtFinalYield, r
        | by exists f, Completed, r].
      apply on_demand_loop with (c0 := Started f AtSleep r); auto.
  - eapply on_demand_same_registry; [exact H | apply same_registry_abort].
  - by exists f, pc, r.
Qed.

Lemma pulls_cons a acts :
  pulls g (a :: acts) = (pulls g [a] + pulls g acts)%nat.
Proof.
  unfold pulls. simpl. rewrite app_nil_r. apply length_app.
Qed.

Lemma play_on_demand n acts w :
  on_demand g n w → on_demand g (n + pulls g acts) (play acts w).
Proof.
  revert n w. induction acts as [|a acts IH]; intros n w H.
  - unfold pulls. simpl. by rewrite Nat.add_0_r.
  - simpl. rewrite pulls_cons, Nat.add_assoc. by apply IH, step_on_demand.
Qed.

End Final.

Section StreamRequests.

Variables (e : Env) (ids : nat → string).
Variables (k : string) (d : Value) (tok : option nat).

Let g := fst (ideStreamRequest k d tok (initial_world e ids)).

Local Abbreviation started := (started e ids k d tok).

(** X10: a return is final.  Once the generator has returned, nothing
    that happens afterwards (late envelopes bearing its identifier,
    further [next()] calls, timers, cancellation) makes it yield or
    return again, and its "message" listener is gone for good. *)
Theorem ideStreamRequest_return_is_final acts post :
  let w := play acts started in
  returns g (trace w) ≠ [] →
  yields g (trace (play post w)) = yields g (trace w) ∧
  returns g (trace (play post w)) = returns g (trace w) ∧
  listeners (play post w) = [].
Proof.
  intros w Hret.
  pose proof (play_stream_inv g (ids 0%nat) _ acts _
                (started_stream_inv e ids k d tok)) as Hinv.
  destruct (returned_completed _ _ _ _ Hinv Hret) as [Hpc Hl].
  destruct (play_completed _ _ _ post _ Hinv Hpc) as [Hl' _ _ _ _ Hy Hr].
  fold w in Hl'. by rewrite Hy, Hr, Hl'.
Qed.

Lemma started_on_demand : on_demand g 1 started.
Proof.
  unfold started, g, ideStreamRequest, next. simpl.
  rewrite lookup_insert_eq. unfold start. simpl.
  set (w1 := set_uuid_next 1 _).
  set (wp := postToIde k d (Some (ids 0%nat)) 0 w1).
  destruct (same_registry_postToIde k d (Some (ids 0%nat)) 0 w1)
    as [Hl Hp Hg Hn Hres Hy Hr].
  fold wp in Hl, Hp, Hg, Hn, Hres, Hy, Hr.
  eapply on_demand_loop with (c0 := Unstarted k d tok); [| |done].
  - unfold addEventListener.
    destruct tok; case_decide; simpl; rewrite Hg; simpl; apply insert_empty.
  - unfold answered, addEventListener.
    destruct tok; case_decide; simpl; by rewrite Hy, Hr.
Qed.

(** X11: the generator works on demand.  At every point of every run it
    has handed over no more results, chunks and value returned together,
    than [next()] has been called on it. *)
Theorem ideStreamRequest_on_demand acts :
  let w := play acts started in
  (length (yields g (trace w)) + length (returns g (trace w))
   ≤ 1 + pulls g acts)%nat.
Proof.
  intros w.
  destruct (play_on_demand g 1 acts _ started_on_demand)
    as (f & pc & r & _ & Hn & _).
  fold w in Hn. unfold answered in Hn. lia.
Qed.

End StreamRequests.

Lemma ideStreamRequest_return_is_final_witness :
  let envelope p :=
    Deliver {| messageId := "X"; messageType := "llmStreamChat";
               data := p |} in
  let w := play [envelope (fragment "a"); envelope done_payload;
                 Fire 0; Next 0; Next 0]
             (started plain_env (λ _, "X") "llmStreamChat" VNull None) in
  let post := [envelope (fragment "b"); Next 0; envelope done_payload;
               Next 0] in
  yields 0 (trace (play post w)) = yields 0 (trace w) ∧
  returns 0 (trace (play post w)) = returns 0 (trace w) ∧
  listeners (play post w) = [].
Proof.
  intros envelope w post.
  refine (ideStreamRequest_return_is_final plain_env (λ _, "X")
            "llmStreamChat" VNull None _ post _).
  discriminate.
Defined.


(** ** The chat stream *)

Section ChatStream.

Variable g : nat.

Lemma results_app t1 t2 :
  results g (t1 ++ t2) = results g t1 ++ results g t2.
Proof. apply flat_map_app. Qed.

Lemma relayed_yields t :
  chat_yields (map relay (results g t)) = map chat_message (yields g t).
Proof.
  induction t as [|e t IH]; [done|].
  destruct e; simpl; try done; case_decide; simpl; by rewrite ?IH.
Qed.

Lemma relayed_returns t :
  chat_returns (map relay (results g t)) = map llm_return (returns g t).
Proof.
  induction t as [|e t IH]; [done|].
  destruct e; simpl; try done; case_decide; simpl; by rewrite ?IH.
Qed.

(** *** Turns of the page that leave [g] where it is *)

Lemma still_refl w : still g w w.
Proof. split; [|done]. intros f pc r ?. by exists f. Qed.

Lemma still_trans w1 w2 w3 : still g w1 w2 → still g w2 w3 → still g w1 w3.
Proof.
  intros [H1 R1] [H2 R2]. split; [|congruence].
  intros f pc r Hg. destruct (H1 f pc r Hg) as [f' Hg']. by apply (H2 f').
Qed.

Lemma still_postToIde k d id n w : still g w (postToIde k d id n w).
Proof.
  unfold postToIde, _postToIde, setTimeout, emit.
  destruct (vscode (env w)), (jetbrains (env w)),
    (postIntellijMessage (env w)), id, (n <? 5)%nat; simpl;
    (split; [intros f pc r ?; by exists f|]); simpl;
    rewrite ?results_app; simpl; by rewrite ?app_nil_r.
Qed.

Lemma still_abort_listeners l w :
  still g w (foldl (λ w i, postToIde "abort" VUndefined (Some i) 0 w) w l).
Proof.
  revert w. induction l as [|i l IH]; intros w; [apply still_refl|].
  simpl. eapply still_trans; [apply still_postToIde | apply IH].
Qed.

Lemma still_abort s w : still g w (abort s w).
Proof.
  unfold abort. case_match; [apply still_refl|].
  eapply still_trans; [|apply still_abort_listeners].
  split; [|done]. intros f pc r ?. by exists f.
Qed.

Lemma still_handle l event w : still g w (handle l event w).
Proof.
  destruct l as [i p|g']; simpl.
  - unfold unary_handler, resolve, removeEventListener, emit.
    repeat case_match; (split; [intros f pc r ?; by exists f|]); simpl;
      rewrite ?results_app; simpl; by rewrite ?app_nil_r.
  - unfold stream_handler.
    destruct (generators w !! g') as [[|f0 pc0 r0]|] eqn:Hlk;
      try apply still_refl.
    assert (Hpark : ∀ f1 w1, generators w1 = generators w →
              results g (trace w1) = results g (trace w) →
              still g w (park g' f1 pc0 r0 w1)).
    { intros f1 w1 Hg1 Hr1. split; [|done].
      intros f pc r Hg. simpl. rewrite Hg1, Hg. rewrite Hg in Hlk.
      destruct (decide (g' = g)) as [->|Hne].
      - rewrite lookup_singleton_eq in Hlk. injection Hlk as <- <- <-.
        exists f1. apply insert_singleton_eq.
      - by rewrite lookup_singleton_ne in Hlk. }
    repeat case_match; try apply still_refl; try (by apply Hpark);
      (split; [intros f pc r ?; by exists f|]); simpl;
      rewrite ?results_app; simpl; by rewrite ?app_nil_r.
Qed.

Lemma still_deliver event w : still g w (deliver event w).
Proof.
  unfold deliver. generalize (listeners w). intros ls.
  revert w. induction ls as [|l ls IH]; intros w; [apply still_refl|].
  simpl. eapply still_trans; [|apply IH].
  case_decide; [apply still_handle | apply still_refl].
Qed.

Lemma still_set_timers ts w : still g w (set_timers ts w).
Proof. split; [|done]. intros f pc r ?. by exists f. Qed.

(** A turn of the page while [g] does not sleep, or in which its sleep
    does not elapse. *)
Lemma still_step a w f pc r :
  generators w = {[g := Started f pc r]} →
  not_next a →
  (pc = AtSleep → ∀ i, a = Fire i → timers w !! i ≠ Some (ResolveSleep g)) →
  still g w (step w a).
Proof.
  intros Hg Ha Hs. destruct a as [event|g'|i|s'|e']; simpl; try done.
  - apply still_deliver.
  - unfold fire. destruct (timers w !! i) as [[k d mid n|g']|] eqn:Hi;
      [| |apply still_refl]; simpl.
    + eapply still_trans; [apply still_set_timers | apply still_postToIde].
    + unfold wake. simpl. rewrite Hg.
      destruct (decide (g' = g)) as [->|Hne];
        [|rewrite lookup_singleton_ne by done; apply still_set_timers].
      rewrite lookup_singleton_eq.
      destruct pc; try apply still_set_timers.
      by destruct (Hs eq_refl i eq_refl).
  - apply still_abort.
  - split; [|done]. intros f0 pc0 r0 ?. by exists f0.
Qed.

(** *** The chat stream takes in a result *)

Lemma resume_idle r c :
  results g (trace (page c)) !! chat_seen c = None → chat_resume r g c = c.
Proof. intros H. destruct r; simpl; [done|]. by rewrite H. Qed.

Lemma lockstep_still c w' :
  lockstep g c → still g (page c) w' →
  lockstep g (chat_settle (set_page w' c)).
Proof.
  intros (f & pc & r & Hg & Hpc & Hseen & Hout) [Hst Hres].
  destruct (Hst f pc r Hg) as [f' Hg'].
  assert (Hl : lockstep g (set_page w' c)).
  { exists f', pc, r. simpl. by rewrite Hres. }
  unfold chat_settle. simpl. destruct (chat_pc c) eqn:Hc; try done.
  destruct Hpc as (-> & _).
  rewrite resume_idle; [done|]. simpl.
  apply lookup_ge_None_2. rewrite Hres. lia.
Qed.

(** [g] has just yielded a chunk to the waiting chat stream. *)
Lemma resume_chunk q w rs chunk f pc :
  generators w = {[g := Started f pc 0]} →
  pc = AtLoopYield ∨ pc = AtFinalYield →
  results g (trace w) = rs ++ [inl chunk] → (1 ≤ q)%nat →
  lockstep g
    (chat_resume q g
       {| page := w; chat_pc := ChatAwaiting g; chat_requests := q;
          chat_seen := length rs; chat_trace := map relay rs |}).
Proof.
  intros Hg Hpc Hrs Hq. destruct q as [|q]; [lia|].
  cbn [chat_resume page chat_seen chat_trace].
  rewrite Hrs, list_lookup_middle by done.
  destruct q as [|q].
  - exists f, pc, 0%nat. simpl. rewrite Hrs, length_app, map_app. simpl.
    repeat split; rewrite ?map_app, ?length_app; simpl; (done || lia).
  - unfold next. rewrite Hg, lookup_singleton_eq.
    destruct Hpc as [-> | ->].
    + rewrite resume_idle.
      * exists f, AtSleep, 1%nat. simpl.
        rewrite results_app, Hrs, length_app, map_app. simpl.
        rewrite app_nil_r, length_app. simpl.
        split; [rewrite Hg; apply insert_singleton_eq|].
        repeat split; rewrite ?map_app, ?length_app; simpl; (done || lia).
      * simpl. rewrite results_app, Hrs. simpl. rewrite app_nil_r.
        apply lookup_ge_None_2. rewrite length_app. simpl. lia.
    + cbn [chat_resume page chat_seen chat_trace]. unfold finish at 1.
      cbn [trace emit set_trace park set_generators].
      rewrite results_app, Hrs. simpl. rewrite decide_True by done.
      rewrite (lookup_app_r (rs ++ [inl chunk]))
        by (rewrite length_app; simpl; lia).
      replace (S (length rs) - length (rs ++ [inl chunk]))%nat with 0%nat
        by (rewrite length_app; simpl; lia).
      simpl.
      exists f, Completed, 0%nat. simpl.
      rewrite results_app, Hrs. simpl. rewrite decide_True by done.
      rewrite !length_app, !map_app. simpl.
      split; [rewrite Hg; apply insert_singleton_eq|].
      repeat split; rewrite ?map_app, ?length_app; simpl; (done || lia).
Qed.

(** [g] has just returned to the waiting chat stream. *)
Lemma resume_return q w rs v f :
  generators w = {[g := Started f Completed 0]} →
  results g (trace w) = rs ++ [inr v] → (1 ≤ q)%nat →
  lockstep g
    (chat_resume q g
       {| page := w; chat_pc := ChatAwaiting g; chat_requests := q;
          chat_seen := length rs; chat_trace := map relay rs |}).
Proof.
  intros Hg Hrs Hq. destruct q as [|q]; [lia|].
  cbn [chat_resume page chat_seen chat_trace].
  rewrite Hrs, list_lookup_middle by done.
  exists f, Completed, 0%nat. simpl. rewrite Hrs, length_app, map_app. simpl.
  repeat split; rewrite ?map_app, ?length_app; simpl; (done || lia).
Qed.

(** The sleep of [g] elapses while the chat stream waits. *)
Lemma resume_loop q w f c0 :
  generators w = {[g := c0]} → (1 ≤ q)%nat →
  lockstep g
    (chat_resume q g
       {| page := loop g f 1 w; chat_pc := ChatAwaiting g;
          chat_requests := q;
          chat_seen := length (results g (trace w));
          chat_trace := map relay (results g (trace w)) |}).
Proof.
  intros Hg Hq. unfold loop, after_loop.
  destruct (done f), (index f <? String.length (buffer f))%nat; simpl.
  - eapply resume_chunk; [|by right| |done].
    + simpl. rewrite Hg. apply insert_singleton_eq.
    + simpl. rewrite results_app. simpl. by rewrite decide_True.
  - eapply resume_return; [| |done].
    + simpl. rewrite Hg. apply insert_singleton_eq.
    + simpl. rewrite results_app. simpl. by rewrite decide_True.
  - eapply resume_chunk; [|by left| |done].
    + simpl. rewrite Hg. apply insert_singleton_eq.
    + simpl. rewrite results_app. simpl. by rewrite decide_True.
  - rewrite resume_idle.
    + exists f, AtSleep, 1%nat. simpl. rewrite results_app. simpl.
      rewrite app_nil_r.
      split; [rewrite Hg; apply insert_singleton_eq | done].
    + simpl. rewrite results_app. simpl. rewrite app_nil_r.
      by apply lookup_ge_None_2.
Qed.


(** *** Every turn keeps the two in step *)

Lemma host_lockstep a c :
  lockstep g c → hosted (Host a) →
  lockstep g (chat_step c (Host a)).
Proof.
  intros Hl Ha. pose proof Hl as (f & pc & r & Hg & Hpc & Hseen & Hout).
  assert (Hnn : not_next a) by (by destruct a).
  assert (Hcase :
    (pc = AtSleep ∧
     ∃ i, a = Fire i ∧ timers (page c) !! i = Some (ResolveSleep g)) ∨
    (pc = AtSleep → ∀ i, a = Fire i →
     timers (page c) !! i ≠ Some (ResolveSleep g))).
  { destruct a as [event|g'|i|s'|e']; try (right; by intros).
    destruct (timers (page c) !! i) as [[k d mid n|g']|] eqn:Hi;
      [right; intros _ ? [= <-]; by rewrite Hi | |
       right; intros _ ? [= <-]; by rewrite Hi].
    destruct (decide (g' = g)) as [->|Hne];
      [|right; intros _ ? [= <-]; rewrite Hi; congruence].
    destruct pc; try (right; by intros).
    left. split; [done|]. by exists i. }
  destruct Hcase as [(-> & i & -> & Hi)|Hno].
  - (* the sleep of [g] elapses *)
    destruct (chat_pc c) as [| gen | gen |] eqn:Hc; try done;
      [|by destruct Hpc as (_ & [|] & _)].
    destruct Hpc as (-> & _ & -> & Hq).
    unfold chat_step, chat_settle. simpl. rewrite Hc.
    unfold fire. rewrite Hi. simpl. unfold wake. simpl.
    rewrite Hg, lookup_singleton_eq.
    pose proof (resume_loop (chat_requests c)
                  (set_timers (delete i (timers (page c))) (page c)) f
                  _ Hg Hq) as H.
    simpl in H. unfold set_page. by rewrite Hc, Hseen, Hout.
  - apply lockstep_still; [done|]. by eapply still_step.
Qed.

Lemma pull_lockstep c : lockstep g c → lockstep g (chat_step c Pull).
Proof.
  intros (f & pc & r & Hg & Hpc & Hseen & Hout). simpl. unfold chat_next.
  destruct (chat_pc c) as [| gen | gen |] eqn:Hc; try done.
  - exists f, pc, r. simpl. destruct Hpc as (? & ? & ? & ?).
    repeat split; try done. lia.
  - destruct Hpc as (-> & Hpc & ->).
    unfold chat_settle. cbn [chat_pc chat_requests].
    rewrite Hseen, Hout. unfold next. rewrite Hg, lookup_singleton_eq.
    destruct Hpc as [-> | ->].
    + rewrite resume_idle.
      * exists f, AtSleep, 1%nat. simpl. rewrite results_app. simpl.
        rewrite app_nil_r.
        split; [rewrite Hg; apply insert_singleton_eq | done].
      * simpl. rewrite results_app. simpl. rewrite app_nil_r.
        by apply lookup_ge_None_2.
    + eapply resume_return; [| |done].
      * simpl. rewrite Hg. apply insert_singleton_eq.
      * simpl. rewrite results_app. simpl. by rewrite decide_True.
  - exists f, pc, r. by rewrite Hc.
Qed.

Lemma step_lockstep a c :
  lockstep g c → hosted a → lockstep g (chat_step c a).
Proof.
  destruct a as [|a]; intros Hl Ha;
    [by apply pull_lockstep | by apply host_lockstep].
Qed.

Lemma play_lockstep acts c :
  lockstep g c → Forall hosted acts → lockstep g (chat_play acts c).
Proof.
  intros Hl Hacts. revert c Hl.
  induction Hacts as [|a acts Ha _ IH]; intros c Hl; [done|].
  simpl. by apply IH, step_lockstep.
Qed.

(** *** The page under the chat stream *)

Variable id : string.

(** All that the chat stream does to the page is to call [next()] on its
    [gen]. *)
Lemma resume_page r c :
  ∃ m, page (chat_resume r g c) = Nat.iter m (next g) (page c).
Proof.
  revert c. induction r as [|r IH]; intros c; [by exists 0%nat|].
  simpl. destruct (results g (trace (page c)) !! chat_seen c) as [[chunk|v]|];
    [|by exists 0%nat|by exists 0%nat].
  destruct r as [|r]; [by exists 0%nat|].
  match goal with |- context [chat_resume _ _ ?c1] =>
    destruct (IH c1) as [m Hm] end.
  exists (m + 1)%nat. rewrite Hm. simpl.
  by rewrite Nat.iter_add.
Qed.

Lemma iter_next_stream_inv st m w :
  stream_inv g id st w → stream_inv g id st (Nat.iter m (next g) w).
Proof.
  intros H. induction m as [|m IH]; [done|]. simpl.
  by apply next_stream_inv.
Qed.

Lemma settle_page c :
  (∀ gen, chat_pc c = ChatAwaiting gen → gen = g) →
  ∃ m, page (chat_settle c) = Nat.iter m (next g) (page c).
Proof.
  intros Hgen. unfold chat_settle.
  destruct (chat_pc c) as [| gen | gen |] eqn:Hc; try (by exists 0%nat).
  rewrite (Hgen gen eq_refl). apply resume_page.
Qed.

Lemma lockstep_gen c gen :
  lockstep g c → chat_pc c = ChatAwaiting gen ∨ chat_pc c = ChatAtYield gen →
  gen = g.
Proof.
  intros (f & pc & r & _ & Hpc & _) [Hc|Hc]; rewrite Hc in Hpc;
    by destruct Hpc.
Qed.

(** What a turn does to the page. *)
Lemma chat_step_page a c :
  lockstep g c →
  ∃ m, page (chat_step c a)
       = Nat.iter m (next g)
           (match a with Pull => page c | Host a => step (page c) a end).
Proof.
  intros Hl. destruct a as [|a]; simpl.
  - unfold chat_next.
    destruct (chat_pc c) as [| gen | gen |] eqn:Hc;
      [by destruct Hl as (? & ? & ? & _ & ? & _); rewrite Hc in *
      | by exists 0%nat | | by exists 0%nat].
    rewrite (lockstep_gen c gen Hl (or_intror Hc)).
    unfold chat_settle. cbn [chat_pc chat_requests].
    match goal with |- context [chat_resume _ _ ?c1] =>
      destruct (resume_page 1 c1) as [m Hm] end.
    exists (m + 1)%nat. rewrite Hm. simpl. by rewrite Nat.iter_add.
  - apply settle_page. simpl. intros gen Hc.
    by apply (lockstep_gen c gen Hl (or_introl Hc)).
Qed.

Lemma chat_step_stream_inv st a c :
  lockstep g c → stream_inv g id st (page c) →
  stream_inv g id (foldl (feed id) st (host_actions [a]))
    (page (chat_step c a)).
Proof.
  intros Hl Hinv. destruct (chat_step_page a c Hl) as [m ->].
  apply iter_next_stream_inv. destruct a as [|a]; simpl; [done|].
  by apply step_stream_inv.
Qed.

Lemma host_actions_cons a acts :
  host_actions (a :: acts) = host_actions [a] ++ host_actions acts.
Proof. unfold host_actions. simpl. by rewrite app_nil_r. Qed.

Lemma chat_play_stream_inv st acts c :
  lockstep g c → Forall hosted acts → stream_inv g id st (page c) →
  stream_inv g id (foldl (feed id) st (host_actions acts))
    (page (chat_play acts c)).
Proof.
  intros Hl Hacts. revert st c Hl.
  induction Hacts as [|a acts Ha _ IH]; intros st c Hl Hinv; [done|].
  rewrite host_actions_cons, foldl_app. simpl.
  apply IH; [by apply step_lockstep | by apply chat_step_stream_inv].
Qed.


(** *** Draining the chat stream *)

Lemma iter_next_rank m w pc :
  pc_of g w = Some pc →
  ∃ pc', pc_of g (Nat.iter m (next g) w) = Some pc' ∧
         (rank pc' ≤ rank pc)%nat.
Proof.
  intros Hpc. induction m as [|m (pc1 & Hpc1 & Hr1)]; [by exists pc|].
  simpl. set (v := Nat.iter m (next g) w) in *.
  unfold pc_of in Hpc1. unfold next, pc_of.
  destruct (generators v !! g) as [[|f pc2 r]|] eqn:Hlk; try done.
  injection Hpc1 as ->.
  destruct pc1; simpl; rewrite ?lookup_insert_eq, ?Hlk;
    eexists; (split; [done|]); simpl in *; lia.
Qed.

(** A pull of the chat stream is a pull of [gen], followed by whatever
    [next()] calls the chat stream owes its own callers. *)
Lemma chat_pull_page st c :
  lockstep g c → stream_inv g id st (page c) →
  hosted (chat_pull c) ∧
  host_actions [chat_pull c]
    = match chat_pull c with Pull => [] | Host a => [pull g (page c)] end ∧
  ∃ m, page (chat_step c (chat_pull c))
       = Nat.iter m (next g) (step (page c) (pull g (page c))).
Proof.
  intros Hl (f0 & pc0 & r0 & Hg0 & _ & _ & _ & Hsl).
  pose proof Hl as (f & pc & r & Hg & Hpc & _).
  rewrite Hg0 in Hg. apply (inj (singletonM g)) in Hg as [= <- <- <-].
  unfold chat_pull, pull. rewrite Hg0, lookup_singleton_eq.
  destruct (chat_pc c) as [| gen | gen |] eqn:Hc; try done.
  - destruct Hpc as (-> & -> & _).
    destruct (sleep_timer_found g _ (Hsl eq_refl)) as (i & -> & _).
    split; [done|]. split; [done|].
    apply (chat_step_page (Host (Fire i)) c Hl).
  - destruct Hpc as (-> & Hpc & _). split; [done|].
    assert (Hp : match pc0 with
                 | AtSleep =>
                     match sleep_timer g (timers (page c)) with
                     | Some i => Fire i
                     | None => Next g
                     end
                 | _ => Next g
                 end = Next g) by (by destruct Hpc as [-> | ->]).
    rewrite Hp. split; [done|]. simpl. unfold chat_next. rewrite Hc.
    unfold chat_settle. cbn [chat_pc chat_requests]. apply resume_page.
  - subst pc0. split; [done|]. split; [done|]. exists 0%nat. simpl.
    unfold chat_next, next. by rewrite Hc, Hg0, lookup_singleton_eq.
Qed.

Lemma chat_pull_invariants st c :
  lockstep g c → stream_inv g id st (page c) →
  lockstep g (chat_step c (chat_pull c)) ∧
  stream_inv g id st (page (chat_step c (chat_pull c))).
Proof.
  intros Hl Hinv.
  destruct (chat_pull_page st c Hl Hinv) as (Hh & Ha & m & Hm).
  split; [by apply step_lockstep|].
  rewrite Hm. apply iter_next_stream_inv, pull_stream_inv, Hinv.
Qed.

Lemma chat_drain_invariants st n c :
  lockstep g c → stream_inv g id st (page c) →
  lockstep g (chat_drain n c) ∧ stream_inv g id st (page (chat_drain n c)).
Proof.
  revert c. induction n as [|n IH]; intros c Hl Hinv; [done|].
  simpl. destruct (chat_pull_invariants st c Hl Hinv). by apply IH.
Qed.

Lemma chat_drain_completes st n c pc :
  lockstep g c → stream_inv g id st (page c) → st.2 ≠ None →
  pc_of g (page c) = Some pc → (rank pc ≤ n)%nat →
  pc_of g (page (chat_drain n c)) = Some Completed.
Proof.
  revert c pc. induction n as [|n IH]; intros c pc Hl Hinv Hst Hpc Hn.
  - simpl. by destruct pc; simpl in Hn; try lia.
  - simpl. destruct (chat_pull_invariants st c Hl Hinv) as [Hl' Hinv'].
    destruct (chat_pull_page st c Hl Hinv) as (_ & _ & m & Hm).
    destruct (pull_progress g id _ _ _ Hinv Hst Hpc) as (pc1 & Hpc1 & Hr1).
    destruct (iter_next_rank m _ _ Hpc1) as (pc2 & Hpc2 & Hr2).
    rewrite <- Hm in Hpc2.
    eapply IH; [done | done | done | exact Hpc2 | lia].
Qed.

(** What a chat stream in step with its [gen] has handed over. *)
Lemma lockstep_relayed c :
  lockstep g c →
  chat_yields (chat_trace c) = map chat_message (yields g (trace (page c))) ∧
  chat_returns (chat_trace c) = map llm_return (returns g (trace (page c))).
Proof.
  intros (f & pc & r & _ & _ & _ & ->).
  split; [apply relayed_yields | apply relayed_returns].
Qed.

End ChatStream.

Section ChatClaims.

Variables (e : Env) (ids : nat → string).
Variables (modelTitle : string) (cancelToken : option nat).
Variables (messages options : Value).

Let request := chat_data modelTitle messages options.
Let g := fst (ideStreamRequest "llmStreamChat" request cancelToken
                (initial_world e ids)).
Let c0 := chat_next (llmStreamChat modelTitle cancelToken messages options
                       (initial_world e ids)).

(** The first [next()] creates [gen] and runs it up to its first
    sleep. *)
Lemma chat_started :
  page c0 = started e ids "llmStreamChat" request cancelToken ∧
  lockstep g c0.
Proof.
  unfold c0, chat_next, llmStreamChat, started. simpl.
  set (P := next 0 _).
  assert (HP : results 0 (trace P) = [] ∧
               ∃ f, generators P = {[0%nat := Started f AtSleep 1]}).
  { unfold P, next. simpl. rewrite lookup_insert_eq. unfold start. simpl.
    set (w1 := set_uuid_next 1 _).
    destruct (same_registry_postToIde "llmStreamChat" request
                (Some (ids 0%nat)) 0 w1) as [_ _ Hg _ _ _ _].
    destruct (still_postToIde 0 "llmStreamChat" request
                (Some (ids 0%nat)) 0 w1) as [_ Hres].
    unfold request in *.
    unfold loop, sleep, addEventListener. simpl.
    destruct cancelToken; case_decide; simpl;
      rewrite results_app, Hres, Hg; simpl;
      (split; [done|]); eexists; apply insert_insert_eq. }
  destruct HP as [Hres [f Hg]].
  unfold chat_settle. cbn [chat_pc chat_requests].
  rewrite resume_idle by (simpl; by rewrite Hres).
  split; [done|]. exists f, AtSleep, 1%nat. change g with 0%nat. simpl.
  by rewrite Hres.
Qed.

Lemma chat_running acts n :
  Forall hosted acts →
  lockstep g (chat_drain n (chat_play acts c0)) ∧
  stream_inv g (ids 0%nat)
    (foldl absorb ([], None) (replies (ids 0%nat) (host_actions acts)))
    (page (chat_drain n (chat_play acts c0))).
Proof.
  intros Hacts. destruct chat_started as [Hp Hl].
  apply chat_drain_invariants; [by apply play_lockstep|].
  pose proof (chat_play_stream_inv g (ids 0%nat) ([], None) acts c0 Hl Hacts)
    as Hinv.
  rewrite Hp in Hinv. specialize (Hinv (started_stream_inv _ _ _ _ _)).
  clear -Hinv. revert Hinv.
  generalize (page (chat_play acts c0)). generalize (@pair (list string) (option Value) [] None).
  induction (host_actions acts) as [|a l IH]; intros st w H; [done|].
  simpl in *. destruct a; try (by apply IH).
  simpl in H. destruct (String.eqb _ _); by apply IH.
Qed.

(** X12: the chat stream relays its underlying stream and adds nothing.
    Its first [next()] starts an [ideStreamRequest] for "llmStreamChat"
    with the messages, the model title and the options (an empty object
    when none are given).  From then on, at every point of every run,
    what the consumer has been handed is, in order, one message with
    role "user" per chunk of the underlying stream, carrying that chunk
    as its content, and, once the underlying stream has returned a
    payload, the object made of that payload's [prompt] and
    [completion]. *)
Theorem llmStreamChat_relays acts n :
  let c := chat_drain n (chat_play acts c0) in
  Forall hosted acts →
  page c0 = started e ids "llmStreamChat"
              (VObj [("messages", messages); ("title", VStr modelTitle);
                     ("completionOptions",
                      match options with
                      | VUndefined => VObj []
                      | _ => options
                      end)]) cancelToken ∧
  chat_yields (chat_trace c) = map chat_message (yields g (trace (page c))) ∧
  chat_returns (chat_trace c) = map llm_return (returns g (trace (page c))).
Proof.
  intros c Hacts. split; [apply chat_started|].
  apply lockstep_relayed. by apply chat_running.
Qed.

(** X13: a chat stream through to its end.  When the envelopes bearing
    the identifier of the underlying stream are fragments followed by a
    completion envelope, a consumer that drains the chat stream is
    handed messages with role "user" whose contents, none of them empty,
    concatenate to the concatenation of the fragments' contents, and
    then, as the value returned, the object made of the completion
    payload's [prompt] and [completion]. *)
Theorem llmStreamChat_result acts frags completion rest n :
  let c := chat_drain n (chat_play acts c0) in
  Forall hosted acts →
  replies (ids 0%nat) (host_actions acts) = frags ++ completion :: rest →
  Forall (λ p, is_fragment p = true) frags →
  is_completion completion = true → (3 ≤ n)%nat →
  chat_pc c = ChatCompleted ∧
  (∃ chunks, chat_yields (chat_trace c) = map chat_message chunks ∧
             Forall (λ chunk, chunk ≠ "") chunks ∧
             join chunks = join (map fragment_content frags)) ∧
  chat_returns (chat_trace c)
    = [VObj [("prompt", optional completion "prompt");
             ("completion", optional completion "completion")]].
Proof.
  intros c Hacts Hrep Hf Hc Hn.
  destruct (chat_running acts 0 Hacts) as [Hl0 Hinv0]. simpl in Hl0, Hinv0.
  destruct (chat_running acts n Hacts) as [Hl Hinv]. fold c in Hl, Hinv.
  rewrite Hrep, absorb_stream in Hinv0, Hinv by done.
  destruct (stream_inv_pc _ _ _ _ Hinv0) as [pc Hpc].
  assert (Hdone : pc_of g (page c) = Some Completed).
  { eapply chat_drain_completes; [exact Hl0 | exact Hinv0 | done | exact Hpc |].
    destruct pc; simpl; lia. }
  destruct (completed_result _ _ _ _ Hinv Hdone) as (Hy & _ & Hr).
  destruct (lockstep_relayed g c Hl) as [Hcy Hcr].
  split; [|split].
  - destruct Hl as (f & pc' & r & Hg & Hpc' & _).
    unfold pc_of in Hdone. rewrite Hg, lookup_singleton_eq in Hdone.
    injection Hdone as ->.
    destruct (chat_pc c) as [| gen | gen |];
      [done | by destruct Hpc' as (_ & ? & _)
      | by destruct Hpc' as (_ & [|] & _) | done].
  - exists (yields g (trace (page c))). split; [done|]. split; [|done].
    by destruct Hinv as (f & pc' & r & _ & [] & _).
  - by rewrite Hcr, (Hr completion eq_refl).
Qed.

End ChatClaims.

Lemma llmStreamChat_relays_witness :
  let envelope p :=
    Host (Deliver {| messageId := "X"; messageType := "llmStreamChat";
                     data := p |}) in
  let acts := [envelope (fragment "a"); Host (Fire 0); Pull;
               envelope (fragment "b")] in
  let c0 := chat_next (llmStreamChat "gpt" None (VStr "hi") VUndefined
                         (initial_world plain_env (λ _, "X"))) in
  let c := chat_drain 0 (chat_play acts c0) in
  chat_yields (chat_trace c) = map chat_message (yields 0 (trace (page c))).
Proof.
  intros envelope acts c0 c.
  refine (proj1 (proj2 (llmStreamChat_relays plain_env (λ _, "X") "gpt" None
                          (VStr "hi") VUndefined acts 0 _))).
  by repeat constructor.
Defined.

Lemma llmStreamChat_result_witness :
  let envelope p :=
    Host (Deliver {| messageId := "X"; messageType := "llmStreamChat";
                     data := p |}) in
  let completion :=
    VObj [("done", VBool true); ("prompt", VStr "hi");
          ("completion", VStr "ab")] in
  let acts := [envelope (fragment "a"); Host (Fire 0); Pull;
               envelope (fragment "b"); envelope completion] in
  let c0 := chat_next (llmStreamChat "gpt" None (VStr "hi") VUndefined
                         (initial_world plain_env (λ _, "X"))) in
  let c := chat_drain 3 (chat_play acts c0) in
  chat_returns (chat_trace c)
    = [VObj [("prompt", VStr "hi"); ("completion", VStr "ab")]].
Proof.
  intros envelope completion acts c0 c.
  refine (proj2 (proj2 (llmStreamChat_result plain_env (λ _, "X") "gpt" None
                          (VStr "hi") VUndefined acts
                          [fragment "a"; fragment "b"] completion [] 3
                          _ eq_refl _ eq_refl _))).
  - by repeat constructor.
  - by repeat constructor.
  - lia.
Defined.


(** ** Notifications *)

Section Notifications.

Lemma attempt_notifying k d n w v :
  timers v = [] → uuids v = uuids w → uuid_next v = uuid_next w →
  sent (trace v) = sent (trace w) →
  notifying k d w (postToIde k d None n v).
Proof.
  intros Ht Hu Hn Hs.
  unfold notifying, postToIde, _postToIde, setTimeout, emit.
  destruct (vscode (env v)), (jetbrains (env v)),
    (postIntellijMessage (env v)), (n <? 5)%nat; simpl;
    rewrite ?sent_app, ?Ht, ?Hu, ?Hn, ?Hs; simpl; rewrite ?app_nil_r;
    (split; [done|]);
    first [ by (left; eexists)
          | by (right; split; [done | by left])
          | by (right; split; [done | by right]) ].
Qed.

Lemma step_notifying k d w w' a :
  notifying k d w w' → transport_event a → notifying k d w (step w' a).
Proof.
  intros [Hu H] Ha. destruct a as [event|g|i|s|e']; try done; simpl.
  unfold fire.
  destruct H as [(n & Ht & Hs & Hn) | (Ht & H)].
    + rewrite Ht. destruct i as [|i]; simpl; [|by split; [|left; exists n]].
      by apply attempt_notifying.
    + rewrite Ht. simpl. split; [done|]. by right.
Qed.

Lemma postToIde_notifies k d : notifies k d (postToIde k d None 0).
Proof.
  intros w acts Ht Hacts.
  assert (H : notifying k d w (postToIde k d None 0 w))
    by (by apply attempt_notifying).
  revert H. generalize (postToIde k d None 0 w).
  induction Hacts as [|a acts Ha _ IH]; intros w' H; [done|].
  simpl. by apply IH, step_notifying.
Qed.

(** X14: the four notifications are sends without an identifier, and a
    send without an identifier draws its identifier at the attempt that
    gets through.  However the environment changes between the attempts,
    a notification hands over nothing or exactly one envelope: the one
    with its operation name, its argument wrapped under its own key, and
    the identifier that was next in line when it was called.  An attempt
    that fails uses up no identifier. *)
Theorem notifications_send_once message tableName payload title key :
  notifies "errorPopup" (VObj [("message", VStr message)])
    (errorPopup message) ∧
  notifies "logDevData"
    (VObj [("tableName", VStr tableName); ("data", payload)])
    (logDevData tableName payload) ∧
  notifies "deleteModel" (VObj [("title", title)]) (deleteModel title) ∧
  notifies "addOpenAIKey" (VObj [("key", VStr key)]) (addOpenAIKey key).
Proof. split; [|split; [|split]]; apply postToIde_notifies. Qed.

End Notifications.


Lemma notifications_send_once_witness :
  let w := initial_world failing_env (λ _, "u") in
  let w' := play [Fire 0; SetEnv plain_env; Fire 0] (errorPopup "boom" w) in
  sent (trace w')
    = sent (trace w) ++ [{| messageId := "u"; messageType := "errorPopup";
                            data := VObj [("message", VStr "boom")] |}] ∧
  uuid_next w' = 1%nat.
Proof.
  intros w w'.
  destruct (proj1 (notifications_send_once "boom" "" VNull VNull "") w
              [Fire 0; SetEnv plain_env; Fire 0] eq_refl
              ltac:(by repeat constructor))
    as [_ [(n & Ht & _) | (_ & [[Hs _] | H])]].
  - discriminate Ht.
  - discriminate Hs.
  - exact H.
Defined.


(** ** The timers of a stream *)

Section Polling.

Variable g : nat.

Lemma sleeps_app ts1 ts2 :
  sleeps g (ts1 ++ ts2) = (sleeps g ts1 + sleeps g ts2)%nat.
Proof. unfold sleeps. by rewrite flat_map_app, length_app. Qed.

Lemma sleeps_delete ts i cb :
  ts !! i = Some cb →
  sleeps g ts = (sleeps g (delete i ts) + sleeps g [cb])%nat.
Proof.
  intros Hi. rewrite <- (take_drop_middle ts i cb Hi) at 1.
  rewrite delete_take_drop, !sleeps_app.
  change (cb :: drop (S i) ts) with ([cb] ++ drop (S i) ts).
  rewrite sleeps_app. lia.
Qed.

Lemma sleeps_none ts : (∀ g', ResolveSleep g' ∉ ts) → sleeps g ts = 0%nat.
Proof.
  induction ts as [|cb ts IH]; intros H; [done|].
  change (cb :: ts) with ([cb] ++ ts). rewrite sleeps_app, IH.
  - destruct cb as [| g']; [done|]. destruct (H g'). apply list_elem_of_here.
  - intros g' Hin. apply (H g'). by apply list_elem_of_further.
Qed.

Lemma sleeps_postToIde k d id n w :
  sleeps g (timers (postToIde k d id n w)) = sleeps g (timers w).
Proof.
  destruct (timers_postToIde k d id n w) as (ts & -> & Hts).
  rewrite sleeps_app, (sleeps_none ts Hts). lia.
Qed.

Lemma sleeps_abort s w : sleeps g (timers (abort s w)) = sleeps g (timers w).
Proof.
  unfold abort. case_match; [done|].
  match goal with |- context [foldl _ ?v ?l] =>
    change (timers w) with (timers v); generalize v; generalize l end.
  intros l. induction l as [|i l IH]; intros v; [done|].
  simpl. by rewrite IH, sleeps_postToIde.
Qed.

Lemma polling_loop w f r c0 :
  generators w = {[g := c0]} → sleeps g (timers w) = 0%nat →
  polling g (loop g f r w).
Proof.
  intros Hg Hs. unfold loop, after_loop, sleep, finish, park, setTimeout, emit.
  unfold polling.
  repeat case_match; simpl; eexists _, _, _;
    (split; [rewrite Hg; apply insert_singleton_eq|]);
    rewrite ?sleeps_app, ?Hs; unfold sleeps; simpl;
    rewrite ?decide_True by done; done.
Qed.

Lemma polling_still w w' :
  polling g w → still g w w' → sleeps g (timers w') = sleeps g (timers w) →
  polling g w'.
Proof.
  intros (f & pc & r & Hg & Hs) [Hst _] Ht.
  destruct (Hst f pc r Hg) as [f' Hg']. exists f', pc, r. by rewrite Ht.
Qed.

Lemma step_polling a w : polling g w → polling g (step w a).
Proof.
  intros H. pose proof H as (f & pc & r & Hg & Hs).
  destruct a as [event|g'|i|s'|e']; simpl.
  - apply (polling_still w); [done | apply still_deliver |].
    by rewrite (proj2 (proj2 (deliver_sends_nothing event w))).
  - unfold next. rewrite Hg.
    destruct (decide (g' = g)) as [->|Hne];
      [|by rewrite lookup_singleton_ne].
    rewrite lookup_singleton_eq.
    unfold sleep, finish, park, setTimeout, emit, polling.
    destruct pc; simpl;
      first [ by (exists f, Completed, r)
            | eexists _, _, _;
              (split; [rewrite Hg; apply insert_singleton_eq|]);
              rewrite ?sleeps_app, ?Hs; unfold sleeps; simpl;
              rewrite ?decide_True by done; done ].
  - unfold fire. destruct (timers w !! i) as [cb|] eqn:Hi; [|done].
    pose proof (sleeps_delete _ _ _ Hi) as Hd. rewrite Hs in Hd.
    destruct cb as [k d mid n|g']; simpl.
    + apply (polling_still w); [done | |].
      * eapply still_trans; [apply still_set_timers | apply still_postToIde].
      * rewrite sleeps_postToIde. simpl. unfold sleeps in Hd at 2.
        simpl in Hd. lia.
    + unfold wake. simpl. rewrite Hg.
      destruct (decide (g' = g)) as [->|Hne].
      * rewrite lookup_singleton_eq.
        unfold sleeps in Hd at 2. simpl in Hd.
        rewrite decide_True in Hd by done. simpl in Hd.
        destruct pc; try lia.
        apply polling_loop with (c0 := Started f AtSleep r); [done|].
        simpl. lia.
      * rewrite lookup_singleton_ne by done.
        unfold sleeps in Hd at 2. simpl in Hd.
        rewrite decide_False in Hd by done. simpl in Hd.
        exists f, pc, r. split; [done|]. simpl. lia.
  - apply (polling_still w); [done | apply still_abort | apply sleeps_abort].
  - by exists f, pc, r.
Qed.

Lemma play_polling acts w : polling g w → polling g (play acts w).
Proof.
  revert w. induction acts as [|a acts IH]; intros w H; [done|].
  simpl. by apply IH, step_polling.
Qed.

End Polling.

Section StreamTimers.

Variables (e : Env) (ids : nat → string).
Variables (k : string) (d : Value) (tok : option nat).

Let g := fst (ideStreamRequest k d tok (initial_world e ids)).

Lemma started_polling : polling g (started e ids k d tok).
Proof.
  unfold started, g, ideStreamRequest, next. simpl.
  rewrite lookup_insert_eq. unfold start. simpl.
  set (w1 := set_uuid_next 1 _).
  destruct (same_registry_postToIde k d (Some (ids 0%nat)) 0 w1)
    as [_ _ Hg _ _ _ _].
  pose proof (sleeps_postToIde 0 k d (Some (ids 0%nat)) 0 w1) as Hs.
  eapply polling_loop with (c0 := Unstarted k d tok).
  - unfold addEventListener.
    destruct tok; case_decide; simpl; rewrite Hg; simpl; apply insert_empty.
  - unfold addEventListener.
    destruct tok; case_decide; simpl; by rewrite Hs.
Qed.

(** X15: a stream polls with one timer.  At every point of every run
    exactly one 50 ms sleep of the generator is pending while it sleeps,
    and none while it is parked at a yield or after it has returned:
    timers do not pile up, and the polling ends with the stream. *)
Theorem ideStreamRequest_one_timer acts :
  let w := play acts (started e ids k d tok) in
  sleeps g (timers w)
    = match pc_of g w with Some AtSleep => 1%nat | _ => 0%nat end.
Proof.
  intros w.
  destruct (play_polling g acts _ started_polling) as (f & pc & r & Hg & Hs).
  fold w in Hg, Hs. unfold pc_of. by rewrite Hg, lookup_singleton_eq.
Qed.

End StreamTimers.


(** ** C6: cancellation, in every environment *)

Section Cancel.

Variables (k : string) (d : Value) (id : string) (g s : nat).

Hypothesis Hk : k ≠ "abort".

Local Abbreviation cancellable := (cancellable k d id g s).

Lemma aborts_sent t t' : sent t' = sent t → aborts t' = aborts t.
Proof. unfold aborts. by intros ->. Qed.

Lemma aborts_request t t' l :
  sent t' = sent t ++ l → Forall (envelope_of k d (Some id)) l →
  aborts t' = aborts t.
Proof.
  intros Hs Hl. unfold aborts. rewrite Hs, flat_map_app. clear Hs.
  assert (flat_map (λ m, if String.eqb (messageType m) "abort"
                         then [m] else []) l = []) as ->.
  { induction Hl as [|m l (Hm & _) _ IH]; [done|]. simpl. rewrite IH.
    apply String.eqb_neq in Hk. by rewrite Hm, Hk. }
  by rewrite app_nil_r.
Qed.

Lemma abort_timers_app ts1 ts2 :
  abort_timers (ts1 ++ ts2) = (abort_timers ts1 + abort_timers ts2)%nat.
Proof. unfold abort_timers. by rewrite flat_map_app, length_app. Qed.

Lemma abort_timers_delete ts i cb :
  ts !! i = Some cb →
  abort_timers ts = (abort_timers (delete i ts) + abort_timers [cb])%nat.
Proof.
  intros Hi. rewrite <- (take_drop_middle ts i cb Hi) at 1.
  rewrite delete_take_drop, !abort_timers_app.
  change (cb :: drop (S i) ts) with ([cb] ++ drop (S i) ts).
  rewrite abort_timers_app. lia.
Qed.

Lemma abort_timers_sleeps ts :
  Forall (λ cb, cb = ResolveSleep g) ts → abort_timers ts = 0%nat.
Proof. induction 1 as [|cb ts -> _ IH]; [done|]. exact IH. Qed.

Lemma abort_timers_request ts :
  Forall (λ cb, ∃ m, cb = RetryPost k d (Some id) m) ts →
  abort_timers ts = 0%nat.
Proof.
  induction 1 as [|cb ts [m ->] _ IH]; [done|].
  unfold abort_timers in *. simpl.
  apply String.eqb_neq in Hk. by rewrite Hk.
Qed.

Lemma cancellable_quiet w w' :
  cancellable w → quiet g w w' → cancellable w'.
Proof.
  intros [Ho Hl Ht Hc] [Qs Qg (ts & Qt & Qts)].
  split.
  - intros s' sg. rewrite Qg. apply Ho.
  - unfold signal_of. by rewrite Qg.
  - rewrite Qt. apply Forall_app. split; [done|].
    eapply Forall_impl; [exact Qts|]. intros cb ->. left. by left.
  - unfold signal_of in *. rewrite Qg, Qt, abort_timers_app.
    rewrite (abort_timers_sleeps ts Qts), Nat.add_0_r.
    by rewrite (aborts_sent _ _ Qs).
Qed.

(** What one attempt of the "abort" send does. *)
Lemma abort_attempt n v :
  let w' := postToIde "abort" VUndefined (Some id) n v in
  signals w' = signals v ∧
  (transport_available (env v) = true →
   sent (trace w') = sent (trace v) ++ [abort_envelope id] ∧
   timers w' = timers v) ∧
  (transport_available (env v) = false →
   sent (trace w') = sent (trace v) ∧
   (timers w' = timers v ∨
    timers w'
      = timers v ++ [RetryPost "abort" VUndefined (Some id) (n + 1)])).
Proof.
  unfold postToIde, _postToIde, setTimeout, emit, transport_available,
    alternate_host_ready, abort_envelope.
  destruct (vscode (env v)), (jetbrains (env v)),
    (postIntellijMessage (env v)), (n <? 5)%nat; simpl;
    rewrite ?sent_app; simpl; rewrite ?app_nil_r;
    (split; [done|]); (split; [by intros|]); intros; try done;
    (split; [done|]); by (left + right).
Qed.

(** The page after an attempt of the "abort" send, made when the signal
    has fired, no "abort" envelope has been sent and no retry of it is
    pending. *)
Lemma cancellable_attempt n v :
  (∀ s' sg, signals v !! s' = Some sg → s' ≠ s → on_abort sg = []) →
  on_abort (signal_of s v) = [id] →
  aborted (signal_of s v) = true →
  Forall (λ cb, request_timer k d id g cb ∨
                ∃ n, cb = RetryPost "abort" VUndefined (Some id) n)
         (timers v) →
  aborts (trace v) = [] → abort_timers (timers v) = 0%nat →
  cancellable (postToIde "abort" VUndefined (Some id) n v).
Proof.
  intros Ho Hl Ha Ht Hab Hat.
  destruct (abort_attempt n v) as (Hsg & Hyes & Hno).
  split.
  - intros s' sg. rewrite Hsg. apply Ho.
  - unfold signal_of. by rewrite Hsg.
  - destruct (transport_available (env v)).
    + by rewrite (proj2 (Hyes eq_refl)).
    + destruct (Hno eq_refl) as [_ [-> | ->]]; [done|].
      apply Forall_app. split; [done|]. constructor; [|done].
      right. by eexists.
  - unfold signal_of in *. rewrite Hsg, Ha.
    destruct (transport_available (env v)).
    + destruct (Hyes eq_refl) as [Hs ->]. left. split; [|done].
      unfold aborts in *. by rewrite Hs, flat_map_app, Hab.
    + destruct (Hno eq_refl) as [Hs Htm]. right.
      rewrite (aborts_sent _ _ Hs). split; [done|].
      destruct Htm as [-> | ->]; [lia|].
      rewrite abort_timers_app, Hat. unfold abort_timers. simpl. lia.
Qed.

Lemma cancellable_set_timers ts w :
  cancellable w →
  Forall (λ cb, request_timer k d id g cb ∨
                ∃ n, cb = RetryPost "abort" VUndefined (Some id) n) ts →
  abort_timers ts = abort_timers (timers w) →
  cancellable (set_timers ts w).
Proof.
  intros [Ho Hl Ht Hc] Hts Hn. split; try done.
  unfold signal_of in *. simpl. by rewrite Hn.
Qed.

Lemma step_cancellable st a w :
  stream_inv g id st w → cancellable w → cancellable (step w a).
Proof.
  intros (f & pc & r & Hg & _) Hcn.
  destruct a as [event|g'|i|s'|e']; simpl.
  - destruct (deliver_sends_nothing event w) as (Hs & Hsg & Ht).
    apply (cancellable_quiet w); [done|]. split; [done | done |].
    exists []. by rewrite app_nil_r.
  - destruct (decide (g' = g)) as [->|Hne].
    + apply (cancellable_quiet w); [done|].
      eapply quiet_next. by rewrite Hg, lookup_singleton_eq.
    + unfold next. by rewrite Hg, lookup_singleton_ne.
  - unfold fire. destruct (timers w !! i) as [cb|] eqn:Hi; [|done].
    pose proof (abort_timers_delete _ _ _ Hi) as Hd.
    pose proof Hcn as [Ho Hl Ht Hc].
    pose proof (Forall_lookup_1 _ _ _ _ Ht Hi) as Hcb.
    pose proof (Forall_delete _ _ i Ht) as Ht'.
    set (v := set_timers (delete i (timers w)) w).
    destruct Hcb as [[-> | [n ->]] | [n ->]]; simpl.
    + apply (cancellable_quiet v); [|apply quiet_wake].
      apply cancellable_set_timers; [done | done |].
      unfold abort_timers in Hd at 3. simpl in Hd. lia.
    + assert (Hv : cancellable v).
      { apply cancellable_set_timers; [done | done |].
        rewrite (abort_timers_request [_]) in Hd
          by (constructor; [by eexists | done]). lia. }
      destruct (postToIde_sends k d (Some id) n v)
        as (l & ts & Hst & Hl0 & Htm & Hts).
      destruct Hv as [Ho' Hl' Htv Hcv]. split.
      * intros s2 sg. rewrite signals_postToIde. apply Ho'.
      * unfold signal_of. by rewrite signals_postToIde.
      * rewrite Htm. apply Forall_app. split; [done|].
        eapply Forall_impl; [exact Hts|]. intros cb [m ->].
        left. right. by exists m.
      * unfold signal_of in *.
        rewrite signals_postToIde, Htm, abort_timers_app.
        rewrite (abort_timers_request ts Hts), Nat.add_0_r.
        by rewrite (aborts_request _ _ _ Hst Hl0).
    + unfold abort_timers in Hd at 3. simpl in Hd.
      destruct (aborted (signal_of s w)) eqn:Ha.
      * destruct Hc as [[_ Hc] | [Hab Hc]]; [lia|].
        apply cancellable_attempt; try done. simpl. lia.
      * destruct Hc as [_ Hc]. lia.
  - pose proof Hcn as [Ho Hl Ht Hc].
    destruct (decide (s' = s)) as [->|Hne].
    + unfold abort. destruct (aborted (signal_of s w)) eqn:Ha; [done|].
      rewrite Hl. simpl. destruct Hc as [Hab Hat].
      apply cancellable_attempt; simpl; try done.
      * intros s2 sg Hlk Hne. rewrite lookup_insert_ne in Hlk by done.
        by apply (Ho s2 sg).
      * unfold signal_of. simpl. by rewrite lookup_insert_eq.
      * unfold signal_of. simpl. by rewrite lookup_insert_eq.
    + assert (Hq : on_abort (signal_of s' w) = []).
      { unfold signal_of. destruct (signals w !! s') as [sg|] eqn:Hlk;
          [|done]. by apply (Ho s' sg). }
      destruct (abort_unheard_signal s' w (or_intror Hq)) as (Htr & Htm & _).
      assert (Hs : signal_of s (abort s' w) = signal_of s w).
      { unfold signal_of at 1. rewrite signals_abort.
        destruct (aborted (signal_of s' w)); [done|].
        by rewrite lookup_insert_ne. }
      split.
      * intros s2 sg. rewrite signals_abort.
        destruct (aborted (signal_of s' w)); [apply Ho|].
        destruct (decide (s' = s2)) as [<-|Hne2].
        -- rewrite lookup_insert_eq. by intros [= <-].
        -- rewrite lookup_insert_ne by done. apply Ho.
      * by rewrite Hs.
      * by rewrite Htm.
      * by rewrite Hs, Htr, Htm.
  - by destruct Hcn.
Qed.

Lemma play_cancellable st acts w :
  stream_inv g id st w → cancellable w → cancellable (play acts w).
Proof.
  revert st w. induction acts as [|a acts IH]; intros st w Hinv Hc; [done|].
  simpl. apply (IH (feed id st a)).
  - by apply step_stream_inv.
  - by apply (step_cancellable st).
Qed.

(** Whatever has happened, at most the one "abort" envelope has been
    sent; and a pending retry of it that runs with a primitive in reach
    sends it. *)
Lemma cancellable_aborts w :
  cancellable w →
  (aborts (trace w) = [] ∨ aborts (trace w) = [abort_envelope id]) ∧
  (aborted (signal_of s w) = false → aborts (trace w) = []) ∧
  ∀ i n, timers w !! i = Some (RetryPost "abort" VUndefined (Some id) n) →
         transport_available (env w) = true →
         aborts (trace (fire i w)) = [abort_envelope id].
Proof.
  intros [Ho Hl Ht Hc]. split; [|split].
  - destruct (aborted _); [destruct Hc as [[? _]|[? _]] | destruct Hc];
      auto.
  - intros Ha. rewrite Ha in Hc. by destruct Hc.
  - intros i n Hi Hav.
    pose proof (abort_timers_delete _ _ _ Hi) as Hd.
    unfold abort_timers in Hd at 3. simpl in Hd.
    assert (Hab : aborts (trace w) = []).
    { destruct (aborted _); [destruct Hc as [[_ ?]|[? _]] | destruct Hc];
        (done || lia). }
    unfold fire. rewrite Hi. simpl.
    destruct (abort_attempt n (set_timers (delete i (timers w)) w))
      as (_ & Hyes & _).
    destruct (Hyes Hav) as [Hs _]. simpl in Hs.
    unfold aborts in *. by rewrite Hs, flat_map_app, Hab.
Qed.


(** Once the "abort" envelope has been sent, no other follows. *)
Lemma step_aborts_stay st a w :
  stream_inv g id st w → cancellable w →
  aborts (trace w) = [abort_envelope id] →
  aborts (trace (step w a)) = [abort_envelope id].
Proof.
  intros (f & pc & r & Hg & _) [Ho Hl Ht Hc] Hab.
  destruct a as [event|g'|i|s'|e']; simpl; [| | | |done].
  - by rewrite (aborts_sent _ _ (proj1 (deliver_sends_nothing event w))).
  - destruct (decide (g' = g)) as [->|Hne].
    + assert (Hq : quiet g w (next g w))
        by (eapply quiet_next; by rewrite Hg, lookup_singleton_eq).
      by rewrite (aborts_sent _ _ (q_sent _ _ _ Hq)).
    + unfold next. by rewrite Hg, lookup_singleton_ne.
  - unfold fire. destruct (timers w !! i) as [cb|] eqn:Hi; [|done].
    pose proof (abort_timers_delete _ _ _ Hi) as Hd.
    set (v := set_timers (delete i (timers w)) w).
    destruct (Forall_lookup_1 _ _ _ _ Ht Hi) as [[-> | [n ->]] | [n ->]];
      simpl.
    + by rewrite (aborts_sent _ _ (q_sent _ _ _ (quiet_wake g v))).
    + destruct (postToIde_sends k d (Some id) n v)
        as (l & ts & Hst & Hl0 & _).
      by rewrite (aborts_request _ _ _ Hst Hl0).
    + unfold abort_timers in Hd at 3. simpl in Hd.
      destruct (aborted _); [destruct Hc as [[_ ?]|[? _]] | destruct Hc];
        (congruence || lia).
  - destruct (decide (s' = s)) as [->|Hne].
    + unfold abort. destruct (aborted (signal_of s w)); [done|].
      destruct Hc. congruence.
    + assert (Hq : on_abort (signal_of s' w) = []).
      { unfold signal_of. destruct (signals w !! s') as [sg|] eqn:Hlk;
          [|done]. by apply (Ho s' sg). }
      destruct (abort_unheard_signal s' w (or_intror Hq)) as (Htr & _).
      by rewrite Htr.
Qed.

Lemma play_aborts_stay st acts w :
  stream_inv g id st w → cancellable w →
  aborts (trace w) = [abort_envelope id] →
  aborts (trace (play acts w)) = [abort_envelope id].
Proof.
  revert st w. induction acts as [|a acts IH]; intros st w Hinv Hc Hab;
    [done|].
  simpl. apply (IH (feed id st a)).
  - by apply step_stream_inv.
  - by apply (step_cancellable st).
  - by apply (step_aborts_stay st).
Qed.

End Cancel.

Section CancelClaim.

Variables (e : Env) (ids : nat → string).
Variables (k : string) (d : Value) (s : nat).

Lemma started_cancellable :
  k ≠ "abort" →
  cancellable k d (ids 0%nat) 0 s (started e ids k d (Some s)).
Proof.
  intros Hk. unfold started, ideStreamRequest, next. simpl.
  rewrite lookup_insert_eq. unfold start. simpl.
  set (w1 := set_uuid_next 1 _).
  set (wp := postToIde k d (Some (ids 0%nat)) 0 w1).
  destruct (same_registry_postToIde k d (Some (ids 0%nat)) 0 w1)
    as [Hl _ _ _ _ _ _].
  pose proof (signals_postToIde k d (Some (ids 0%nat)) 0 w1) as Hsg.
  destruct (postToIde_sends k d (Some (ids 0%nat)) 0 w1)
    as (l & ts & Hst & Hl0 & Htm & Hts).
  fold wp in Hl, Hsg, Hst, Htm. simpl in Hl, Hsg, Hst, Htm.
  assert (Hadd : addEventListener (StreamHandler 0) wp
                 = set_listeners [StreamHandler 0] wp).
  { unfold addEventListener. by rewrite Hl. }
  rewrite Hadd.
  set (w4 := add_abort_listener s (ids 0%nat) _).
  set (f := {| f_messageId := ids 0%nat; buffer := ""; index := 0;
               done := false; returnVal := VUndefined |}).
  destruct (quiet_loop 0 f 1 w4) as [Qs Qg (ts' & Qt & Qts)].
  assert (Hsig : signals (loop 0 f 1 w4)
                 = {[s := {| aborted := false;
                             on_abort := [ids 0%nat] |}]}).
  { rewrite Qg. unfold w4, add_abort_listener, signal_of. simpl.
    by rewrite Hsg. }
  assert (Hso : signal_of s (loop 0 f 1 w4)
                = {| aborted := false; on_abort := [ids 0%nat] |}).
  { unfold signal_of. by rewrite Hsig, lookup_singleton_eq. }
  split.
  - intros s' sg. rewrite Hsig. intros Hlk Hne.
    by rewrite lookup_singleton_ne in Hlk.
  - by rewrite Hso.
  - rewrite Qt. simpl. rewrite Htm. apply Forall_app. split.
    + eapply Forall_impl; [exact Hts|]. intros cb [m ->].
      left. right. by exists m.
    + eapply Forall_impl; [exact Qts|]. intros cb ->. left. by left.
  - rewrite Hso. cbn [aborted]. split.
    + rewrite (aborts_sent (trace wp) _) by (by rewrite Qs).
      by rewrite (aborts_request k d (ids 0%nat) Hk [] (trace wp) l).
    + rewrite Qt. simpl. rewrite Htm, abort_timers_app.
      rewrite (abort_timers_request k d (ids 0%nat) Hk ts Hts).
      by rewrite (abort_timers_sleeps 0 ts' Qts).
Qed.

End CancelClaim.

(** C6 (amended): take a started stream with a cancellation signal, and
    any run in which neither a completion envelope for it has arrived nor
    the signal has fired; then the signal fires.

    In every environment the firing leaves the generator as it was, a
    second firing does nothing, and as long as no completion envelope
    arrives the generator does not return and keeps listening.

    The firing hands the "abort" envelope bearing the stream's
    identifier to the dispatcher, once.  With a send primitive in reach
    the envelope is sent at once and no retry is set.  Without one
    nothing is sent at the firing, and a retry is set exactly when the
    selector throws.

    When the stream's own operation is not "abort": no "abort" envelope
    was sent before the firing; whatever happens after it, at most the
    one "abort" envelope is ever sent; a pending retry that runs with a
    primitive in reach sends it; and once it has been sent no other
    follows. *)
Theorem abort_sends_one_envelope e ids k d s acts post :
  let id := ids 0%nat in
  let g := fst (ideStreamRequest k d (Some s) (initial_world e ids)) in
  let w2 := play acts (started e ids k d (Some s)) in
  let w3 := abort s w2 in
  Forall (before_abort id s) acts →
  Forall (no_completion id) post →
  (abort s w3 = w3 ∧
   (generators w3 = generators w2 ∧
    yields g (trace w3) = yields g (trace w2) ∧
    returns g (trace w3) = []) ∧
   (pc_of g (play post w3) ≠ Some Completed ∧
    returns g (trace (play post w3)) = [] ∧
    listeners (play post w3) = [StreamHandler g])) ∧
  (transport_available (env w2) = true →
   sent (trace w3) = sent (trace w2) ++ [abort_envelope id] ∧
   timers w3 = timers w2) ∧
  (transport_available (env w2) = false →
   sent (trace w3) = sent (trace w2) ∧
   timers w3
     = timers w2 ++
       if transport_fails (env w2)
       then [RetryPost "abort" VUndefined (Some id) 1]
       else []) ∧
  (k ≠ "abort" →
   aborts (trace w2) = [] ∧
   (transport_available (env w2) = true →
    aborts (trace w3) = [abort_envelope id]) ∧
   ∀ later,
     let w' := play later w3 in
     (aborts (trace w') = [] ∨ aborts (trace w') = [abort_envelope id]) ∧
     (∀ i n,
        timers w' !! i = Some (RetryPost "abort" VUndefined (Some id) n) →
        transport_available (env w') = true →
        aborts (trace (fire i w')) = [abort_envelope id]) ∧
     (aborts (trace w') = [abort_envelope id] →
      ∀ more, aborts (trace (play more w')) = [abort_envelope id])).
Proof.
  intros id g w2 w3 Hacts Hpost.
  destruct (play_open e ids k d s ([], None) acts _
              (started_stream_inv e ids k d (Some s)) eq_refl)
    as (st2 & Hinv2 & Hst2).
  { eapply Forall_impl; [exact Hacts | by intros a [? _]]. }
  fold w2 in Hinv2. fold g in Hinv2.
  assert (Harm : armed s (ids 0%nat) w2).
  { eapply play_armed; [apply started_stream_inv | apply started_armed |].
    eapply Forall_impl; [exact Hacts | by intros a [_ ?]]. }
  assert (Hinv3 : stream_inv g (ids 0%nat) st2 w3)
    by apply (step_stream_inv g (ids 0%nat) st2 (Abort s) w2 Hinv2).
  pose proof (abort_armed ids s w2 Harm) as Hw3. fold w3 in Hw3.
  destruct (open_stream e ids k d s st2 w3 Hinv3 Hst2) as (_ & Hr3 & _).
  destruct (same_registry_abort s w2) as [_ _ Hg3 _ _ Hy3 _].
  fold w3 in Hg3, Hy3.
  destruct (play_open e ids k d s st2 post w3 Hinv3 Hst2 Hpost)
    as (st4 & Hinv4 & Hst4).
  set (v := set_signals _ w2) in Hw3.
  destruct (abort_attempt id 0 v) as (_ & Hyes & Hno).
  fold id in Hw3. rewrite <- Hw3 in Hyes, Hno. simpl in Hyes, Hno.
  split; [|split; [|split]].
  - split; [|split].
    + apply abort_twice. unfold signal_of.
      by rewrite Hw3, signals_postToIde; simpl; rewrite lookup_insert_eq.
    + by split.
    + by apply (open_stream e ids k d s st4).
  - exact Hyes.
  - intros Hav. split; [by apply Hno|].
    rewrite Hw3. destruct (transport_fails (env w2)) eqn:Hf.
    + by rewrite (postToIde_retry "abort" VUndefined (Some id) 0 v Hf)
        by lia.
    + pose proof (proj1 (postToIde_normal "abort" VUndefined (Some id) 0 v
                           Hf)) as Ht.
      simpl in Ht. by rewrite Ht, app_nil_r.
  - intros Hk.
    pose proof (started_cancellable e ids k d s Hk) as Hc1.
    pose proof (play_cancellable k d id g s Hk _ acts _
                  (started_stream_inv e ids k d (Some s)) Hc1) as Hc2.
    fold w2 in Hc2.
    pose proof (step_cancellable k d id g s Hk st2 (Abort s) w2
                  Hinv2 Hc2) as Hc3.
    change (step w2 (Abort s)) with w3 in Hc3.
    assert (Hab2 : aborts (trace w2) = []).
    { apply (cancellable_aborts k d id g s w2 Hc2).
      unfold signal_of. by rewrite Harm. }
    split; [done|]. split.
    + intros Hav. destruct (Hyes Hav) as [Hs _].
      unfold aborts in *. by rewrite Hs, flat_map_app, Hab2.
    + intros later w'.
      pose proof (play_cancellable k d id g s Hk _ later _ Hinv3 Hc3)
        as Hc'.
      pose proof (play_stream_inv g id _ later _ Hinv3) as Hinv'.
      fold w' in Hc', Hinv'.
      destruct (cancellable_aborts k d id g s w' Hc') as (H1 & _ & H3).
      split; [done|]. split; [done|].
      intros Hab more.
      by apply (play_aborts_stay k d id g s Hk _ more w' Hinv' Hc').
Qed.


Lemma abort_sends_one_envelope_witness :
  let acts := [Deliver {| messageId := "X"; messageType := "llmStreamChat";
                          data := fragment "a" |}; SetEnv failing_env] in
  let w2 := play acts (started plain_env (λ _, "X") "llmStreamChat" VNull
                         (Some 7%nat)) in
  let w3 := abort 7 w2 in
  let w' := play [SetEnv bridged_env] w3 in
  abort 7 w3 = w3 ∧
  (sent (trace w3) = sent (trace w2) ∧
   timers w3 = timers w2 ++ [RetryPost "abort" VUndefined (Some "X") 1]) ∧
  aborts (trace (fire 1 w')) = [abort_envelope "X"].
Proof.
  intros acts w2 w3 w'.
  destruct (abort_sends_one_envelope plain_env (λ _, "X") "llmStreamChat"
              VNull 7 acts [])
    as ((H1 & _) & _ & H3 & H4).
  - repeat constructor; simpl; done.
  - constructor.
  - split; [exact H1|]. split; [exact (H3 eq_refl)|].
    destruct (H4 ltac:(discriminate)) as (_ & _ & Hl).
    destruct (Hl [SetEnv bridged_env]) as (_ & Hfire & _).
    exact (Hfire 1%nat 1%nat eq_refl eq_refl).
Defined.
